(** * sql_script_splitter: a shallow embedding of [sql_script_splitter.py]

    The script cuts one SQL file made of a chain of CTEs into one file per
    CTE plus a final file, and rewrites the references between them.  This
    development embeds the text-level core of the script and states its
    documented properties against it.

    Python values are represented as follows.
    - [str] : a Python string, as the list of its characters.  Characters are
      the code points below 256 ([ascii]); the classifications below
      ([is_space], [is_linebreak], [lower_char]) are Python's, restricted to
      that range.
    - [result] : the outcome of a call that may raise.
    - Regular expressions of the [re] module are values of [regex], run by a
      backtracking matcher that enumerates the matches in the order in which
      [re] tries them. *)

From Stdlib Require Import List Ascii String Arith Lia Bool.
Import ListNotations.
Local Open Scope list_scope.

(** ** Characters and strings *)

Definition str := list ascii.

Definition nl : ascii := "010"%char.
Definition tab : ascii := "009"%char.
Definition cr : ascii := "013"%char.
Definition dquote : ascii := "034"%char.
Definition backslash : ascii := "092"%char.

(** [py s] reads a literal written with the escapes [\n], [\t], [\r], [\\]
    and [\q] (a double quote); [lit s] takes the characters as they are. *)
Fixpoint unescape (esc : bool) (s : str) : str :=
  match s with
  | [] => if esc then [backslash] else []
  | c :: s' =>
      if esc then
        (if Ascii.eqb c "n"%char then nl
         else if Ascii.eqb c "t"%char then tab
         else if Ascii.eqb c "r"%char then cr
         else if Ascii.eqb c "q"%char then dquote
         else c) :: unescape false s'
      else if Ascii.eqb c backslash then unescape true s'
      else c :: unescape false s'
  end.

Definition py (s : string) : str := unescape false (list_ascii_of_string s).
Definition lit (s : string) : str := list_ascii_of_string s.

Fixpoint str_eqb (a b : str) : bool :=
  match a, b with
  | [], [] => true
  | x :: a', y :: b' => Ascii.eqb x y && str_eqb a' b'
  | _, _ => false
  end.

(** [str.isspace] on a single character: the class used by [str.strip],
    [str.rstrip] and by [\s] in a [re] pattern over [str]. *)
Definition is_space (c : ascii) : bool :=
  let n := nat_of_ascii c in
  ((9 <=? n) && (n <=? 13)) || ((28 <=? n) && (n <=? 32))
  || (n =? 133) || (n =? 160).

(** The line boundaries of [str.splitlines]. *)
Definition is_linebreak (c : ascii) : bool :=
  let n := nat_of_ascii c in
  ((10 <=? n) && (n <=? 13)) || ((28 <=? n) && (n <=? 30)) || (n =? 133).

(** [str.lower] on one character. *)
Definition lower_char (c : ascii) : ascii :=
  let n := nat_of_ascii c in
  if ((65 <=? n) && (n <=? 90))
     || ((192 <=? n) && (n <=? 222) && negb (n =? 215))
  then ascii_of_nat (n + 32) else c.

Definition lower (s : str) : str := map lower_char s.

Fixpoint dropwhile (p : ascii -> bool) (s : str) : str :=
  match s with
  | [] => []
  | c :: s' => if p c then dropwhile p s' else s
  end.

Definition lstrip (s : str) : str := dropwhile is_space s.
Definition rstrip (s : str) : str := rev (dropwhile is_space (rev s)).
Definition strip (s : str) : str := lstrip (rstrip s).

(** [s.strip(",")] *)
Definition strip_commas (s : str) : str :=
  dropwhile (Ascii.eqb ","%char) (rev (dropwhile (Ascii.eqb ","%char) (rev s))).

Fixpoint startswith (p s : str) : bool :=
  match p, s with
  | [], _ => true
  | x :: p', y :: s' => Ascii.eqb x y && startswith p' s'
  | _ :: _, [] => false
  end.

Definition endswith (p s : str) : bool := startswith (rev p) (rev s).

(** [s.partition(c)] for a one-character separator: the text before the
    first [c] and the text after it, when [c] occurs. *)
Fixpoint cut_first (c : ascii) (s : str) : option (str * str) :=
  match s with
  | [] => None
  | x :: s' =>
      if Ascii.eqb x c then Some ([], s')
      else match cut_first c s' with
           | Some (a, b) => Some (x :: a, b)
           | None => None
           end
  end.

(** The same for the last occurrence of [c]. *)
Definition cut_last (c : ascii) (s : str) : option (str * str) :=
  match cut_first c (rev s) with
  | Some (a, b) => Some (rev b, rev a)
  | None => None
  end.

(** [s.split(c, 1)] and [s.rsplit(c, 1)]: one or two items. *)
Definition split1 (c : ascii) (s : str) : list str :=
  match cut_first c s with Some (a, b) => [a; b] | None => [s] end.

Definition rsplit1 (c : ascii) (s : str) : list str :=
  match cut_last c s with Some (a, b) => [a; b] | None => [s] end.

(** [s.split(c)]: every item, empty ones included. *)
Fixpoint split_all (c : ascii) (s : str) : list str :=
  match s with
  | [] => [[]]
  | x :: s' =>
      if Ascii.eqb x c then [] :: split_all c s'
      else match split_all c s' with
           | l :: ls => (x :: l) :: ls
           | [] => [[x]]
           end
  end.

(** [s.splitlines()]: [\r\n] is one boundary, and a boundary at the very end
    opens no further line. *)
Fixpoint splitlines_aux (cur : str) (s : str) : list str :=
  match s with
  | [] => match cur with [] => [] | _ => [rev cur] end
  | c :: s' =>
      if is_linebreak c then
        rev cur ::
        (if Ascii.eqb c cr then
           match s' with
           | d :: s'' => if Ascii.eqb d nl then splitlines_aux [] s''
                         else splitlines_aux [] s'
           | [] => splitlines_aux [] s'
           end
         else splitlines_aux [] s')
      else splitlines_aux (c :: cur) s'
  end.

Definition splitlines (s : str) : list str := splitlines_aux [] s.

(** [sep.join(l)] *)
Fixpoint join (sep : str) (l : list str) : str :=
  match l with
  | [] => []
  | [x] => x
  | x :: l' => x ++ sep ++ join sep l'
  end.

(** ** Exceptions *)

(** [OutOfFuel] is no Python exception: it marks the exhaustion of the
    bound that makes a [while True] loop a structural recursion, and
    [clean_query_terminates] shows that no call ends with it. *)
Inductive exn : Type :=
| IndexError
| ValueError
| Exception (msg : string)
| OutOfFuel.

Inductive result (A : Type) : Type :=
| Ok (a : A)
| Raise (e : exn).
Arguments Ok {A} a.
Arguments Raise {A} e.

Definition bind {A B : Type} (r : result A) (f : A -> result B) : result B :=
  match r with
  | Ok a => f a
  | Raise e => Raise e
  end.

Notation "x <- r ;; k" := (bind r (fun x => k))
  (at level 61, r at next level, right associativity).

(** [l[i]] *)
Definition getitem {A : Type} (l : list A) (i : nat) : result A :=
  match nth_error l i with
  | Some a => Ok a
  | None => Raise IndexError
  end.

(** ** The Text Normalizer: [SmallScript.clean_query] *)

(** The test of both loops: a blank line or a line comment. *)
Definition skippable (line : str) : bool :=
  str_eqb line [] || startswith (lit "--") line || startswith (lit "//") line.

(** The first [while True]: every turn goes on with the text after the
    first line break, so [fuel] turns suffice for a text of [fuel]
    characters. *)
Fixpoint clean_start (fuel : nat) (new_query : str) : result str :=
  let split_script := split1 nl new_query in
  first <- getitem split_script 0 ;;
  if skippable (strip first) then
    new_query' <- getitem split_script 1 ;;
    match fuel with
    | S fuel' => clean_start fuel' new_query'
    | O => Raise OutOfFuel
    end
  else Ok new_query.

(** The second [while True], from the end of the text. *)
Fixpoint clean_end (fuel : nat) (new_query : str) : result str :=
  let split_script := rsplit1 nl new_query in
  last <- getitem split_script 1 ;;
  if skippable (strip last) then
    new_query' <- getitem split_script 0 ;;
    match fuel with
    | S fuel' => clean_end fuel' new_query'
    | O => Raise OutOfFuel
    end
  else Ok new_query.

(** [new_query.strip().startswith("(") and new_query.strip().endswith(")")] *)
Definition wrapped (new_query : str) : bool :=
  startswith (lit "(") (strip new_query) && endswith (lit ")") (strip new_query).

(** [s[1:-1]] *)
Definition slice_1_m1 (s : str) : str := removelast (tl s).

(** The body of the [if] that removes the parentheses around a query. *)
Definition unwrap (new_query : str) : result str :=
  if wrapped new_query then
    let new_query := slice_1_m1 (strip new_query) in
    c <- getitem new_query 0 ;;
    if Ascii.eqb c nl then Ok (tl new_query) else Ok new_query
  else Ok new_query.

(** The last three statements: trailing whitespace of every line is
    removed, the lines are joined and a line break is appended. *)
Definition finish (new_query : str) : str :=
  let clean_list := map rstrip (splitlines new_query) in
  join [nl] clean_list ++ [nl].

(** The two loops together: the text without its leading and trailing blank
    and comment lines. *)
Definition trim_lines (query : str) : result str :=
  new_query <- clean_start (List.length query) query ;;
  clean_end (List.length new_query) new_query.

Definition clean_query (query : str) : result str :=
  new_query <- trim_lines query ;;
  new_query <- unwrap new_query ;;
  Ok (finish new_query).

(** ** Regular expressions

    The fragment of [re] that the script uses.  [Chr p] is one character of
    a class, [Rep g n r] is [r{n,}] ([g] tells greedy from lazy), [Group]
    is a capturing group, [LookBehind w r] is a look-behind for an [r] of
    width [w], [LookAhead r] is a look-ahead. *)

Inductive regex : Type :=
| Eps
| Chr (p : ascii -> bool)
| Seq (r1 r2 : regex)
| Alt (r1 r2 : regex)
| Rep (greedy : bool) (min : nat) (r : regex)
| Group (i : nat) (r : regex)
| LookBehind (width : nat) (r : regex)
| LookAhead (r : regex).

(** A literal text, and the same under [(?i)]. *)
Fixpoint Lit (s : str) : regex :=
  match s with
  | [] => Eps
  | c :: s' => Seq (Chr (Ascii.eqb c)) (Lit s')
  end.

Definition eqb_nocase (c d : ascii) : bool :=
  Ascii.eqb (lower_char c) (lower_char d).

Fixpoint LitI (s : str) : regex :=
  match s with
  | [] => Eps
  | c :: s' => Seq (Chr (eqb_nocase c)) (LitI s')
  end.

(** [.] (every character but the line feed), [\s], [[ ]] and [r?]. *)
Definition Dot : regex := Chr (fun c => negb (Ascii.eqb c nl)).
Definition Space : regex := Chr is_space.
Definition Blank : regex := Chr (Ascii.eqb " "%char).
Definition Opt (r : regex) : regex := Alt r Eps.
Definition Star (r : regex) : regex := Rep true 0 r.
Definition Plus (r : regex) : regex := Rep true 1 r.

(** The state of a match in progress: the text before the position (last
    character first), the text from the position on, and the groups set so
    far (the latest first). *)
Record mstate : Type := MState {
  m_prev : str;
  m_rest : str;
  m_caps : list (nat * str)
}.

Definition advance (s : mstate) : list mstate :=
  match m_rest s with
  | [] => []
  | c :: t => [MState (c :: m_prev s) t (m_caps s)]
  end.

(** The text read between two states of one match. *)
Definition consumed (s s' : mstate) : str :=
  firstn (List.length (m_rest s) - List.length (m_rest s')) (m_rest s).

(** The repetition: [bound] is the length of the remaining text, and every
    turn has to read at least one character (the repeated expressions of
    this program always do). *)
Fixpoint rep_run (step : mstate -> list mstate) (greedy : bool)
    (min bound : nat) (s : mstate) : list mstate :=
  let stop := if min =? 0 then [s] else [] in
  match bound with
  | O => stop
  | S b =>
      let more :=
        flat_map (fun s' =>
            if List.length (m_rest s') <? List.length (m_rest s)
            then rep_run step greedy (pred min) b s' else [])
          (step s) in
      if greedy then more ++ stop else stop ++ more
  end.

(** [ms r s]: the states in which a match of [r] started in [s] can end, in
    the order in which the backtracking matcher of [re] reaches them. *)
Fixpoint ms (r : regex) (s : mstate) : list mstate :=
  match r with
  | Eps => [s]
  | Chr p =>
      match m_rest s with
      | c :: _ => if p c then advance s else []
      | [] => []
      end
  | Seq r1 r2 => flat_map (ms r2) (ms r1 s)
  | Alt r1 r2 => ms r1 s ++ ms r2 s
  | Rep g min r1 => rep_run (ms r1) g min (List.length (m_rest s)) s
  | Group i r1 =>
      map (fun s' => MState (m_prev s') (m_rest s')
                       ((i, consumed s s') :: m_caps s'))
          (ms r1 s)
  | LookBehind w r1 =>
      if List.length (m_prev s) <? w then []
      else
        let s0 := MState (skipn w (m_prev s))
                    (rev (firstn w (m_prev s)) ++ m_rest s) (m_caps s) in
        match filter (fun s' =>
                List.length (m_rest s') =? List.length (m_rest s))
                (ms r1 s0) with
        | s' :: _ => [MState (m_prev s) (m_rest s) (m_caps s')]
        | [] => []
        end
  | LookAhead r1 =>
      match ms r1 s with
      | s' :: _ => [MState (m_prev s) (m_rest s) (m_caps s')]
      | [] => []
      end
  end.

(** The match that [re] finds at one position: the first of [ms]. *)
Definition match_here (r : regex) (prev rest : str) : option mstate :=
  hd_error (ms r (MState prev rest [])).

Definition group (caps : list (nat * str)) (i : nat) : str :=
  match find (fun p => fst p =? i) caps with
  | Some p => snd p
  | None => []
  end.

(** The number of capturing groups of a pattern. *)
Fixpoint ngroups (r : regex) : nat :=
  match r with
  | Eps | Chr _ => 0
  | Seq r1 r2 | Alt r1 r2 => Nat.max (ngroups r1) (ngroups r2)
  | Rep _ _ r1 | LookBehind _ r1 | LookAhead r1 => ngroups r1
  | Group i r1 => Nat.max i (ngroups r1)
  end.

(** The left-to-right scan behind [finditer], [sub] and [split]: the text is
    cut into the characters outside every match and the matches, each with
    its groups.  A match is looked for at every position that no earlier
    match covers ([skip] counts the characters still covered). *)
Inductive piece : Type :=
| PChar (c : ascii)
| PMatch (text : str) (caps : list (nat * str)).

Definition found (r : regex) (prev rest : str) : option (nat * list (nat * str)) :=
  match match_here r prev rest with
  | Some s' => Some (List.length rest - List.length (m_rest s'), m_caps s')
  | None => None
  end.

Fixpoint scan (r : regex) (skip : nat) (prev rest : str) : list piece :=
  match rest with
  | [] => []
  | c :: rest' =>
      match skip with
      | S k => scan r k (c :: prev) rest'
      | O =>
          match found r prev rest with
          | Some (S k, caps) =>
              PMatch (firstn (S k) rest) caps :: scan r k (c :: prev) rest'
          | _ => PChar c :: scan r 0 (c :: prev) rest'
          end
      end
  end.

Definition pieces (r : regex) (text : str) : list piece := scan r 0 [] text.

(** [r.search(text)]: whether a match exists, and the groups of the first. *)
Fixpoint first_match (ps : list piece) : option (str * list (nat * str)) :=
  match ps with
  | [] => None
  | PChar _ :: ps' => first_match ps'
  | PMatch t caps :: _ => Some (t, caps)
  end.

Definition re_search (r : regex) (text : str) : option (str * list (nat * str)) :=
  first_match (pieces r text).

(** [r.sub(repl, text)] for a replacement without backslash. *)
Definition render (repl : str) (p : piece) : str :=
  match p with
  | PChar c => [c]
  | PMatch _ _ => repl
  end.

Definition re_sub (r : regex) (repl text : str) : str :=
  flat_map (render repl) (pieces r text).

(** [re.split(r, text, maxsplit)]: [limit] is [None] for no bound.  The text
    between the matches, with the groups of each match in between. *)
Definition groups_of (r : regex) (caps : list (nat * str)) : list str :=
  map (group caps) (seq 1 (ngroups r)).

Fixpoint split_pieces (r : regex) (limit : option nat) (cur : str)
    (ps : list piece) : list str :=
  match ps with
  | [] => [rev cur]
  | PChar c :: ps' => split_pieces r limit (c :: cur) ps'
  | PMatch t caps :: ps' =>
      match limit with
      | Some O => split_pieces r limit (rev t ++ cur) ps'
      | _ =>
          rev cur :: groups_of r caps ++
          split_pieces r (option_map pred limit) [] ps'
      end
  end.

Definition re_split (r : regex) (limit : option nat) (text : str) : list str :=
  split_pieces r limit [] (pieces r text).

(** ** The patterns of the script *)

(** The pattern of [re_expr] (line 51): a look-behind for group 1, [from] or
    [join]; one or more [\s], as many as possible; the text of [old_name],
    which stands for itself as long as it holds no metacharacter. *)
Definition lookbehind_kw : regex :=
  LookBehind 4 (Group 1 (Alt (Lit (lit "from")) (Lit (lit "join")))).

Definition re_expr_of (old_name : str) : regex :=
  Seq lookbehind_kw (Seq (Rep true 1 Space) (Lit old_name)).

(** The pattern of line 136: a line feed; group 1, made of a comma, any run
    of [.], the text [ as] and any run of [.]; an optional line feed; a
    look-ahead for an opening parenthesis. *)
Definition marker_r : regex :=
  Seq (Chr (Ascii.eqb nl))
   (Seq (Group 1 (Seq (Chr (Ascii.eqb ","%char))
                  (Seq (Star Dot) (Seq (Lit (lit " as")) (Star Dot)))))
    (Seq (Opt (Chr (Ascii.eqb nl)))
         (LookAhead (Chr (Ascii.eqb "("%char))))).

(** The pattern of line 141: a line feed and the text [with ]. *)
Definition with_r : regex := Lit (nl :: lit "with ").

(** The pattern of line 157, which ignores case: a look-behind for a closing
    parenthesis; group 1, made of one or more turns of an optional comment
    (blanks, [--], any run of [.]) and a line feed, then the text [select]. *)
Definition comment_line_r : regex :=
  Seq (Opt (Seq (Star Blank) (Seq (LitI (lit "--")) (Star Dot))))
      (Chr (eqb_nocase nl)).

Definition final_r : regex :=
  Seq (LookBehind 1 (Chr (eqb_nocase ")"%char)))
      (Group 1 (Seq (Plus comment_line_r) (LitI (lit "select")))).

(** The pattern of line 173: [enabled], blanks (as few as possible), [=],
    blanks (as few as possible), [false]. *)
Definition enable_r : regex :=
  Seq (Lit (lit "enabled"))
   (Seq (Rep false 0 Blank)
    (Seq (Chr (Ascii.eqb "="%char))
     (Seq (Rep false 0 Blank) (Lit (lit "false"))))).

(** The pattern of line 183: [post_hook], any run of [\s], [=], any run of
    [\s], an opening bracket, and group 1: any run of [\s]. *)
Definition post_r : regex :=
  Seq (Lit (lit "post_hook"))
   (Seq (Star Space)
    (Seq (Chr (Ascii.eqb "="%char))
     (Seq (Star Space)
      (Seq (Chr (Ascii.eqb "["%char)) (Group 1 (Star Space)))))).

(** ** The Block Classifier: [SmallScript] *)

(** [old_name] is [None] when the first line is the single word [with]. *)
Record SmallScript : Type := mkSmallScript {
  content : str;
  old_name : option str;
  new_name : str;
  is_intermediate : bool;
  new_reference : str;
  re_expr : regex
}.

(** A value inside an f-string. *)
Definition fmt (o : option str) : str :=
  match o with
  | Some s => s
  | None => lit "None"
  end.

(** [s.partition("\n")], without the separator. *)
Definition partition_nl (s : str) : str * str :=
  match cut_first nl s with
  | Some (a, b) => (a, b)
  | None => (s, [])
  end.

Definition nonempty (w : str) : bool :=
  match w with [] => false | _ => true end.

(** The constructor.  Line 51 compiles the old name into the rule:
    [re_expr_of] is that rule, and the compilation succeeds, when the name
    holds no metacharacter ([no_meta], below). *)
Definition SmallScript_init (old_script base_script final_script : str)
  : result SmallScript :=
  clean_script <- clean_query old_script ;;
  let '(first_line, other_lines) := partition_nl clean_script in
  let first_words :=
    split_all " "%char (lower (strip_commas (strip first_line))) in
  let first_words := filter nonempty first_words in
  first_word <- getitem first_words 0 ;;
  let second_word := nth_error first_words 1 in
  r <- (if str_eqb first_word (lit "{{") || str_eqb first_word (lit "select")
        then Ok (clean_script, Some base_script, final_script, false)
        else
          content <- clean_query other_lines ;;
          let old_name :=
            if negb (str_eqb first_word (lit "with")) then Some first_word
            else second_word in
          Ok (content, old_name,
              final_script ++ lit "_" ++ fmt old_name, true)) ;;
  let '(content, old_name, new_name, is_intermediate) := r in
  Ok {| content := content;
        old_name := old_name;
        new_name := new_name;
        is_intermediate := is_intermediate;
        new_reference := py " {{ ref(\q" ++ new_name ++ py "\q) }}";
        re_expr := re_expr_of (fmt old_name) |}.

(** ** The Script Segmenter: [get_individual_scripts_and_dbt_config]

    The function is given the text [all] that it reads from the file. *)

(** [l[::2]] and [l[1::2]] *)
Fixpoint evens {A : Type} (l : list A) : list A :=
  match l with
  | [] => []
  | x :: l' => x :: match l' with [] => [] | _ :: l'' => evens l'' end
  end.

Definition odds {A : Type} (l : list A) : list A := evens (tl l).

Definition get_individual_scripts_and_dbt_config (all : str)
  : result (list str * str) :=
  let slices := re_split marker_r None all in
  slice0 <- getitem slices 0 ;;
  r <- (match re_split with_r (Some 1) slice0 with
        | [dbt_config; first_cte] => Ok (dbt_config, first_cte)
        | _ => Raise ValueError
        end) ;;
  let '(dbt_config, first_cte) := r in
  let slices := tl slices in
  let scripts :=
    [first_cte] ++
    map (fun p => fst p ++ [nl] ++ snd p) (combine (evens slices) (odds slices)) in
  let final_slice := last scripts [] in
  let scripts := removelast scripts in
  let last_scripts := re_split final_r None final_slice in
  last_cte <- getitem last_scripts 0 ;;
  l1 <- getitem last_scripts 1 ;;
  l2 <- getitem last_scripts 2 ;;
  let final_table := l1 ++ l2 in
  let scripts := scripts ++ [last_cte; final_table] in
  Ok (scripts, dbt_config).

(** ** The Config Transformer *)

Definition dbt_cfg_enable_table (dbt_config : str) : str :=
  match re_search enable_r dbt_config with
  | Some _ => re_sub enable_r (lit "enabled = true") dbt_config
  | None => dbt_config
  end.

Definition post_hook_missing : string :=
  "post_hook not found, please add it so drop statements can be added.".

Definition dbt_cfg_add_drop (dbt_config : str) (scripts : list SmallScript)
  : result str :=
  match re_search post_r dbt_config with
  | None => Raise (Exception post_hook_missing)
  | Some (_, caps) =>
      let post_groups := groups_of post_r caps in
      let post_spacing :=
        if 1 <=? List.length post_groups then nth 0 post_groups []
        else py "\n    " in
      let post_string :=
        fold_left (fun acc scr =>
            if is_intermediate scr
            then acc ++ lit "'drop table " ++ new_reference scr ++ lit "',"
                     ++ post_spacing
            else acc)
          scripts (lit "post_hook = [" ++ post_spacing) in
      Ok (re_sub post_r post_string dbt_config)
  end.

(** ** The Reference Rewriter and the writer: [create_new_script_files]

    The entities are objects that the loops mutate, so the list of entities
    is part of the state, next to the configuration text and to the files
    written so far (name and text, the first written first). *)

Record job_state : Type := mkJob {
  st_scripts : list SmallScript;
  st_config : str;
  st_files : list (str * str)
}.

Definition set_content (c : str) (scr : SmallScript) : SmallScript :=
  {| content := c;
     old_name := old_name scr;
     new_name := new_name scr;
     is_intermediate := is_intermediate scr;
     new_reference := new_reference scr;
     re_expr := re_expr scr |}.

Fixpoint update {A : Type} (i : nat) (f : A -> A) (l : list A) : list A :=
  match l, i with
  | [], _ => []
  | x :: l', O => f x :: l'
  | x :: l', S i' => x :: update i' f l'
  end.

(** The inner loop, on the entity at index [i]: one [sub] per entity of the
    list, each on the text that the one before left. *)
Definition rewrite_refs (scripts : list SmallScript) (text : str) : str :=
  fold_left (fun c ref_script =>
      re_sub (re_expr ref_script) (new_reference ref_script) c)
    scripts text.

(** One turn of the outer loop. *)
Definition write_one (drop_intermediate : bool) (i : nat) (st : job_state)
  : result job_state :=
  scr <- getitem (st_scripts st) i ;;
  let text := rewrite_refs (st_scripts st) (content scr) in
  let scripts := update i (set_content text) (st_scripts st) in
  dbt_config <- (if drop_intermediate
                 then dbt_cfg_add_drop (st_config st) scripts
                 else Ok (st_config st)) ;;
  let text :=
    if negb (is_intermediate scr) then dbt_config ++ [nl] ++ text else text in
  let scripts := update i (set_content text) scripts in
  Ok (mkJob scripts dbt_config
        (st_files st ++ [(new_name scr ++ lit ".sql", text)])).

(** The outer loop: a raised exception ends it, and what was written
    before stays written. *)
Fixpoint write_all (drop_intermediate : bool) (idx : list nat)
    (st : job_state) : job_state * option exn :=
  match idx with
  | [] => (st, None)
  | i :: idx' =>
      match write_one drop_intermediate i st with
      | Ok st' => write_all drop_intermediate idx' st'
      | Raise e => (st, Some e)
      end
  end.

Definition create_new_script_files (scripts : list SmallScript)
    (drop_intermediate : bool) (dbt_config : str) : job_state * option exn :=
  let dbt_config := dbt_cfg_enable_table dbt_config in
  write_all drop_intermediate (seq 0 (List.length scripts))
    (mkJob scripts dbt_config []).

(** The entities of the blocks of a job (line 286). *)
Fixpoint small_scripts (scripts : list str) (initial_script final_script : str)
  : result (list SmallScript) :=
  match scripts with
  | [] => Ok []
  | scr :: scripts' =>
      x <- SmallScript_init scr initial_script final_script ;;
      xs <- small_scripts scripts' initial_script final_script ;;
      Ok (x :: xs)
  end.

(** [split_script_into_files], from the text of the initial script on. *)
Definition split_script_into_files (all initial_script final_script : str)
    (drop_intermediate : bool) : job_state * option exn :=
  match get_individual_scripts_and_dbt_config all with
  | Raise e => (mkJob [] [] [], Some e)
  | Ok (scripts, dbt_config) =>
      match small_scripts scripts initial_script final_script with
      | Raise e => (mkJob [] [] [], Some e)
      | Ok small_scripts =>
          create_new_script_files small_scripts drop_intermediate dbt_config
      end
  end.

(** ** Notions used in the statements *)

(** No line boundary of [splitlines] other than the line feed. *)
Definition only_lf (s : str) : bool :=
  forallb (fun c => negb (is_linebreak c) || Ascii.eqb c nl) s.

(** The first and the last character of [s] that is no whitespace. *)
Definition first_ns (s : str) : option ascii := hd_error (lstrip s).
Definition last_ns (s : str) : option ascii := first_ns (rev s).

(** The lines of a text that [trim_lines] returns: at least two, the first
    and the last neither blank nor comments. *)
Definition trimmed_lines (f : str) (M : list str) (l : str) : Prop :=
  Forall (fun x => ~ In nl x) (f :: M ++ [l]) /\
  skippable (strip f) = false /\ skippable (strip l) = false.

(** The text that reaches the last three statements of [clean_query]: the
    query without its leading and trailing blank and comment lines and
    without the pair of parentheses around it, when there is one. *)
Definition interior (query : str) : result str :=
  new_query <- trim_lines query ;; unwrap new_query.

(** A text of two lines or more ([splitlines]) whose first and last lines
    are neither blank nor comments. *)
Definition plain_ends (u : str) : Prop :=
  2 <= List.length (splitlines u) /\
  skippable (strip (hd [] (splitlines u))) = false /\
  skippable (strip (last (splitlines u) [])) = false.

(** [u] occurs in [t]. *)
Definition occ (u t : str) : Prop := exists a b, t = a ++ u ++ b.

(** A match in progress reads [w] between the states [s] and [s']. *)
Definition reads (s : mstate) (w : str) (s' : mstate) : Prop :=
  m_rest s = w ++ m_rest s' /\ m_prev s' = rev w ++ m_prev s.

(** The match that the scan takes at a position: the first of [ms], when it
    is not empty. *)
Definition hit (r : regex) (prev rest : str) : option (nat * list (nat * str)) :=
  match found r prev rest with
  | Some (S k, caps) => Some (S k, caps)
  | _ => None
  end.

(** No position inside [c] starts a match, [c] being followed by [rest]. *)
Definition quiet (r : regex) (prev c rest : str) : Prop :=
  forall c1 c2, c = c1 ++ c2 -> c2 <> [] ->
    hit r (rev c1 ++ prev) (c2 ++ rest) = None.

(** The characters of an identifier: letters, digits and the underscore. *)
Definition ident_char (c : ascii) : bool :=
  let n := nat_of_ascii c in
  ((48 <=? n) && (n <=? 57)) || ((65 <=? n) && (n <=? 90))
  || ((97 <=? n) && (n <=? 122)) || (n =? 95).

Definition ident (s : str) : bool := forallb ident_char s.

(** The characters with a meaning of their own in a pattern. *)
Definition meta_char (c : ascii) : bool :=
  existsb (Ascii.eqb c) (lit ".^$*+?{}[]\|()").

Definition no_meta (s : str) : bool := forallb (fun c => negb (meta_char c)) s.

(** What [sub] writes for the part of a text that starts at a position. *)
Definition sub_from (r : regex) (repl prev rest : str) : str :=
  flat_map (render repl) (scan r 0 prev rest).

Definition blanks (w : str) : bool := forallb (Ascii.eqb " "%char) w.
Definition spaces (w : str) : bool := forallb is_space w.

(** The texts that the patterns of the script match: a disabled flag, the
    opening of a hook list, and a table reference, which is a keyword,
    whitespace and a name. *)
Definition enabled_false (u : str) : Prop :=
  exists b1 b2, u = lit "enabled" ++ b1 ++ lit "=" ++ b2 ++ lit "false" /\
    blanks b1 = true /\ blanks b2 = true.

Definition post_hook_open (u : str) : Prop :=
  exists w1 w2, u = lit "post_hook" ++ w1 ++ lit "=" ++ w2 ++ lit "[" /\
    spaces w1 = true /\ spaces w2 = true.

Definition keyword (kw : str) : Prop := kw = lit "from" \/ kw = lit "join".

Definition table_ref (name u : str) : Prop :=
  exists kw w, u = kw ++ w ++ name /\ keyword kw /\
    w <> [] /\ spaces w = true.

(** [name] is left in [text] at the place of a table: after [from] or
    [join] and whitespace. *)
Definition raw_ref (name text : str) : Prop :=
  exists u, table_ref name u /\ occ u text.

(** The text written just before a position of the scan of
    [dbt_cfg_enable_table]: nothing, or the last letter of a replacement,
    which stands where a match ending with [false] stood. *)
Definition left_ctx (L prev : str) : Prop :=
  L = [] \/ (L = lit "e" /\ exists p0, prev = rev (lit "false") ++ p0).

(** The reference that an entity named [new_name] is replaced with. *)
Definition ref_of (new_name : str) : str :=
  py " {{ ref(\q" ++ new_name ++ py "\q) }}".

(** An entity of a job, as the classifier builds it. *)
Definition built (base_script final_script : str) (e : SmallScript) : Prop :=
  exists old_script, SmallScript_init old_script base_script final_script = Ok e.

(** The names of an entity are identifiers: the old name is a non-empty
    run of letters, digits and underscores, and so is the new name. *)
Definition plain_names (e : SmallScript) : Prop :=
  ident (fmt (old_name e)) = true /\ fmt (old_name e) <> [] /\
  ident (new_name e) = true.

(** The configuration text after [k] turns of the loop of
    [create_new_script_files], from the text that the Enable operation
    returned. *)
Fixpoint config_after (drop_intermediate : bool) (scripts : list SmallScript)
    (k : nat) (dbt_config : str) : result str :=
  match k with
  | O => Ok dbt_config
  | S k' =>
      c <- config_after drop_intermediate scripts k' dbt_config ;;
      if drop_intermediate then dbt_cfg_add_drop c scripts else Ok c
  end.

(** The text that the loop writes for an entity, [dbt_config] being the
    configuration text of its turn. *)
Definition written_text (scripts : list SmallScript) (dbt_config : str)
    (scr : SmallScript) : str :=
  if is_intermediate scr then rewrite_refs scripts (content scr)
  else dbt_config ++ [nl] ++ rewrite_refs scripts (content scr).

(** Two entities that differ by their content at most. *)
Definition same_meta (a b : SmallScript) : Prop :=
  old_name a = old_name b /\ new_name a = new_name b /\
  is_intermediate a = is_intermediate b /\
  new_reference a = new_reference b /\ re_expr a = re_expr b.

(** What holds between the turns of the loop: [k] files are written, the
    entities differ from those of the call by their content, the entities
    from the [k]-th on are untouched, and the configuration text and the
    written files are those of the [k] first turns. *)
Definition loop_inv (drop : bool) (scripts : list SmallScript) (cfg0 : str)
    (k : nat) (st : job_state) : Prop :=
  List.length (st_files st) = k /\
  Forall2 same_meta (st_scripts st) scripts /\
  (forall j, k <= j -> nth_error (st_scripts st) j = nth_error scripts j) /\
  config_after drop scripts k cfg0 = Ok (st_config st) /\
  forall i scr, i < k -> nth_error scripts i = Some scr ->
    exists cfg_i, config_after drop scripts (S i) cfg0 = Ok cfg_i /\
      nth_error (st_files st) i =
        Some (new_name scr ++ lit ".sql", written_text scripts cfg_i scr).

(** A job with one CTE, whose configuration has a hook list. *)
Definition hooked_source : str :=
  py "{{ config(post_hook = [\n  'x']) }}\n\nwith a as\n(\n select 1\n from t\n)\nselect *\nfrom a\n".

(** A job with two CTEs, the name of the first being the beginning of the
    name of the second. *)
Definition orders_source : str :=
  py "{{ config() }}\nwith orders as\n(\n select 1\n from t\n)\n, orders_agg as\n(\n select *\n from orders\n)\nselect *\nfrom orders_agg\n".

(** The value of a call that is known to return. *)
Definition get_entity (r : result SmallScript) : SmallScript :=
  match r with
  | Ok e => e
  | Raise _ => mkSmallScript [] None [] false [] Eps
  end.

(** Entities of small jobs, for the examples: a CTE named [a] and a final
    query that reads it, in a job named [out] and in a job whose final name
    has a space in it. *)
Definition block_a : str := py "a as\n(\n select 1\n from t\n)".
Definition block_final : str := py "\nselect *\nfrom a\n".

Definition entity_a : SmallScript :=
  get_entity (SmallScript_init block_a (lit "big") (lit "out")).
Definition entity_final : SmallScript :=
  get_entity (SmallScript_init block_final (lit "big") (lit "out")).

Definition spaced_a : SmallScript :=
  get_entity (SmallScript_init block_a (lit "big") (lit "rows from a")).
Definition spaced_final : SmallScript :=
  get_entity (SmallScript_init block_final (lit "big") (lit "rows from a")).

(** ** Sources in the layout that the segmenter expects

    A configuration text, the keyword [with] at the start of a line, the
    first CTE, the later CTEs, each after a line that starts with a comma,
    and the final query.  The head of a CTE, [name as], is a line of its
    own, and so are the parentheses around its body. *)
Definition cte_head (name : str) : str := name ++ lit " as".
Definition marker_line (name : str) : str := lit ", " ++ cte_head name.
Definition cte_body (inner : str) : str :=
  "("%char :: nl :: inner ++ [nl; ")"%char].
Definition cte_block (head inner : str) : str := head ++ nl :: cte_body inner.
Definition later_block (c : str * str) : str :=
  cte_block (marker_line (fst c)) (snd c).

Definition layout (cfg : str) (c1 : str * str) (cs : list (str * str))
    (fin : str) : str :=
  cfg ++ py "\nwith " ++ cte_block (cte_head (fst c1)) (snd c1) ++
  flat_map (fun c => nl :: later_block c) cs ++ nl :: fin.

(** The blocks that such a source is made of. *)
Definition blocks_of (c1 : str * str) (cs : list (str * str)) (fin : str)
  : list str :=
  cte_block (cte_head (fst c1)) (snd c1) :: map later_block cs ++ [nl :: fin].

(** A line of [s] starts with a comma; a line of [s] after the first
    starts with [select], in any case.  Texts without such lines are the
    plain case of the two conditions below. *)
Definition comma_line (s : str) : Prop := occ [nl; ","%char] (nl :: s).
Definition select_line (s : str) : Prop := occ (py "\nselect") (lower s).

(** The texts that the repeated part of the pattern of line 157 reads: lines
    that are empty or hold blanks and a comment. *)
Definition comment_seg (seg : str) : Prop :=
  seg = [] \/
  exists b d, seg = b ++ lit "--" ++ d /\ blanks b = true /\ ~ In nl d.

Inductive comment_lines : str -> Prop :=
| cl_nil : comment_lines []
| cl_cons (seg G : str) :
    comment_seg seg -> comment_lines G -> comment_lines (seg ++ nl :: G).

(** A place where line 136 splits a text: a line feed, a line that starts
    with a comma and holds [ as], and an opening parenthesis, which ends
    that line (or stands in it, after [ as]) or starts the next one. *)
Definition marker_at (u : str) : Prop :=
  exists g z r,
    u = nl :: g ++ z ++ "("%char :: r /\
    (exists x y, g = ","%char :: x ++ lit " as" ++ y) /\
    ~ In nl g /\ (z = [] \/ z = [nl]).

Definition marker_point (s : str) : Prop :=
  exists a u, s = a ++ u /\ marker_at u.

(** No position inside [X] starts a match of the pattern of line 136, [X]
    being followed by [F]. *)
Definition no_marker_in (X F : str) : Prop :=
  forall c1 c2, X = c1 ++ c2 -> c2 <> [] -> ~ marker_at (c2 ++ F).

(** A place where line 157 splits a text: a closing parenthesis, then the
    rest of its line and further lines, all empty or comments, and at the
    start of the next line [select], in any case. *)
Definition split_point (s : str) : Prop :=
  exists a G sel b,
    s = a ++ ")"%char :: G ++ sel ++ b /\
    comment_lines G /\ G <> [] /\ lower sel = lit "select".

Definition wf_name (n : str) : Prop :=
  n <> [] /\ ident n = true /\ lower n <> lit "select".

Definition wf_inner (s : str) : Prop :=
  only_lf s = true /\ ~ marker_point (nl :: s) /\ ~ split_point s.

Definition wf_cte (c : str * str) : Prop := wf_name (fst c) /\ wf_inner (snd c).

Definition wf_config (cfg : str) : Prop :=
  ~ occ (py "\nwith ") cfg /\ ~ marker_point cfg.

(** The final query, line by line: a first line made of [select], in any
    case, alone or with a blank before the rest; any lines [M]; a line [l]
    that is neither blank nor a comment; and lines [T] that are blank or
    comments, where [T] is empty for a text that ends with [l] and holds
    one empty line for a text that ends with a line feed. *)
Definition final_query (Q : str) : Prop :=
  exists sel r M l T,
    Q = join [nl] ((sel ++ r) :: M ++ l :: T) /\
    lower sel = lit "select" /\
    (r = [] \/ exists z, r = " "%char :: z) /\
    trimmed_lines (sel ++ r) M l /\
    Forall (fun t => ~ In nl t /\ skippable (strip t) = true) T.

(** What follows the last CTE: lines [G] that are empty or hold a [--]
    comment, each with its line feed, and the final query [Q], in which
    line 157 finds no further place to split. *)
Definition wf_final (fin : str) : Prop :=
  (exists G Q,
     fin = G ++ Q /\ comment_lines G /\ final_query Q /\ ~ split_point Q) /\
  only_lf fin = true /\ ~ marker_point (nl :: fin).

(** The split at the matches of a pattern, from a position of the scan. *)
Definition split_from (r : regex) (limit : option nat) (prev cur rest : str)
  : list str :=
  split_pieces r limit cur (scan r 0 prev rest).

(** The slices of line 136 for a source in the layout: [X] is the text
    before the next marker line. *)
Fixpoint slices_of (X : str) (cs : list (str * str)) (fin : str) : list str :=
  match cs with
  | [] => [X ++ nl :: fin]
  | c :: cs' =>
      X :: marker_line (fst c) :: slices_of (cte_body (snd c)) cs' fin
  end.

(** The blocks of line 148 for such a source, the final query still at the
    end of the last: [B] is the block before the next marker line. *)
Fixpoint raw_blocks (B : str) (cs : list (str * str)) (fin : str) : list str :=
  match cs with
  | [] => [B ++ nl :: fin]
  | c :: cs' => B :: raw_blocks (later_block c) cs' fin
  end.

(** The text of the pieces of a scan. *)
Definition raw (p : piece) : str :=
  match p with
  | PChar c => [c]
  | PMatch t _ => t
  end.

(** ** The files of a job: [find_model_path] and [delete_stale_scripts]

    [posixpath.join] for two components. *)
Definition path_join (a b : str) : str :=
  if startswith (lit "/") b then b
  else if nonempty a && negb (endswith (lit "/") a) then a ++ lit "/" ++ b
  else a ++ b.

(** A directory: the names of its files and its subdirectories, in the
    order in which [os.scandir] lists them. *)
#[warnings="-register-all"]
Inductive dir : Type :=
| Dir (files : list str) (subdirs : list (str * dir)).

(** [os.walk(top)], top-down: the directory itself, then every
    subdirectory in turn, each with its path and the names of its files. *)
Fixpoint walk (top : str) (d : dir) : list (str * list str) :=
  match d with
  | Dir files subdirs =>
      (top, files) ::
      (fix walk_all (l : list (str * dir)) : list (str * list str) :=
         match l with
         | [] => []
         | (name, sub) :: l' => walk (path_join top name) sub ++ walk_all l'
         end) subdirs
  end.

Definition model_not_found : string := "Model not found".

(** [find_model_path]: [fs] is the directory at [scripts_base_path], [None]
    when there is none, in which case [os.walk] yields nothing. *)
Definition find_model_path (fs : option dir) (scripts_base_path model_name : str)
  : result str :=
  let desired_model := model_name ++ lit ".sql" in
  let walked :=
    match fs with
    | Some d => walk scripts_base_path d
    | None => []
    end in
  match find (fun p => existsb (str_eqb desired_model) (snd p)) walked with
  | Some (root, _) => Ok root
  | None => Raise (Exception model_not_found)
  end.

(** [delete_stale_scripts]: [listing] is what [os.listdir(path)] returns,
    and the value is the list of the names that are passed to [os.remove],
    in the order of the calls. *)
Definition delete_stale_scripts (listing : list str) (initial final : str)
  : list str :=
  filter (fun obj =>
      if str_eqb obj (initial ++ lit ".sql") then false
      else startswith final obj && endswith (lit ".sql") obj)
    listing.

(** The drop statements that [dbt_cfg_add_drop] writes, one for each
    intermediate entity, each followed by the spacing. *)
Definition drop_statements (post_spacing : str) (scripts : list SmallScript)
  : str :=
  flat_map (fun scr =>
      if is_intermediate scr
      then lit "'drop table " ++ new_reference scr ++ lit "'," ++ post_spacing
      else [])
    scripts.

(** A text with no line boundary of [splitlines] in it. *)
Definition no_linebreak (s : str) : bool :=
  forallb (fun c => negb (is_linebreak c)) s.

(** * Properties *)

(** ** Strings *)

Lemma str_eqb_eq (a b : str) : str_eqb a b = true <-> a = b.
Proof.
  revert b; induction a as [|x a IH]; intros [|y b]; simpl; split;
    try congruence; try reflexivity.
  - intros H. apply andb_true_iff in H as [H1 H2].
    apply Ascii.eqb_eq in H1. apply IH in H2. congruence.
  - intros H. injection H as -> ->. rewrite Ascii.eqb_refl.
    apply IH. reflexivity.
Qed.

Lemma startswith_iff (p s : str) :
  startswith p s = true <-> exists t, s = p ++ t.
Proof.
  revert s; induction p as [|x p IH]; intros s; simpl.
  - split; [intros _; exists s; reflexivity | reflexivity].
  - destruct s as [|y s].
    + split; [discriminate | intros [t H]; discriminate].
    + rewrite andb_true_iff, Ascii.eqb_eq, IH. split.
      * intros [-> [t ->]]. exists t. reflexivity.
      * intros [t H]. injection H as -> ->. split; [reflexivity | eauto].
Qed.

Lemma cut_first_Some (c : ascii) (s a b : str) :
  cut_first c s = Some (a, b) -> s = a ++ c :: b /\ ~ In c a.
Proof.
  revert a b; induction s as [|x s IH]; simpl; intros a b H; [discriminate|].
  destruct (Ascii.eqb x c) eqn:E.
  - apply Ascii.eqb_eq in E. injection H as <- <-. subst. split; [reflexivity | intros []].
  - destruct (cut_first c s) as [[a' b']|]; [|discriminate].
    injection H as <- <-. destruct (IH a' b' eq_refl) as [-> Hn].
    split; [reflexivity|]. intros [->|Hin]; [|tauto].
    rewrite Ascii.eqb_refl in E. discriminate.
Qed.

Lemma cut_first_None (c : ascii) (s : str) :
  cut_first c s = None -> ~ In c s.
Proof.
  induction s as [|x s IH]; simpl; intros H; [tauto|].
  destruct (Ascii.eqb x c) eqn:E; [discriminate|].
  destruct (cut_first c s) as [[a' b']|]; [discriminate|].
  intros [->|Hin]; [|tauto]. rewrite Ascii.eqb_refl in E. discriminate.
Qed.

Lemma cut_first_app (c : ascii) (a b : str) :
  ~ In c a -> cut_first c (a ++ c :: b) = Some (a, b).
Proof.
  induction a as [|x a IH]; simpl; intros H.
  - rewrite Ascii.eqb_refl. reflexivity.
  - destruct (Ascii.eqb x c) eqn:E.
    + apply Ascii.eqb_eq in E. tauto.
    + rewrite IH by tauto. reflexivity.
Qed.

Lemma cut_first_notin (c : ascii) (s : str) :
  ~ In c s -> cut_first c s = None.
Proof.
  intros H. destruct (cut_first c s) as [[a b]|] eqn:E; [|reflexivity].
  apply cut_first_Some in E as [-> _]. exfalso. apply H.
  apply in_or_app. right. left. reflexivity.
Qed.

Lemma cut_last_Some (c : ascii) (s a b : str) :
  cut_last c s = Some (a, b) -> s = a ++ c :: b /\ ~ In c b.
Proof.
  unfold cut_last. destruct (cut_first c (rev s)) as [[x y]|] eqn:E; [|discriminate].
  intros H. injection H as <- <-. apply cut_first_Some in E as [E Hn].
  split.
  - rewrite <- (rev_involutive s), E, rev_app_distr. simpl.
    rewrite <- app_assoc. reflexivity.
  - rewrite <- in_rev. exact Hn.
Qed.

Lemma cut_last_app (c : ascii) (a b : str) :
  ~ In c b -> cut_last c (a ++ c :: b) = Some (a, b).
Proof.
  intros H. unfold cut_last. rewrite rev_app_distr. simpl.
  rewrite <- app_assoc. simpl. rewrite cut_first_app.
  - rewrite !rev_involutive. reflexivity.
  - rewrite <- in_rev. exact H.
Qed.

Lemma cut_last_notin (c : ascii) (s : str) :
  ~ In c s -> cut_last c s = None.
Proof.
  intros H. unfold cut_last. rewrite cut_first_notin; [reflexivity|].
  rewrite <- in_rev. exact H.
Qed.

(** ** The loops of [clean_query] end *)

Lemma clean_start_spec (fuel : nat) (q : str) :
  List.length q <= fuel ->
  clean_start fuel q = Raise IndexError \/
  exists p q', q = p ++ q' /\ clean_start fuel q = Ok q' /\
    skippable (strip (fst (partition_nl q'))) = false.
Proof.
  revert q; induction fuel as [|fuel IH]; intros q Hlen.
  - destruct q; [|simpl in Hlen; lia]. left. reflexivity.
  - cbn [clean_start]. unfold split1, partition_nl.
    destruct (cut_first nl q) as [[a b]|] eqn:E; cbn.
    + destruct (skippable (strip a)) eqn:Hs.
      * apply cut_first_Some in E as [-> _].
        rewrite length_app in Hlen. simpl in Hlen.
        destruct (IH b ltac:(lia)) as [H|(p & q' & -> & H & Hq)].
        -- left. destruct fuel; exact H.
        -- right. exists (a ++ nl :: p), q'. rewrite <- app_assoc. simpl.
           split; [reflexivity|]. split; [|exact Hq].
           destruct fuel; [|exact H].
           destruct p, q'; simpl in Hlen; try lia. exact H.
      * right. exists [], q. unfold partition_nl. rewrite E. simpl. rewrite Hs. auto.
    + destruct (skippable (strip q)) eqn:Hs; [left; reflexivity|].
      right. exists [], q. unfold partition_nl. rewrite E. simpl. rewrite Hs. auto.
Qed.

Lemma clean_end_spec (fuel : nat) (q : str) :
  List.length q <= fuel ->
  clean_end fuel q = Raise IndexError \/
  exists a l p, clean_end fuel q = Ok (a ++ nl :: l) /\
    q = (a ++ nl :: l) ++ p /\ ~ In nl l /\ skippable (strip l) = false.
Proof.
  revert q; induction fuel as [|fuel IH]; intros q Hlen.
  - destruct q; [|simpl in Hlen; lia]. left. reflexivity.
  - cbn [clean_end]. unfold rsplit1.
    destruct (cut_last nl q) as [[a l]|] eqn:E; cbn; [|left; reflexivity].
    apply cut_last_Some in E as [-> Hl].
    destruct (skippable (strip l)) eqn:Hs.
    + rewrite length_app in Hlen. simpl in Hlen.
      destruct (IH a ltac:(lia)) as [H|(a' & l' & p & H & -> & Hl' & Hs')].
      * left. exact H.
      * right. exists a', l', (p ++ nl :: l).
        split; [exact H|]. split; [|auto].
        rewrite <- !app_assoc. reflexivity.
    + right. exists a, l, []. rewrite app_nil_r. auto.
Qed.

(** What [trim_lines] returns: a part of the query with a line break in it,
    whose first and last lines are neither blank nor comments. *)
Lemma trim_lines_spec (x : str) :
  trim_lines x = Raise IndexError \/
  exists p s f rest a l,
    trim_lines x = Ok (a ++ nl :: l) /\ x = p ++ (a ++ nl :: l) ++ s /\
    a ++ nl :: l = f ++ nl :: rest /\ ~ In nl f /\ ~ In nl l /\
    skippable (strip f) = false /\ skippable (strip l) = false.
Proof.
  unfold trim_lines.
  destruct (clean_start_spec _ x (le_n _)) as [H|(p & q1 & Hx & H & Hf)];
    rewrite H; cbn; [left; reflexivity|].
  destruct (clean_end_spec _ q1 (le_n _)) as [H'|(a & l & s & H' & Hq & Hl & Hs)];
    rewrite H'; [left; reflexivity|].
  right.
  destruct (cut_first nl a) as [[f r]|] eqn:E.
  - apply cut_first_Some in E as [Ea Hnf].
    exists p, s, f, (r ++ nl :: l), a, l.
    repeat split; auto.
    + rewrite Hx, Hq. reflexivity.
    + rewrite Ea, <- app_assoc. reflexivity.
    + rewrite Hq, Ea in Hf. unfold partition_nl in Hf.
      rewrite <- !app_assoc in Hf. simpl in Hf.
      rewrite cut_first_app in Hf by exact Hnf. exact Hf.
  - apply cut_first_None in E.
    exists p, s, a, l, a, l. repeat split; auto.
    + rewrite Hx, Hq. reflexivity.
    + rewrite Hq in Hf. unfold partition_nl in Hf.
      rewrite <- !app_assoc in Hf. simpl in Hf.
      rewrite cut_first_app in Hf by exact E. exact Hf.
Qed.

Lemma unwrap_cases (q : str) :
  unwrap q = Raise IndexError \/ exists q', unwrap q = Ok q'.
Proof.
  unfold unwrap. destruct (wrapped q); [|right; eauto].
  destruct (slice_1_m1 (strip q)) as [|c t]; cbn; [left; reflexivity|].
  right. destruct (Ascii.eqb c nl); eauto.
Qed.

(** No call of [clean_query] exhausts the bound of its loops: it returns a
    text or raises [IndexError]. *)
Lemma clean_query_cases (x : str) :
  clean_query x = Raise IndexError \/ exists r, clean_query x = Ok r.
Proof.
  unfold clean_query.
  destruct (trim_lines_spec x) as [H|(p & s & f & rest & a & l & H & _)];
    rewrite H; cbn; [left; reflexivity|].
  destruct (unwrap_cases (a ++ nl :: l)) as [H'|[q' H']]; rewrite H'; cbn;
    [left; reflexivity | right; eauto].
Qed.

Lemma clean_query_terminates (x : str) : clean_query x <> Raise OutOfFuel.
Proof.
  destruct (clean_query_cases x) as [H|[r H]]; rewrite H; discriminate.
Qed.

(** ** Whitespace *)

Lemma dropwhile_app (p : ascii -> bool) (a b : str) :
  dropwhile p (a ++ b) =
  match dropwhile p a with [] => dropwhile p b | _ => dropwhile p a ++ b end.
Proof.
  induction a as [|x a IH]; simpl; [destruct (dropwhile p b); reflexivity|].
  destruct (p x); [exact IH | reflexivity].
Qed.

Lemma dropwhile_all (p : ascii -> bool) (w : str) :
  forallb p w = true -> dropwhile p w = [].
Proof.
  induction w as [|x w IH]; simpl; [reflexivity|].
  intros H. apply andb_true_iff in H as [-> H]. auto.
Qed.

Lemma dropwhile_nil_all (p : ascii -> bool) (w : str) :
  dropwhile p w = [] -> forallb p w = true.
Proof.
  induction w as [|x w IH]; simpl; [reflexivity|].
  destruct (p x); [exact IH | discriminate].
Qed.

Lemma dropwhile_decomp (p : ascii -> bool) (s : str) :
  exists w, s = w ++ dropwhile p s /\ forallb p w = true /\
    (dropwhile p s = [] \/ exists d t, dropwhile p s = d :: t /\ p d = false).
Proof.
  induction s as [|x s (w & E & Hw & Hd)]; simpl.
  - exists []. auto.
  - destruct (p x) eqn:Px.
    + exists (x :: w). simpl. rewrite Px, Hw. split; [congruence | auto].
    + exists []. split; [reflexivity|]. split; [reflexivity|]. right. eauto.
Qed.

Lemma dropwhile_idem (p : ascii -> bool) (s : str) :
  dropwhile p (dropwhile p s) = dropwhile p s.
Proof.
  destruct (dropwhile_decomp p s) as (w & _ & _ & [->|(d & t & -> & Hd)]);
    simpl; [reflexivity | rewrite Hd; reflexivity].
Qed.

Lemma rstrip_decomp (s : str) :
  exists w, s = rstrip s ++ w /\ forallb is_space w = true /\
    (rstrip s = [] \/ exists t d, rstrip s = t ++ [d] /\ is_space d = false).
Proof.
  unfold rstrip.
  destruct (dropwhile_decomp is_space (rev s)) as (w & E & Hw & Hd).
  exists (rev w). split; [|split].
  - rewrite <- rev_app_distr, <- E, rev_involutive. reflexivity.
  - rewrite forallb_forall in *. intros c Hc. apply Hw, in_rev. exact Hc.
  - destruct Hd as [->|(d & t & -> & Hd)]; [left; reflexivity|].
    right. exists (rev t), d. simpl. auto.
Qed.

Lemma rstrip_snoc (a : str) (d : ascii) :
  is_space d = false -> rstrip (a ++ [d]) = a ++ [d].
Proof.
  intros H. unfold rstrip. rewrite rev_app_distr. simpl. rewrite H. simpl.
  rewrite rev_involutive. reflexivity.
Qed.

Lemma rstrip_idem (s : str) : rstrip (rstrip s) = rstrip s.
Proof.
  destruct (rstrip_decomp s) as (w & _ & _ & [->|(t & d & -> & Hd)]);
    [reflexivity | apply rstrip_snoc; exact Hd].
Qed.

Lemma lstrip_snoc (t : str) (d : ascii) :
  is_space d = false -> exists t', lstrip (t ++ [d]) = t' ++ [d].
Proof.
  intros H. unfold lstrip. induction t as [|x t [t' IH]]; simpl.
  - rewrite H. exists []. reflexivity.
  - destruct (is_space x); [eauto|]. exists (x :: t). reflexivity.
Qed.

Lemma strip_rstrip (s : str) : strip (rstrip s) = strip s.
Proof. unfold strip. rewrite rstrip_idem. reflexivity. Qed.

Lemma first_ns_app (a b : str) :
  first_ns (a ++ b) =
  match first_ns a with Some c => Some c | None => first_ns b end.
Proof.
  unfold first_ns, lstrip. rewrite dropwhile_app.
  destruct (dropwhile is_space a); reflexivity.
Qed.

Lemma first_ns_spaces (w : str) :
  forallb is_space w = true -> first_ns w = None.
Proof.
  intros H. unfold first_ns, lstrip. rewrite dropwhile_all by exact H. reflexivity.
Qed.

Lemma first_ns_rstrip (s : str) : first_ns (rstrip s) = first_ns s.
Proof.
  destruct (rstrip_decomp s) as (w & E & Hw & _).
  rewrite E at 2. rewrite first_ns_app, (first_ns_spaces _ Hw).
  destruct (first_ns (rstrip s)); reflexivity.
Qed.

Lemma last_ns_app (a b : str) :
  last_ns (a ++ b) =
  match last_ns b with Some c => Some c | None => last_ns a end.
Proof. unfold last_ns. rewrite rev_app_distr. apply first_ns_app. Qed.

Lemma last_ns_rstrip (s : str) : last_ns (rstrip s) = last_ns s.
Proof.
  unfold last_ns, first_ns, rstrip, lstrip. rewrite rev_involutive.
  rewrite dropwhile_idem. reflexivity.
Qed.

Lemma startswith_one (c : ascii) (s : str) :
  startswith [c] s =
  match hd_error s with Some x => Ascii.eqb c x | None => false end.
Proof. destruct s; simpl; [reflexivity | apply andb_true_r]. Qed.

(** [wrapped] looks at the first and at the last character that is no
    whitespace. *)
Lemma wrapped_ns (s : str) :
  wrapped s =
  match first_ns s with Some c => Ascii.eqb "("%char c | None => false end &&
  match last_ns s with Some d => Ascii.eqb ")"%char d | None => false end.
Proof.
  unfold wrapped, endswith. simpl lit. simpl rev at 1.
  rewrite !startswith_one. f_equal.
  - change (hd_error (strip s)) with (first_ns (rstrip s)).
    rewrite first_ns_rstrip. reflexivity.
  - unfold last_ns, first_ns, strip, rstrip.
    destruct (dropwhile_decomp is_space (rev s)) as (w & _ & _ & [E|(d & t & E & Hd)]);
      unfold lstrip; rewrite E; [reflexivity|].
    simpl rev. destruct (lstrip_snoc (rev t) d Hd) as [t' Ht].
    unfold lstrip in Ht. rewrite Ht, rev_app_distr. reflexivity.
Qed.

Lemma skippable_false_first_ns (l : str) :
  skippable (strip l) = false -> exists c, first_ns l = Some c.
Proof.
  unfold skippable. intros H.
  change (strip l) with (lstrip (rstrip l)) in H.
  rewrite <- first_ns_rstrip. unfold first_ns.
  destruct (lstrip (rstrip l)); [simpl in H; discriminate | simpl; eauto].
Qed.

Lemma first_ns_last_ns (l : str) (c : ascii) :
  first_ns l = Some c -> exists d, last_ns l = Some d.
Proof.
  intros H. unfold last_ns.
  destruct (first_ns (rev l)) as [d|] eqn:E; [eauto|].
  unfold first_ns, lstrip in E.
  assert (Hall : forallb is_space (rev l) = true).
  { apply dropwhile_nil_all. destruct (dropwhile is_space (rev l)); [reflexivity | discriminate]. }
  assert (Hl : forallb is_space l = true).
  { rewrite forallb_forall in *. intros x Hx. apply Hall. rewrite <- in_rev. exact Hx. }
  rewrite (first_ns_spaces _ Hl) in H. discriminate.
Qed.

(** ** Lines *)

Lemma join_snoc (sep : str) (L : list str) (l : str) :
  L <> [] -> join sep (L ++ [l]) = join sep L ++ sep ++ l.
Proof.
  induction L as [|x L IH]; [congruence|]. intros _.
  destruct L as [|y L]; [reflexivity|].
  transitivity (x ++ sep ++ join sep ((y :: L) ++ [l])); [reflexivity|].
  rewrite IH by discriminate.
  change (join sep (x :: y :: L)) with (x ++ sep ++ join sep (y :: L)).
  rewrite <- !app_assoc. reflexivity.
Qed.

Lemma split_all_nonempty (c : ascii) (s : str) : split_all c s <> [].
Proof.
  induction s as [|x s IH]; simpl; [discriminate|].
  destruct (Ascii.eqb x c); [discriminate|].
  destruct (split_all c s); discriminate.
Qed.

Lemma split_all_notin (c : ascii) (a : str) :
  ~ In c a -> split_all c a = [a].
Proof.
  induction a as [|x a IH]; simpl; intros H; [reflexivity|].
  destruct (Ascii.eqb x c) eqn:E; [apply Ascii.eqb_eq in E; tauto|].
  rewrite IH by tauto. reflexivity.
Qed.

Lemma split_all_cut (c : ascii) (a b : str) :
  ~ In c a -> split_all c (a ++ c :: b) = a :: split_all c b.
Proof.
  induction a as [|x a IH]; simpl; intros H.
  - rewrite Ascii.eqb_refl. reflexivity.
  - destruct (Ascii.eqb x c) eqn:E; [apply Ascii.eqb_eq in E; tauto|].
    rewrite IH by tauto. reflexivity.
Qed.

Lemma split_all_snoc (c : ascii) (a l : str) :
  ~ In c l -> split_all c (a ++ c :: l) = split_all c a ++ [l].
Proof.
  intros Hl. induction a as [|x a IH]; simpl.
  - rewrite Ascii.eqb_refl, split_all_notin by exact Hl. reflexivity.
  - destruct (Ascii.eqb x c); [rewrite IH; reflexivity|].
    rewrite IH. destruct (split_all c a) eqn:E; [|reflexivity].
    exfalso. exact (split_all_nonempty _ _ E).
Qed.

Lemma join_split_all (c : ascii) (s : str) : join [c] (split_all c s) = s.
Proof.
  induction s as [|x s IH]; simpl; [reflexivity|].
  destruct (Ascii.eqb x c) eqn:E.
  - apply Ascii.eqb_eq in E. subst x.
    destruct (split_all c s) as [|l ls] eqn:E';
      [exfalso; exact (split_all_nonempty _ _ E')|].
    transitivity ([] ++ [c] ++ join [c] (l :: ls)); [reflexivity|].
    rewrite IH. reflexivity.
  - destruct (split_all c s) as [|l ls] eqn:E'; [exfalso; exact (split_all_nonempty _ _ E')|].
    destruct ls; simpl in *; congruence.
Qed.

Lemma split_all_join (c : ascii) (L : list str) :
  L <> [] -> Forall (fun l => ~ In c l) L -> split_all c (join [c] L) = L.
Proof.
  induction L as [|x L IH]; [congruence|]. intros _ H.
  inversion H as [|? ? Hx HL]; subst.
  destruct L as [|y L]; [apply split_all_notin; exact Hx|].
  change (join [c] (x :: y :: L)) with (x ++ c :: join [c] (y :: L)).
  rewrite split_all_cut by exact Hx. rewrite IH; [reflexivity | discriminate | exact HL].
Qed.

Lemma split_all_lines (c : ascii) (s : str) :
  Forall (fun l => ~ In c l) (split_all c s).
Proof.
  induction s as [|x s IH]; simpl; [repeat constructor; tauto|].
  destruct (Ascii.eqb x c) eqn:E; [constructor; [tauto | exact IH]|].
  destruct (split_all c s) as [|l ls]; inversion IH; subst.
  - repeat constructor. intros [->|[]]. rewrite Ascii.eqb_refl in E. discriminate.
  - constructor; [|assumption]. intros [->|Hin]; [|tauto].
    rewrite Ascii.eqb_refl in E. discriminate.
Qed.

Lemma only_lf_app (a b : str) : only_lf (a ++ b) = only_lf a && only_lf b.
Proof. apply forallb_app. Qed.

Lemma only_lf_join (L : list str) :
  Forall (fun l => only_lf l = true) L -> only_lf (join [nl] L) = true.
Proof.
  induction L as [|x L IH]; [reflexivity|]. intros H.
  inversion H; subst. destruct L as [|y L]; [assumption|].
  change (join [nl] (x :: y :: L)) with (x ++ [nl] ++ join [nl] (y :: L)).
  rewrite !only_lf_app, IH by assumption. rewrite H2. reflexivity.
Qed.

Lemma only_lf_split (s : str) :
  only_lf s = true -> Forall (fun l => only_lf l = true) (split_all nl s).
Proof.
  induction s as [|x s IH]; simpl; [repeat constructor|].
  intros H. apply andb_true_iff in H as [Hx H]. specialize (IH H).
  destruct (Ascii.eqb x nl) eqn:E; [constructor; [reflexivity | exact IH]|].
  destruct (split_all nl s) as [|l ls]; inversion IH; subst.
  - repeat constructor. simpl. rewrite E, Hx. reflexivity.
  - constructor; [|assumption]. simpl. rewrite E, Hx. assumption.
Qed.

Lemma only_lf_rstrip (l : str) : only_lf l = true -> only_lf (rstrip l) = true.
Proof.
  destruct (rstrip_decomp l) as (w & E & _). intros H. rewrite E in H.
  rewrite only_lf_app in H. apply andb_true_iff in H. tauto.
Qed.

Lemma notin_rstrip (c : ascii) (l : str) : ~ In c l -> ~ In c (rstrip l).
Proof.
  destruct (rstrip_decomp l) as (w & E & _). intros H Hin. apply H.
  rewrite E. apply in_or_app. left. exact Hin.
Qed.

Lemma splitlines_aux_only_lf (s : str) : forall cur,
  only_lf s = true ->
  last ((rev cur ++ hd [] (split_all nl s)) :: tl (split_all nl s)) [] <> [] ->
  splitlines_aux cur s = (rev cur ++ hd [] (split_all nl s)) :: tl (split_all nl s).
Proof.
  induction s as [|c s IH]; intros cur Hlf Hlast.
  - cbn [split_all hd tl last] in *. rewrite app_nil_r in *.
    destruct cur; [simpl in Hlast; congruence | reflexivity].
  - simpl in Hlf. apply andb_true_iff in Hlf as [Hc Hlf].
    pose proof (split_all_nonempty nl s) as Hne.
    cbn [split_all] in *. destruct (Ascii.eqb c nl) eqn:E.
    + apply Ascii.eqb_eq in E. subst c. cbn [splitlines_aux hd tl] in *.
      change (is_linebreak nl) with true. change (Ascii.eqb nl cr) with false.
      cbv iota. rewrite app_nil_r in *.
      rewrite (IH []); [| exact Hlf |].
      * destruct (split_all nl s); [congruence | reflexivity].
      * destruct (split_all nl s) as [|h t]; [congruence|]. exact Hlast.
    + rewrite orb_false_r in Hc. apply negb_true_iff in Hc.
      cbn [splitlines_aux]. rewrite Hc.
      destruct (split_all nl s) as [|h t]; [congruence|].
      cbn [hd tl] in *. rewrite (IH (c :: cur) Hlf).
      * simpl. rewrite <- app_assoc. reflexivity.
      * simpl. rewrite <- app_assoc. exact Hlast.
Qed.

Lemma splitlines_only_lf (s : str) :
  only_lf s = true -> last (split_all nl s) [] <> [] ->
  splitlines s = split_all nl s.
Proof.
  intros H1 H2. unfold splitlines. rewrite splitlines_aux_only_lf; auto;
    destruct (split_all nl s) eqn:E; auto; exfalso; exact (split_all_nonempty _ _ E).
Qed.

Lemma last_snoc {A : Type} (L : list A) (l d : A) : last (L ++ [l]) d = l.
Proof. apply last_last. Qed.

Lemma no_linebreak_rev (s : str) : no_linebreak (rev s) = no_linebreak s.
Proof.
  unfold no_linebreak. destruct (forallb _ s) eqn:E.
  - rewrite forallb_forall in *. intros c Hc. apply E. apply in_rev. exact Hc.
  - destruct (forallb _ (rev s)) eqn:E'; [|reflexivity].
    rewrite forallb_forall in E'. rewrite <- E. symmetry.
    apply forallb_forall. intros c Hc. apply E'. apply in_rev.
    rewrite rev_involutive. exact Hc.
Qed.

Lemma splitlines_aux_pieces : forall n s cur,
  List.length s <= n -> no_linebreak cur = true ->
  Forall (fun p => no_linebreak p = true) (splitlines_aux cur s).
Proof.
  induction n as [|n IH]; intros s cur Hn Hcur.
  - destruct s; [|cbn in Hn; lia]. cbn.
    destruct cur; constructor; [|constructor].
    rewrite no_linebreak_rev. exact Hcur.
  - destruct s as [|c s]; cbn [splitlines_aux].
    + destruct cur; constructor; [|constructor].
      rewrite no_linebreak_rev. exact Hcur.
    + cbn in Hn. destruct (is_linebreak c) eqn:Ec.
      * constructor; [rewrite no_linebreak_rev; exact Hcur|].
        destruct (Ascii.eqb c cr); [|apply IH; [lia | reflexivity]].
        destruct s as [|d s']; [apply IH; [cbn; lia | reflexivity]|].
        destruct (Ascii.eqb d nl); apply IH; cbn in *; try lia; reflexivity.
      * apply IH; [lia|]. cbn. rewrite Ec. exact Hcur.
Qed.

Lemma no_linebreak_rstrip (l : str) :
  no_linebreak l = true -> no_linebreak (rstrip l) = true.
Proof.
  destruct (rstrip_decomp l) as (w & E & _). intros H. rewrite E in H.
  unfold no_linebreak in *. rewrite forallb_app in H.
  apply andb_true_iff in H. tauto.
Qed.

Lemma no_linebreak_only_lf (l : str) :
  no_linebreak l = true -> only_lf l = true /\ ~ In nl l.
Proof.
  unfold no_linebreak, only_lf. rewrite !forallb_forall. intros H. split.
  - intros c Hc. rewrite (H c Hc). reflexivity.
  - intros Hin. apply H in Hin. discriminate Hin.
Qed.

(** ** The shape of a trimmed query *)

Lemma join_cons (f : str) (M : list str) (l : str) :
  join [nl] (f :: M ++ [l]) = f ++ nl :: join [nl] (M ++ [l]).
Proof. destruct M; reflexivity. Qed.

Lemma join_last (f : str) (M : list str) (l : str) :
  join [nl] (f :: M ++ [l]) = join [nl] (f :: M) ++ nl :: l.
Proof. rewrite app_comm_cons, join_snoc by discriminate. reflexivity. Qed.

Lemma trim_lines_lines (x q : str) :
  trim_lines x = Ok q ->
  exists f M l, q = join [nl] (f :: M ++ [l]) /\ trimmed_lines f M l /\
    exists p s, x = p ++ q ++ s.
Proof.
  intros H.
  destruct (trim_lines_spec x) as [H'|(p & s & f & rest & a & l & H' & Hx & Hq & Hf & Hl & Sf & Sl)];
    rewrite H' in H; [discriminate|]. injection H as <-.
  destruct (split_all nl a) as [|f0 M] eqn:Ea; [exfalso; exact (split_all_nonempty _ _ Ea)|].
  assert (Hj : a ++ nl :: l = join [nl] (f0 :: M ++ [l])).
  { rewrite join_last, <- Ea, join_split_all. reflexivity. }
  assert (Hall : Forall (fun x => ~ In nl x) (f0 :: M ++ [l])).
  { rewrite app_comm_cons. apply Forall_app. split; [|repeat constructor; exact Hl].
    rewrite <- Ea. apply split_all_lines. }
  assert (f0 = f) as ->.
  { pose proof Hj as Hj'. rewrite join_cons, Hq in Hj'.
    assert (Hc : cut_first nl (f ++ nl :: rest) = Some (f, rest)) by (apply cut_first_app; exact Hf).
    rewrite Hj' in Hc. rewrite cut_first_app in Hc; [congruence|].
    inversion Hall; assumption. }
  exists f, M, l. split; [exact Hj|]. split; [repeat split; assumption|].
  exists p, s. exact Hx.
Qed.

Lemma finish_lines (L : list str) :
  L <> [] -> last L [] <> [] ->
  Forall (fun x => ~ In nl x) L -> Forall (fun x => only_lf x = true) L ->
  finish (join [nl] L) = join [nl] (map rstrip L) ++ [nl].
Proof.
  intros Hne Hlast Hnl Hlf. unfold finish.
  rewrite splitlines_only_lf.
  - rewrite split_all_join by assumption. reflexivity.
  - apply only_lf_join. exact Hlf.
  - rewrite split_all_join by assumption. exact Hlast.
Qed.

Lemma skippable_false_nonempty (l : str) :
  skippable (strip l) = false -> rstrip l <> [].
Proof.
  intros H E. unfold strip in H. rewrite E in H. discriminate.
Qed.

Lemma trimmed_lines_rstrip (f : str) (M : list str) (l : str) :
  trimmed_lines f M l -> trimmed_lines (rstrip f) (map rstrip M) (rstrip l).
Proof.
  intros (Hall & Sf & Sl). repeat split.
  - change (rstrip f :: map rstrip M ++ [rstrip l]) with
      (rstrip f :: map rstrip M ++ map rstrip [l]).
    rewrite <- map_app, <- map_cons. apply Forall_map.
    eapply Forall_impl; [|exact Hall]. intros x. apply notin_rstrip.
  - rewrite strip_rstrip. exact Sf.
  - rewrite strip_rstrip. exact Sl.
Qed.

(** On a text of this shape followed by a line feed, the loops return the
    text itself. *)
Lemma trim_lines_trimmed (f : str) (M : list str) (l : str) :
  trimmed_lines f M l ->
  trim_lines (join [nl] (f :: M ++ [l]) ++ [nl]) = Ok (join [nl] (f :: M ++ [l])).
Proof.
  intros (Hall & Sf & Sl). unfold trim_lines.
  assert (Hf : ~ In nl f) by (inversion Hall; assumption).
  assert (Hl : ~ In nl l).
  { rewrite app_comm_cons in Hall. apply Forall_app in Hall as [_ Hall].
    inversion Hall; assumption. }
  remember (join [nl] (f :: M ++ [l])) as q eqn:Eq.
  assert (Hs : clean_start (List.length (q ++ [nl])) (q ++ [nl]) = Ok (q ++ [nl])).
  { destruct (List.length (q ++ [nl])); rewrite Eq at 1; rewrite join_cons, <- app_assoc;
      cbn [clean_start app]; unfold split1;
      rewrite cut_first_app by exact Hf; cbn [getitem nth_error bind];
      rewrite Sf; rewrite app_comm_cons, app_assoc, <- join_cons, <- Eq;
      reflexivity. }
  rewrite Hs. cbn [bind].
  rewrite length_app, Nat.add_1_r. cbn [clean_end]. unfold rsplit1.
  change (q ++ [nl]) with (q ++ nl :: []).
  rewrite cut_last_app by (intros []). cbn [getitem nth_error bind].
  change (skippable (strip [])) with true. cbv iota.
  destruct (List.length q); rewrite Eq at 1; rewrite join_last;
    cbn [clean_end]; unfold rsplit1; rewrite cut_last_app by exact Hl;
    cbn [getitem nth_error bind]; rewrite Sl, <- join_last, <- Eq; reflexivity.
Qed.

Lemma wrapped_lines (f : str) (M M' : list str) (l : str) :
  skippable (strip f) = false -> skippable (strip l) = false ->
  wrapped (join [nl] (rstrip f :: M' ++ [rstrip l])) =
  wrapped (join [nl] (f :: M ++ [l])).
Proof.
  intros Sf Sl. rewrite !wrapped_ns.
  destruct (skippable_false_first_ns _ Sf) as [c Hc].
  destruct (skippable_false_first_ns _ Sl) as [c' Hc'].
  destruct (first_ns_last_ns _ _ Hc') as [d Hd].
  f_equal.
  - rewrite !join_cons, !first_ns_app, first_ns_rstrip, Hc. reflexivity.
  - rewrite !join_last.
    change (join [nl] (rstrip f :: M') ++ nl :: rstrip l)
      with (join [nl] (rstrip f :: M') ++ [nl] ++ rstrip l).
    change (join [nl] (f :: M) ++ nl :: l) with (join [nl] (f :: M) ++ [nl] ++ l).
    rewrite !app_assoc, !last_ns_app, last_ns_rstrip, Hd. reflexivity.
Qed.

Lemma only_lf_infix (p q s : str) : only_lf (p ++ q ++ s) = true -> only_lf q = true.
Proof.
  rewrite !only_lf_app. intros H. apply andb_true_iff in H as [_ H].
  apply andb_true_iff in H. tauto.
Qed.

(** A call that unwraps nothing, on a text whose only line boundary is the
    line feed: the result is the trimmed text with the trailing whitespace
    of every line removed. *)
Lemma clean_query_unwrapped (x q : str) :
  only_lf x = true -> trim_lines x = Ok q -> wrapped q = false ->
  exists f M l, trimmed_lines f M l /\ q = join [nl] (f :: M ++ [l]) /\
    Forall (fun x => only_lf x = true) (f :: M ++ [l]) /\
    clean_query x = Ok (join [nl] (map rstrip (f :: M ++ [l])) ++ [nl]).
Proof.
  intros Hlf Ht Hw.
  destruct (trim_lines_lines _ _ Ht) as (f & M & l & Hq & HT & p & s & Hx).
  exists f, M, l. split; [exact HT|]. split; [exact Hq|].
  assert (Hlfq : Forall (fun x => only_lf x = true) (f :: M ++ [l])).
  { rewrite Hx in Hlf. apply only_lf_infix in Hlf.
    apply only_lf_split in Hlf. rewrite Hq, split_all_join in Hlf;
      [exact Hlf | discriminate | apply HT]. }
  split; [exact Hlfq|].
  unfold clean_query. rewrite Ht. cbn [bind]. unfold unwrap. rewrite Hw. cbn [bind].
  f_equal. rewrite Hq. apply finish_lines; try discriminate; try apply HT; try exact Hlfq.
  rewrite app_comm_cons, last_snoc. intros ->.
  destruct HT as (_ & _ & Sl). discriminate.
Qed.

(** ** Claims about the Text Normalizer *)

(** C4. [clean_query] has an error condition: on the empty text the first
    loop reads [split_script[1]] of a one-item list, and the call raises
    [IndexError] where the specification promises a single line feed. *)
Theorem clean_query_empty_raises : clean_query [] = Raise IndexError.
Proof. reflexivity. Qed.

(** The same call is reached from the classifier, on a block that is one
    line between parentheses. *)
Lemma SmallScript_init_one_line_raises :
  SmallScript_init (py "(\nfoo\n)") (lit "big") (lit "out") = Raise IndexError.
Proof. vm_compute. reflexivity. Qed.

Lemma endswith_snoc (a : str) (c : ascii) : endswith [c] (a ++ [c]) = true.
Proof.
  unfold endswith. rewrite rev_app_distr. simpl. rewrite Ascii.eqb_refl. reflexivity.
Qed.

Lemma endswith_nlnl (a : str) (d : ascii) :
  d <> nl -> endswith [nl; nl] (a ++ [d; nl]) = false.
Proof.
  intros H. unfold endswith. rewrite rev_app_distr.
  cbn [rev app startswith]. rewrite Ascii.eqb_refl.
  destruct (Ascii.eqb nl d) eqn:E; [|reflexivity].
  apply Ascii.eqb_eq in E. congruence.
Qed.

Lemma map_rstrip_lines (f : str) (M : list str) (l : str) :
  map rstrip (f :: M ++ [l]) = rstrip f :: map rstrip M ++ [rstrip l].
Proof. rewrite map_cons, map_app. reflexivity. Qed.

(** The text that [clean_query] returns ends with a line feed; it ends with
    exactly one when the call removed no pair of parentheses and the query
    has no line boundary other than the line feed. *)
Theorem clean_query_trailing_newline (x r : str) :
  clean_query x = Ok r ->
  endswith [nl] r = true /\
  (forall q, only_lf x = true -> trim_lines x = Ok q -> wrapped q = false ->
     endswith [nl; nl] r = false).
Proof.
  intros Hr. split.
  - unfold clean_query in Hr.
    destruct (trim_lines x) as [q|]; [|discriminate]. cbn [bind] in Hr.
    destruct (unwrap q) as [q'|]; [|discriminate]. cbn [bind] in Hr.
    injection Hr as <-. unfold finish. apply endswith_snoc.
  - intros q Hlf Ht Hw.
    destruct (clean_query_unwrapped x q Hlf Ht Hw) as (f & M & l & HT & _ & _ & Hc).
    assert (r = join [nl] (map rstrip (f :: M ++ [l])) ++ [nl]) as -> by congruence.
    destruct HT as (_ & _ & Sl).
    pose proof (skippable_false_nonempty _ Sl) as Hne.
    destruct (rstrip_decomp l) as (w & _ & _ & [E|(t & d & E & Hd)]); [congruence|].
    rewrite map_rstrip_lines, join_last, E.
    replace ((join [nl] (rstrip f :: map rstrip M) ++ nl :: t ++ [d]) ++ [nl])
      with ((join [nl] (rstrip f :: map rstrip M) ++ nl :: t) ++ [d; nl])
      by (rewrite <- !app_assoc; cbn [app]; rewrite <- !app_assoc; reflexivity).
    apply endswith_nlnl. intros ->. discriminate.
Qed.

Lemma clean_query_trailing_newline_witness :
  endswith [nl] (py "select 1\nfrom t\n") = true /\
  endswith [nl; nl] (py "select 1\nfrom t\n") = false.
Proof.
  destruct (clean_query_trailing_newline
              (py "-- head\nselect 1  \nfrom t\n\n") (py "select 1\nfrom t\n")
              ltac:(vm_compute; reflexivity)) as [H1 H2].
  split; [exact H1|].
  apply (H2 (py "select 1  \nfrom t")); vm_compute; reflexivity.
Defined.

(** C9, as the specification has it, fails: a closing parenthesis that is
    indented leaves a blank last line once the pair is removed, and the text
    ends with two line feeds. *)
Lemma clean_query_two_newlines :
  clean_query (py "(\nselect 1\n  )") = Ok (py "select 1\n\n") /\
  endswith [nl; nl] (py "select 1\n\n") = true.
Proof. split; vm_compute; reflexivity. Qed.

(** [clean_query] leaves its own result unchanged when the first call
    removed no pair of parentheses and the query has no line boundary other
    than the line feed. *)
Theorem clean_query_idempotent_unwrapped (x q r : str) :
  only_lf x = true -> trim_lines x = Ok q -> wrapped q = false ->
  clean_query x = Ok r -> clean_query r = Ok r.
Proof.
  intros Hlf Ht Hw Hr.
  destruct (clean_query_unwrapped x q Hlf Ht Hw) as (f & M & l & HT & Hq & Hlfq & Hc).
  assert (r = join [nl] (map rstrip (f :: M ++ [l])) ++ [nl]) as -> by congruence.
  pose proof (trimmed_lines_rstrip _ _ _ HT) as HT'.
  rewrite map_rstrip_lines.
  unfold clean_query. rewrite (trim_lines_trimmed _ _ _ HT'). cbn [bind].
  unfold unwrap.
  destruct HT as (Hall & Sf & Sl).
  rewrite (wrapped_lines f M (map rstrip M) l Sf Sl), <- Hq, Hw. cbn [bind].
  f_equal. rewrite finish_lines.
  - rewrite map_rstrip_lines, !rstrip_idem, map_map.
    rewrite (map_ext (fun x => rstrip (rstrip x)) rstrip); [reflexivity|].
    intros a. apply rstrip_idem.
  - discriminate.
  - rewrite app_comm_cons, last_snoc. apply skippable_false_nonempty. exact Sl.
  - apply HT'.
  - rewrite <- map_rstrip_lines. apply Forall_map.
    eapply Forall_impl; [|exact Hlfq]. intros a. apply only_lf_rstrip.
Qed.

Lemma clean_query_idempotent_unwrapped_witness :
  clean_query (py "select 1\nfrom t\n") = Ok (py "select 1\nfrom t\n").
Proof.
  apply (clean_query_idempotent_unwrapped
           (py "-- head\nselect 1  \nfrom t\n\n") (py "select 1  \nfrom t"));
    vm_compute; reflexivity.
Defined.

(** C3, as the specification has it, fails: every call removes one pair of
    parentheses, so a query inside two pairs changes again under a second
    call. *)
Lemma clean_query_not_idempotent :
  clean_query (py "((\na\nb\n))") = Ok (py "(\na\nb\n)\n") /\
  clean_query (py "(\na\nb\n)\n") = Ok (py "a\nb\n") /\
  py "a\nb\n" <> py "(\na\nb\n)\n".
Proof. repeat split; try (vm_compute; reflexivity). vm_compute. discriminate. Qed.

(** *** The text that reaches the last statements *)

Lemma clean_query_interior (x : str) :
  clean_query x = (u <- interior x ;; Ok (finish u)).
Proof. unfold clean_query, interior. destruct (trim_lines x); reflexivity. Qed.

Lemma linebreak_is_space (c : ascii) :
  is_linebreak c = true -> is_space c = true.
Proof.
  destruct c as [[] [] [] [] [] [] [] []]; vm_compute; intros H; congruence.
Qed.

Lemma first_ns_cons_space (c : ascii) (s : str) :
  is_space c = true -> first_ns (c :: s) = first_ns s.
Proof. unfold first_ns, lstrip. simpl. intros ->. reflexivity. Qed.

Lemma last_ns_cons_space (c : ascii) (s : str) :
  is_space c = true -> last_ns (c :: s) = last_ns s.
Proof.
  intros H. change (c :: s) with ([c] ++ s). rewrite last_ns_app.
  destruct (last_ns s); [reflexivity|].
  unfold last_ns, first_ns, lstrip. simpl. rewrite H. reflexivity.
Qed.

(** The line boundaries are whitespace: the first and the last character
    that is no whitespace are found in the lines. *)
Lemma splitlines_aux_ns : forall n s cur,
  List.length s <= n ->
  first_ns (rev cur ++ s) = first_ns (List.concat (splitlines_aux cur s)) /\
  last_ns (rev cur ++ s) = last_ns (List.concat (splitlines_aux cur s)).
Proof.
  induction n as [|n IH]; intros s cur Hn.
  - destruct s; [|cbn in Hn; lia]. cbn [splitlines_aux].
    destruct cur as [|c cur]; [split; reflexivity|].
    cbn [List.concat]. rewrite !app_nil_r. split; reflexivity.
  - destruct s as [|c s]; cbn [splitlines_aux].
    + destruct cur as [|c cur]; [split; reflexivity|].
      cbn [List.concat]. rewrite !app_nil_r. split; reflexivity.
    + cbn in Hn. destruct (is_linebreak c) eqn:Ec.
      * pose proof (linebreak_is_space c Ec) as Hc.
        assert (HR : forall R s2,
                  first_ns s2 = first_ns (List.concat R) /\
                  last_ns s2 = last_ns (List.concat R) ->
                  first_ns s = first_ns s2 -> last_ns s = last_ns s2 ->
                  first_ns (rev cur ++ c :: s) = first_ns (List.concat (rev cur :: R)) /\
                  last_ns (rev cur ++ c :: s) = last_ns (List.concat (rev cur :: R))).
        { intros R s2 [H1 H2] H3 H4. cbn [List.concat].
          rewrite !first_ns_app, !last_ns_app.
          rewrite (first_ns_cons_space c s Hc), (last_ns_cons_space c s Hc).
          rewrite <- H1, <- H2, H3, H4. split; reflexivity. }
        destruct (Ascii.eqb c cr).
        -- destruct s as [|d s'].
           ++ apply (HR _ []); [apply (IH [] []); cbn; lia | reflexivity | reflexivity].
           ++ destruct (Ascii.eqb d nl) eqn:Ed.
              ** apply Ascii.eqb_eq in Ed. subst d.
                 apply (HR _ s'); [apply (IH s' []); cbn in *; lia | |].
                 --- apply first_ns_cons_space. reflexivity.
                 --- apply last_ns_cons_space. reflexivity.
              ** apply (HR _ (d :: s')); [apply (IH (d :: s') []); cbn in *; lia | |];
                   reflexivity.
        -- apply (HR _ s); [apply (IH s []); lia | |]; reflexivity.
      * destruct (IH s (c :: cur) ltac:(lia)) as [H1 H2].
        cbn [rev] in H1, H2. rewrite <- app_assoc in H1, H2. split; assumption.
Qed.

Lemma two_or_more (L : list str) :
  2 <= List.length L -> exists M, L = hd [] L :: M ++ [last L []].
Proof.
  destruct L as [|f L]; cbn [List.length]; [lia|]. intros H.
  destruct (exists_last (l := L)) as (M & l & ->).
  { destruct L; [cbn in H; lia | discriminate]. }
  exists M. cbn [hd]. rewrite app_comm_cons, last_snoc. reflexivity.
Qed.

Lemma wrapped_splitlines (u f : str) (M : list str) (l : str) :
  splitlines u = f :: M ++ [l] ->
  skippable (strip f) = false -> skippable (strip l) = false ->
  wrapped (join [nl] (f :: M ++ [l])) = wrapped u.
Proof.
  intros E Sf Sl. rewrite !wrapped_ns.
  destruct (splitlines_aux_ns _ u [] (le_n _)) as [H1 H2].
  fold (splitlines u) in H1, H2. cbn [rev app] in H1, H2. rewrite E in H1, H2.
  destruct (skippable_false_first_ns _ Sf) as [c Hc].
  destruct (skippable_false_first_ns _ Sl) as [c' Hc'].
  destruct (first_ns_last_ns _ _ Hc') as [d Hd].
  rewrite H1, H2. f_equal.
  - cbn [List.concat]. rewrite join_cons, !first_ns_app, Hc. reflexivity.
  - rewrite join_last, app_comm_cons, List.concat_app. cbn [List.concat].
    rewrite app_nil_r.
    change (join [nl] (f :: M) ++ nl :: l) with (join [nl] (f :: M) ++ [nl] ++ l).
    rewrite !app_assoc, !last_ns_app, Hd. reflexivity.
Qed.

Lemma splitlines_lines (u : str) :
  Forall (fun p => no_linebreak p = true) (splitlines u).
Proof. apply (splitlines_aux_pieces _ u [] (le_n _) eq_refl). Qed.

(** A text with plain ends that is not wrapped is normalised to a text that
    [clean_query] returns as it is. *)
Lemma clean_query_plain_fixed (u : str) :
  plain_ends u -> wrapped u = false ->
  clean_query (finish u) = Ok (finish u).
Proof.
  intros (Hlen & Sf & Sl) Hw.
  destruct (two_or_more _ Hlen) as [M E].
  set (f := hd [] (splitlines u)) in *. set (l := last (splitlines u) []) in *.
  pose proof (splitlines_lines u) as HP. rewrite E in HP.
  assert (HT : trimmed_lines f M l).
  { split; [|split; assumption]. eapply Forall_impl; [|exact HP].
    intros a Ha. apply no_linebreak_only_lf. exact Ha. }
  pose proof (trimmed_lines_rstrip _ _ _ HT) as HT'.
  unfold finish at 1 2. rewrite E, map_rstrip_lines.
  unfold clean_query. rewrite (trim_lines_trimmed _ _ _ HT'). cbn [bind].
  unfold unwrap.
  rewrite (wrapped_lines f M (map rstrip M) l Sf Sl),
    (wrapped_splitlines u f M l E Sf Sl), Hw. cbn [bind].
  f_equal. rewrite finish_lines.
  - rewrite map_rstrip_lines, !rstrip_idem, map_map.
    rewrite (map_ext (fun x => rstrip (rstrip x)) rstrip); [reflexivity|].
    intros a. apply rstrip_idem.
  - discriminate.
  - rewrite app_comm_cons, last_snoc. apply skippable_false_nonempty. exact Sl.
  - apply HT'.
  - rewrite <- map_rstrip_lines. apply Forall_map.
    eapply Forall_impl; [|exact HP]. intros a Ha. apply only_lf_rstrip.
    apply no_linebreak_only_lf. exact Ha.
Qed.

(** A call that removes no pair of parentheses, on a text whose only line
    boundary is the line feed, is one of these. *)
Lemma unwrapped_interior (x q : str) :
  only_lf x = true -> trim_lines x = Ok q -> wrapped q = false ->
  interior x = Ok q /\ plain_ends q.
Proof.
  intros Hlf Ht Hw. split.
  - unfold interior. rewrite Ht. cbn [bind]. unfold unwrap. rewrite Hw. reflexivity.
  - destruct (clean_query_unwrapped x q Hlf Ht Hw) as (f & M & l & HT & Hq & Hlfq & _).
    assert (E : splitlines q = f :: M ++ [l]).
    { rewrite splitlines_only_lf; rewrite Hq.
      - apply split_all_join; [discriminate | apply HT].
      - apply only_lf_join. exact Hlfq.
      - rewrite split_all_join; [|discriminate | apply HT].
        rewrite app_comm_cons, last_snoc. intros ->.
        destruct HT as (_ & _ & Sl). discriminate. }
    unfold plain_ends. rewrite E. cbn [hd]. rewrite app_comm_cons, last_snoc.
    destruct HT as (_ & Sf & Sl). repeat split; try assumption.
    cbn [List.length]. rewrite length_app. cbn. lia.
Qed.

(** C3, as the code has it.  [clean_query] leaves its own result unchanged
    when the text that reaches its last statements (the query without the
    blank and comment lines at its ends and without the pair of parentheses
    around it) has two lines or more, a first and a last line that are
    neither blank nor comments, and is not wrapped in parentheses again. *)
Theorem clean_query_idempotent_interior (x u : str) :
  interior x = Ok u -> plain_ends u -> wrapped u = false ->
  clean_query x = Ok (finish u) /\
  clean_query (finish u) = Ok (finish u).
Proof.
  intros Hi Hp Hw. split.
  - rewrite clean_query_interior, Hi. reflexivity.
  - apply clean_query_plain_fixed; assumption.
Qed.

Lemma clean_query_idempotent_interior_witness :
  clean_query (py "(\n select x  \n from a\n)\n") =
    Ok (finish (py " select x  \n from a\n")) /\
  clean_query (finish (py " select x  \n from a\n")) =
    Ok (finish (py " select x  \n from a\n")).
Proof.
  apply (clean_query_idempotent_interior
           (py "(\n select x  \n from a\n)\n") (py " select x  \n from a\n")).
  - vm_compute. reflexivity.
  - unfold plain_ends. repeat split; vm_compute; reflexivity.
  - vm_compute. reflexivity.
Defined.

(** The three conditions are needed.  With one line between the parentheses
    the second call raises; with a comment as the last line between them it
    removes that line; [clean_query_not_idempotent] has a second pair of
    parentheses. *)
Lemma clean_query_one_line_inside :
  clean_query (py "(\nselect 1\n)") = Ok (py "select 1\n") /\
  clean_query (py "select 1\n") = Raise IndexError.
Proof. split; vm_compute; reflexivity. Qed.

Lemma clean_query_comment_inside :
  clean_query (py "(\n select 1\n from a\n -- done\n)") =
    Ok (py " select 1\n from a\n -- done\n") /\
  clean_query (py " select 1\n from a\n -- done\n") =
    Ok (py " select 1\n from a\n").
Proof. split; vm_compute; reflexivity. Qed.

Lemma endswith_nlnl_one (l : str) :
  endswith [nl; nl] (rstrip l ++ [nl]) = false.
Proof.
  destruct (rstrip_decomp l) as (w & _ & _ & [->|(t & d & -> & Hd)]);
    [reflexivity|].
  rewrite <- app_assoc. apply endswith_nlnl. intros ->. discriminate.
Qed.

(** C9, as the code has it.  The text that [clean_query] returns ends with
    a line feed.  It ends with two exactly when the text that reaches the
    last statements has two lines or more and a blank last line; otherwise
    it ends with exactly one. *)
Theorem clean_query_one_trailing_newline (x u : str) :
  interior x = Ok u ->
  clean_query x = Ok (finish u) /\
  endswith [nl] (finish u) = true /\
  (endswith [nl; nl] (finish u) = true <->
   2 <= List.length (splitlines u) /\ rstrip (last (splitlines u) []) = []).
Proof.
  intros Hi. split; [rewrite clean_query_interior, Hi; reflexivity|].
  split; [apply endswith_snoc|].
  unfold finish. destruct (splitlines u) as [|f [|g L]] eqn:E.
  - cbn. split; [discriminate | intros [H _]; lia].
  - cbn [map join List.length]. rewrite endswith_nlnl_one.
    split; [discriminate | intros [H _]; lia].
  - assert (Hlen : 2 <= List.length (splitlines u)) by (rewrite E; cbn; lia).
    destruct (two_or_more _ Hlen) as [M EM]. rewrite E in EM. rewrite EM.
    cbn [hd]. set (l := last (f :: g :: L) []).
    rewrite app_comm_cons, last_snoc, <- app_comm_cons.
    rewrite map_rstrip_lines, join_last.
    destruct (rstrip_decomp l) as (w & _ & _ & [El|(t & d & El & Hd)]); rewrite El.
    + split; [intros _; split; [|reflexivity] | intros _].
      * cbn [List.length]. rewrite length_app. cbn. lia.
      * unfold endswith. rewrite !rev_app_distr. reflexivity.
    + replace ((join [nl] (rstrip f :: map rstrip M) ++ nl :: t ++ [d]) ++ [nl])
        with ((join [nl] (rstrip f :: map rstrip M) ++ nl :: t) ++ [d; nl])
        by (rewrite <- !app_assoc; cbn [app]; rewrite <- !app_assoc; reflexivity).
      rewrite endswith_nlnl by (intros ->; discriminate).
      split; [discriminate | intros [_ H]]. destruct t; discriminate.
Qed.

Lemma clean_query_one_trailing_newline_witness :
  clean_query (py "(\n select x\n from a\n)\n") =
    Ok (finish (py " select x\n from a\n")) /\
  endswith [nl] (finish (py " select x\n from a\n")) = true /\
  (endswith [nl; nl] (finish (py " select x\n from a\n")) = true <->
   2 <= List.length (splitlines (py " select x\n from a\n")) /\
   rstrip (last (splitlines (py " select x\n from a\n")) []) = []).
Proof.
  apply (clean_query_one_trailing_newline
           (py "(\n select x\n from a\n)\n") (py " select x\n from a\n")).
  vm_compute. reflexivity.
Defined.

(** ** The matcher *)

Lemma mstate_eta (s : mstate) : MState (m_prev s) (m_rest s) (m_caps s) = s.
Proof. destruct s; reflexivity. Qed.

Lemma in_ms_Seq (r1 r2 : regex) (s s' : mstate) :
  In s' (ms (Seq r1 r2) s) <-> exists s1, In s1 (ms r1 s) /\ In s' (ms r2 s1).
Proof. cbn [ms]. apply in_flat_map. Qed.

Lemma in_ms_Alt (r1 r2 : regex) (s s' : mstate) :
  In s' (ms (Alt r1 r2) s) <-> In s' (ms r1 s) \/ In s' (ms r2 s).
Proof. cbn [ms]. apply in_app_iff. Qed.

Lemma in_ms_Chr (p : ascii -> bool) (s s' : mstate) :
  In s' (ms (Chr p) s) <->
  exists c, p c = true /\ reads s [c] s' /\ m_caps s' = m_caps s.
Proof.
  cbn [ms]. unfold advance, reads. destruct s as [prev [|c t] caps]; cbn.
  - split; [intros [] | intros (c & _ & [H _] & _); discriminate].
  - destruct (p c) eqn:E; cbn.
    + split.
      * intros [<-|[]]. exists c. cbn. auto.
      * intros (d & _ & [H1 H2] & H3). left. destruct s' as [p' r' c'].
        cbn in *. injection H1 as <- <-. congruence.
    + split; [intros [] | intros (d & Hd & [H1 _] & _)].
      cbn in H1. injection H1 as <- _. congruence.
Qed.

Lemma reads_nil (s : mstate) : reads s [] s.
Proof. split; reflexivity. Qed.

Lemma reads_app (s s1 s2 : mstate) (w1 w2 : str) :
  reads s w1 s1 -> reads s1 w2 s2 -> reads s (w1 ++ w2) s2.
Proof.
  intros [H1 H2] [H3 H4]. split.
  - rewrite H1, H3, app_assoc. reflexivity.
  - rewrite H4, H2, rev_app_distr, app_assoc. reflexivity.
Qed.

Lemma reads_length (s s' : mstate) (w : str) :
  reads s w s' ->
  List.length (m_rest s) - List.length (m_rest s') = List.length w.
Proof. intros [H _]. rewrite H, length_app. lia. Qed.

Lemma reads_nil_eq (s s' : mstate) :
  reads s [] s' -> m_caps s' = m_caps s -> s' = s.
Proof.
  intros [H1 H2] H3. destruct s, s'. cbn in *. congruence.
Qed.

Lemma in_ms_Lit (p : str) (s s' : mstate) :
  In s' (ms (Lit p) s) <-> reads s p s' /\ m_caps s' = m_caps s.
Proof.
  revert s; induction p as [|c p IH]; intros s.
  - cbn [Lit ms]. split.
    + intros [<-|[]]. split; [apply reads_nil | reflexivity].
    + intros [H1 H2]. left. symmetry. apply reads_nil_eq; assumption.
  - cbn [Lit]. rewrite in_ms_Seq. split.
    + intros (s1 & H1 & H2). apply in_ms_Chr in H1 as (d & Hd & Hr & Hc).
      apply Ascii.eqb_eq in Hd. subst d. apply IH in H2 as [Hr2 Hc2].
      split; [exact (reads_app _ _ _ _ _ Hr Hr2) | congruence].
    + intros [[H1 H2] Hc].
      exists (MState (c :: m_prev s) (p ++ m_rest s') (m_caps s)). split.
      * apply in_ms_Chr. exists c. rewrite Ascii.eqb_refl.
        unfold reads. cbn. auto.
      * apply IH. unfold reads. cbn. split; [split|]; auto.
        rewrite H2. cbn. rewrite <- app_assoc. reflexivity.
Qed.

Lemma in_rep_chr (p : ascii -> bool) (g : bool) (s' : mstate) :
  forall bound n s, List.length (m_rest s) <= bound ->
  (In s' (rep_run (ms (Chr p)) g n bound s) <->
   exists w, reads s w s' /\ m_caps s' = m_caps s /\
     forallb p w = true /\ n <= List.length w).
Proof.
  induction bound as [|b IH]; intros n s Hb.
  - cbn [rep_run]. destruct (m_rest s) eqn:Er; [|cbn in Hb; lia].
    split.
    + destruct (Nat.eqb_spec n 0); [|intros []]. intros [<-|[]].
      exists []. subst n. repeat split; auto.
    + intros (w & Hr & Hc & Hw & Hn). destruct Hr as [H1 H2].
      rewrite Er in H1. destruct w; [|discriminate]. cbn in Hn.
      assert (n = 0) as -> by lia. left. symmetry.
      apply reads_nil_eq; [split; [rewrite Er|]|]; assumption.
  - cbn [rep_run].
    assert (Hstop : In s' (if n =? 0 then [s] else []) <->
                    (n = 0 /\ s' = s)).
    { destruct (Nat.eqb_spec n 0); cbn; [|tauto]. split.
      - intros [<-|[]]. auto. - intros [_ ->]. auto. }
    assert (Hmore :
      In s' (flat_map (fun s1 =>
               if List.length (m_rest s1) <? List.length (m_rest s)
               then rep_run (ms (Chr p)) g (pred n) b s1 else [])
             (ms (Chr p) s)) <->
      exists c w, p c = true /\ reads s (c :: w) s' /\ m_caps s' = m_caps s /\
        forallb p w = true /\ pred n <= List.length w).
    { rewrite in_flat_map. split.
      - intros (s1 & H1 & H2). apply in_ms_Chr in H1 as (c & Hc & Hr & Hcap).
        pose proof (reads_length _ _ _ Hr) as Hl. cbn in Hl.
        destruct (Nat.ltb_spec (List.length (m_rest s1)) (List.length (m_rest s)));
          [|destruct H2].
        apply IH in H2 as (w & Hr2 & Hc2 & Hw & Hn); [|lia].
        exists c, w. repeat split; auto; try congruence.
        + apply (reads_app _ _ _ _ _ Hr Hr2).
        + rewrite (proj2 Hr2), (proj2 Hr). cbn. rewrite <- app_assoc. reflexivity.
      - intros (c & w & Hc & [H1 H2] & Hcap & Hw & Hn).
        exists (MState (c :: m_prev s) (w ++ m_rest s') (m_caps s)). split.
        + apply in_ms_Chr. exists c. unfold reads. cbn. auto.
        + cbn [m_rest]. rewrite H1. cbn [List.length app].
          destruct (Nat.ltb_spec (List.length (w ++ m_rest s'))
                                 (S (List.length (w ++ m_rest s')))); [|lia].
          apply IH; [cbn; rewrite H1 in Hb; cbn in Hb; lia|].
          exists w. unfold reads. cbn. repeat split; auto.
          rewrite H2. cbn. rewrite <- app_assoc. reflexivity. }
    assert (Hboth :
      In s' (if g then
               flat_map (fun s1 =>
                 if List.length (m_rest s1) <? List.length (m_rest s)
                 then rep_run (ms (Chr p)) g (pred n) b s1 else [])
               (ms (Chr p) s) ++ (if n =? 0 then [s] else [])
             else (if n =? 0 then [s] else []) ++
               flat_map (fun s1 =>
                 if List.length (m_rest s1) <? List.length (m_rest s)
                 then rep_run (ms (Chr p)) g (pred n) b s1 else [])
               (ms (Chr p) s)) <->
      (n = 0 /\ s' = s) \/
      exists c w, p c = true /\ reads s (c :: w) s' /\ m_caps s' = m_caps s /\
        forallb p w = true /\ pred n <= List.length w).
    { destruct g; rewrite in_app_iff, Hstop, Hmore; tauto. }
    rewrite Hboth. split.
    + intros [[-> ->]|(c & w & Hc & Hr & Hcap & Hw & Hn)].
      * exists []. repeat split; auto.
      * exists (c :: w). cbn. rewrite Hc. repeat split; auto; try apply Hr. lia.
    + intros (w & Hr & Hcap & Hw & Hn). destruct w as [|c w].
      * left. cbn in Hn. split; [lia|]. apply reads_nil_eq; assumption.
      * right. cbn in Hw. apply andb_true_iff in Hw as [Hc Hw].
        exists c, w. cbn in Hn. repeat split; auto; try apply Hr. lia.
Qed.

Lemma in_ms_Rep_Chr (p : ascii -> bool) (g : bool) (n : nat) (s s' : mstate) :
  In s' (ms (Rep g n (Chr p)) s) <->
  exists w, reads s w s' /\ m_caps s' = m_caps s /\
    forallb p w = true /\ n <= List.length w.
Proof. cbn [ms]. apply in_rep_chr. apply le_n. Qed.

Lemma reads_mk (s : mstate) (w r : str) :
  m_rest s = w ++ r -> reads s w (MState (rev w ++ m_prev s) r (m_caps s)).
Proof. intros H. split; [exact H | reflexivity]. Qed.

Lemma ms_Seq_Lit_intro (p : str) (b : regex) (s s' : mstate) (r : str) :
  m_rest s = p ++ r ->
  In s' (ms b (MState (rev p ++ m_prev s) r (m_caps s))) ->
  In s' (ms (Seq (Lit p) b) s).
Proof.
  intros H1 H2. apply in_ms_Seq. eexists. split; [|exact H2].
  apply in_ms_Lit. split; [apply reads_mk; exact H1 | reflexivity].
Qed.

Lemma ms_Seq_Rep_intro (p : ascii -> bool) (g : bool) (n : nat) (b : regex)
    (s s' : mstate) (w r : str) :
  m_rest s = w ++ r -> forallb p w = true -> n <= List.length w ->
  In s' (ms b (MState (rev w ++ m_prev s) r (m_caps s))) ->
  In s' (ms (Seq (Rep g n (Chr p)) b) s).
Proof.
  intros H1 Hw Hn H2. apply in_ms_Seq. eexists. split; [|exact H2].
  apply in_ms_Rep_Chr. exists w. repeat split; auto.
Qed.

Lemma ms_Seq_Chr_intro (p : ascii -> bool) (b : regex) (s s' : mstate)
    (c : ascii) (r : str) :
  m_rest s = c :: r -> p c = true ->
  In s' (ms b (MState (c :: m_prev s) r (m_caps s))) ->
  In s' (ms (Seq (Chr p) b) s).
Proof.
  intros H1 Hc H2. apply in_ms_Seq. eexists. split; [|exact H2].
  apply in_ms_Chr. exists c. repeat split; auto.
Qed.

Ltac ms_inv :=
  repeat match goal with
    | H : In _ (ms (Seq _ _) _) |- _ =>
        let s := fresh "s" in let H1 := fresh "H" in
        apply in_ms_Seq in H as (s & H1 & H)
    | H : In _ (ms (Lit _) _) |- _ =>
        let Hr := fresh "Hr" in let Hc := fresh "Hc" in
        apply in_ms_Lit in H as (Hr & Hc)
    | H : In _ (ms (Rep _ _ (Chr _)) _) |- _ =>
        let w := fresh "w" in let Hr := fresh "Hr" in let Hc := fresh "Hc" in
        let Hw := fresh "Hw" in let Hn := fresh "Hn" in
        apply in_ms_Rep_Chr in H as (w & Hr & Hc & Hw & Hn)
    | H : In _ (ms (Chr _) _) |- _ =>
        let c := fresh "c" in let Hp := fresh "Hp" in
        let Hr := fresh "Hr" in let Hc := fresh "Hc" in
        apply in_ms_Chr in H as (c & Hp & Hr & Hc)
    end.

Ltac reads_chain :=
  repeat match goal with
    | H1 : reads ?a _ ?b, H2 : reads ?b _ ?c |- _ =>
        let H := fresh "Hrd" in
        pose proof (reads_app _ _ _ _ _ H1 H2) as H; clear H1 H2
    end.

(** *** What [hit] returns *)

Lemma hit_Some (r : regex) (prev rest : str) (n : nat) (caps : list (nat * str)) :
  hit r prev rest = Some (n, caps) ->
  exists s', In s' (ms r (MState prev rest [])) /\
    n = List.length rest - List.length (m_rest s') /\ n <> 0 /\ caps = m_caps s'.
Proof.
  unfold hit, found, match_here.
  destruct (ms r (MState prev rest [])) as [|s' l] eqn:E; cbn; [discriminate|].
  destruct (List.length rest - List.length (m_rest s')) eqn:En; [discriminate|].
  intros H. injection H as <- <-. exists s'.
  split; [left; reflexivity|]. rewrite En. repeat split; auto.
Qed.

Lemma hit_not_None (r : regex) (prev rest : str) (s0 : mstate) :
  In s0 (ms r (MState prev rest [])) ->
  (forall s', In s' (ms r (MState prev rest [])) ->
     List.length (m_rest s') < List.length rest) ->
  hit r prev rest <> None.
Proof.
  intros H0 Hall. unfold hit, found, match_here.
  destruct (ms r (MState prev rest [])) as [|s' l] eqn:E; [destruct H0|]. cbn.
  pose proof (Hall s' (or_introl eq_refl)) as Hlt.
  destruct (List.length rest - List.length (m_rest s')) eqn:En; [lia | discriminate].
Qed.

(** *** The pattern of [dbt_cfg_enable_table] *)

Lemma in_ms_enable (s s' : mstate) :
  In s' (ms enable_r s) -> exists u, enabled_false u /\ reads s u s'.
Proof.
  unfold enable_r, Blank. intros H. ms_inv.
  apply Ascii.eqb_eq in Hp. subst c. reads_chain.
  eexists. split; [|eassumption].
  eexists _, _. split; [reflexivity | auto].
Qed.

Lemma ms_enable_intro (u rest : str) (s : mstate) :
  enabled_false u -> m_rest s = u ++ rest -> exists s', In s' (ms enable_r s).
Proof.
  intros (b1 & b2 & -> & H1 & H2) Hs. eexists. unfold enable_r, Blank.
  rewrite <- !app_assoc in Hs.
  eapply ms_Seq_Lit_intro; [exact Hs|].
  eapply ms_Seq_Rep_intro; [reflexivity | exact H1 | apply Nat.le_0_l |].
  eapply ms_Seq_Chr_intro; [reflexivity | reflexivity |].
  eapply ms_Seq_Rep_intro; [reflexivity | exact H2 | apply Nat.le_0_l |].
  apply in_ms_Lit. split; [apply reads_mk; reflexivity | reflexivity].
Qed.

Lemma enabled_false_length (u : str) : enabled_false u -> 13 <= List.length u.
Proof.
  intros (b1 & b2 & -> & _). rewrite !length_app. cbn. lia.
Qed.

Lemma hit_enable_sound (prev rest : str) (n : nat) (caps : list (nat * str)) :
  hit enable_r prev rest = Some (n, caps) ->
  exists u rest', enabled_false u /\ rest = u ++ rest' /\ n = List.length u.
Proof.
  intros H. apply hit_Some in H as (s' & Hin & Hn & _).
  apply in_ms_enable in Hin as (u & Hu & Hr).
  exists u, (m_rest s'). split; [exact Hu|]. split; [apply Hr|].
  rewrite Hn. apply (reads_length _ _ _ Hr).
Qed.

Lemma hit_enable_complete (u prev rest : str) :
  enabled_false u -> hit enable_r prev (u ++ rest) <> None.
Proof.
  intros Hu.
  destruct (ms_enable_intro u rest (MState prev (u ++ rest) []) Hu eq_refl) as [s0 H0].
  eapply hit_not_None; [exact H0|]. intros s' Hs'.
  apply in_ms_enable in Hs' as (u' & Hu' & Hr).
  pose proof (reads_length _ _ _ Hr) as Hl. pose proof (enabled_false_length _ Hu').
  cbn [m_rest] in Hl |- *. lia.
Qed.

(** *** The pattern of [dbt_cfg_add_drop] *)

Lemma in_ms_post (s s' : mstate) :
  In s' (ms post_r s) ->
  exists u w, post_hook_open u /\ reads s (u ++ w) s'.
Proof.
  unfold post_r, Star, Space. intros H. ms_inv.
  apply Ascii.eqb_eq in Hp, Hp0. subst.
  cbn [ms] in H. apply in_map_iff in H as (sg & <- & H).
  apply in_rep_chr in H as (wg & Hrg & _); [|apply le_n].
  destruct Hrg as [Hg1 Hg2].
  match goal with
  | |- context [MState _ _ ((1, consumed ?a sg) :: _)] =>
      assert (Hg : reads a wg (MState (m_prev sg) (m_rest sg)
                                 ((1, consumed a sg) :: m_caps sg)))
        by (split; assumption)
  end.
  reads_chain.
  match goal with
  | H : reads s (_ ++ ?a ++ _ ++ ?b ++ _ ++ wg) _ |- _ =>
      exists (lit "post_hook" ++ a ++ lit "=" ++ b ++ lit "["), wg;
      split; [exists a, b; auto | rewrite <- !app_assoc; exact H]
  end.
Qed.

Lemma ms_post_intro (u rest : str) (s : mstate) :
  post_hook_open u -> m_rest s = u ++ rest -> exists s', In s' (ms post_r s).
Proof.
  intros (w1 & w2 & -> & H1 & H2) Hs. eexists. unfold post_r, Star, Space.
  rewrite <- !app_assoc in Hs.
  eapply ms_Seq_Lit_intro; [exact Hs|].
  eapply ms_Seq_Rep_intro; [reflexivity | exact H1 | apply Nat.le_0_l |].
  eapply ms_Seq_Chr_intro; [reflexivity | reflexivity |].
  eapply ms_Seq_Rep_intro; [reflexivity | exact H2 | apply Nat.le_0_l |].
  eapply ms_Seq_Chr_intro; [reflexivity | reflexivity |].
  cbn [ms]. apply in_map_iff. eexists. split; [reflexivity|].
  apply in_rep_chr; [apply le_n|]. exists []. repeat split; auto.
Qed.

Lemma post_hook_open_length (u : str) : post_hook_open u -> 11 <= List.length u.
Proof.
  intros (b1 & b2 & -> & _). rewrite !length_app. cbn. lia.
Qed.

Lemma hit_post_sound (prev rest : str) (n : nat) (caps : list (nat * str)) :
  hit post_r prev rest = Some (n, caps) ->
  exists u rest', post_hook_open u /\ rest = u ++ rest'.
Proof.
  intros H. apply hit_Some in H as (s' & Hin & Hn & _).
  apply in_ms_post in Hin as (u & w & Hu & Hr).
  exists u, (w ++ m_rest s'). split; [exact Hu|].
  rewrite app_assoc. apply Hr.
Qed.

Lemma hit_post_complete (u prev rest : str) :
  post_hook_open u -> hit post_r prev (u ++ rest) <> None.
Proof.
  intros Hu.
  destruct (ms_post_intro u rest (MState prev (u ++ rest) []) Hu eq_refl) as [s0 H0].
  eapply hit_not_None; [exact H0|]. intros s' Hs'.
  apply in_ms_post in Hs' as (u' & w & Hu' & Hr).
  pose proof (reads_length _ _ _ Hr) as Hl. pose proof (post_hook_open_length _ Hu').
  cbn [m_rest] in Hl. rewrite (length_app u' w) in Hl. lia.
Qed.

(** *** The pattern of [re_expr] *)

Lemma app_inj_length {A : Type} (a b c d : list A) :
  a ++ b = c ++ d -> List.length a = List.length c -> a = c /\ b = d.
Proof.
  revert c; induction a as [|x a IH]; intros [|y c] H Hl; cbn in *; try lia.
  - auto.
  - injection H as -> H. destruct (IH c H ltac:(lia)) as [-> ->]. auto.
Qed.

Lemma in_ms_lookbehind_kw (s s' : mstate) :
  In s' (ms lookbehind_kw s) ->
  (exists kw p0, keyword kw /\ m_prev s = rev kw ++ p0) /\
  m_rest s' = m_rest s /\ m_prev s' = m_prev s.
Proof.
  unfold lookbehind_kw. cbn [ms].
  destruct (List.length (m_prev s) <? 4) eqn:El; [intros []|].
  apply Nat.ltb_ge in El.
  match goal with
  | |- In _ (match ?l with _ => _ end) -> _ => destruct l as [|s1 l1] eqn:Ef
  end; [intros []|].
  intros [<-|[]]. split; [|split; reflexivity].
  assert (H : In s1 (s1 :: l1)) by (left; reflexivity).
  rewrite <- Ef in H. apply filter_In in H as [H1 H2].
  apply in_map_iff in H1 as (s2 & <- & H1). cbn [m_rest] in H2.
  apply Nat.eqb_eq in H2.
  assert (Hk : exists kw, keyword kw /\ reads
             (MState (skipn 4 (m_prev s)) (rev (firstn 4 (m_prev s)) ++ m_rest s) (m_caps s))
             kw s2).
  { apply in_app_iff in H1 as [H1|H1]; apply in_ms_Lit in H1 as [H1 _];
      eexists; (split; [|exact H1]); [left|right]; reflexivity. }
  destruct Hk as (kw & Hkw & [Hr _]). cbn [m_rest] in Hr.
  assert (Hlen : List.length kw = 4) by (destruct Hkw as [->| ->]; reflexivity).
  apply app_inj_length in Hr as [Hr _].
  - exists kw, (skipn 4 (m_prev s)). split; [exact Hkw|].
    rewrite <- Hr, rev_involutive, firstn_skipn. reflexivity.
  - rewrite length_rev, length_firstn, Hlen. lia.
Qed.

Lemma ms_lookbehind_kw_intro (s : mstate) (kw p0 : str) :
  keyword kw -> m_prev s = rev kw ++ p0 ->
  exists caps, In (MState (m_prev s) (m_rest s) caps) (ms lookbehind_kw s).
Proof.
  destruct s as [prev rest caps]. cbn [m_prev m_rest]. intros Hkw ->.
  destruct Hkw as [->| ->]; cbn; rewrite Nat.eqb_refl; eexists; left; reflexivity.
Qed.

Lemma in_ms_re_expr (name : str) (s s' : mstate) :
  In s' (ms (re_expr_of name) s) ->
  exists kw p0 w, keyword kw /\ m_prev s = rev kw ++ p0 /\
    w <> [] /\ spaces w = true /\ m_rest s = (w ++ name) ++ m_rest s'.
Proof.
  unfold re_expr_of, Space. intros H.
  apply in_ms_Seq in H as (s1 & H1 & H).
  apply in_ms_lookbehind_kw in H1 as ((kw & p0 & Hkw & Hp) & Hr1 & _).
  ms_inv. reads_chain.
  exists kw, p0, w. repeat split; auto.
  - intros ->. cbn in Hn. lia.
  - rewrite <- Hr1. apply Hrd.
Qed.

Lemma ms_re_expr_intro (name kw p0 w rest : str) (s : mstate) :
  keyword kw -> m_prev s = rev kw ++ p0 -> w <> [] -> spaces w = true ->
  m_rest s = w ++ name ++ rest -> exists s', In s' (ms (re_expr_of name) s).
Proof.
  intros Hkw Hp Hw Hs Hr.
  destruct (ms_lookbehind_kw_intro s kw p0 Hkw Hp) as [caps H1].
  eexists. unfold re_expr_of, Space.
  apply in_ms_Seq. eexists. split; [exact H1|].
  eapply ms_Seq_Rep_intro; [exact Hr | exact Hs | |].
  - destruct w; [congruence | cbn; lia].
  - apply in_ms_Lit. split; [apply reads_mk; reflexivity | reflexivity].
Qed.

Lemma hit_ref_sound (name prev rest : str) (n : nat) (caps : list (nat * str)) :
  hit (re_expr_of name) prev rest = Some (n, caps) ->
  exists kw p0 w rest', keyword kw /\ prev = rev kw ++ p0 /\
    w <> [] /\ spaces w = true /\ rest = (w ++ name) ++ rest' /\
    n = List.length (w ++ name).
Proof.
  intros H. apply hit_Some in H as (s' & Hin & Hn & _).
  apply in_ms_re_expr in Hin as (kw & p0 & w & Hkw & Hp & Hw & Hs & Hr).
  cbn [m_prev m_rest] in *.
  exists kw, p0, w, (m_rest s'). repeat split; auto.
  rewrite Hn, Hr, length_app. lia.
Qed.

Lemma hit_ref_complete (name kw p0 w rest : str) :
  keyword kw -> w <> [] -> spaces w = true ->
  hit (re_expr_of name) (rev kw ++ p0) (w ++ name ++ rest) <> None.
Proof.
  intros Hkw Hw Hs.
  destruct (ms_re_expr_intro name kw p0 w rest
              (MState (rev kw ++ p0) (w ++ name ++ rest) []) Hkw eq_refl Hw Hs eq_refl)
    as [s0 H0].
  eapply hit_not_None; [exact H0|]. intros s' Hs'.
  apply in_ms_re_expr in Hs' as (kw' & p' & w' & _ & _ & Hw' & _ & Hr).
  cbn [m_rest] in *. rewrite Hr, !length_app.
  destruct w'; [congruence | cbn; lia].
Qed.

(** ** Occurrences *)

Lemma occ_length (u t : str) : occ u t -> List.length u <= List.length t.
Proof. intros (a & b & ->). rewrite !length_app. lia. Qed.

Lemma occ_app_l (u x y : str) : occ u x -> occ u (x ++ y).
Proof.
  intros (a & b & ->). exists a, (b ++ y). rewrite <- !app_assoc. reflexivity.
Qed.

Lemma occ_app_r (u x y : str) : occ u y -> occ u (x ++ y).
Proof.
  intros (a & b & ->). exists (x ++ a), b. rewrite <- !app_assoc. reflexivity.
Qed.

(** An occurrence in [x ++ y] lies in [x], lies in [y], or ends in [x] and
    starts in [y]. *)
Lemma occ_app (u x y : str) :
  occ u (x ++ y) ->
  occ u x \/ occ u y \/
  exists u1 u2 x' y', u = u1 ++ u2 /\ u1 <> [] /\ u2 <> [] /\
    x = x' ++ u1 /\ y = u2 ++ y'.
Proof.
  intros (a & b & H). apply app_eq_app in H as [l [[-> H]|[-> ->]]].
  - apply app_eq_app in H as [l' [[-> ->]|[-> ->]]].
    + destruct l as [|c l].
      * right. left. exists [], b. reflexivity.
      * destruct l' as [|c' l'].
        -- left. exists a, []. rewrite !app_nil_r. reflexivity.
        -- right. right. exists (c :: l), (c' :: l'), a, b.
           repeat split; auto; discriminate.
    + left. exists a, l'. rewrite <- ?app_assoc. reflexivity.
  - right. left. exists l, b. rewrite <- ?app_assoc. reflexivity.
Qed.

Lemma occ_sep (u x y : str) (c : ascii) :
  ~ In c u -> occ u (x ++ c :: y) -> occ u x \/ occ u y.
Proof.
  intros Hc H. apply occ_app in H as [H|[H|(u1 & u2 & x' & y' & -> & H1 & H2 & -> & Hy)]].
  - auto.
  - destruct H as (a & b & H). destruct a as [|d a].
    + destruct u as [|d u].
      * left. exists [], x. reflexivity.
      * exfalso. apply Hc. cbn in H. injection H as -> _. left. reflexivity.
    + cbn in H. injection H as -> ->. right. exists a, b. reflexivity.
  - exfalso. apply Hc. destruct u2 as [|d u2]; [congruence|].
    cbn in Hy. injection Hy as -> _. apply in_or_app. right. left. reflexivity.
Qed.

(** ** The scan *)

Lemma hit_le (r : regex) (prev rest : str) (n : nat) (caps : list (nat * str)) :
  hit r prev rest = Some (n, caps) -> 0 < n <= List.length rest.
Proof.
  intros H. apply hit_Some in H as (s' & _ & -> & Hn & _). lia.
Qed.

Lemma scan_skip (r : regex) (w : str) : forall prev rest,
  scan r (List.length w) prev (w ++ rest) = scan r 0 (rev w ++ prev) rest.
Proof.
  induction w as [|x w IH]; intros prev rest; [reflexivity|].
  cbn [List.length app scan]. rewrite IH. cbn [rev].
  rewrite <- app_assoc. reflexivity.
Qed.

Lemma scan_hit (r : regex) (prev rest : str) (n : nat) (caps : list (nat * str)) :
  hit r prev rest = Some (n, caps) ->
  scan r 0 prev rest =
  PMatch (firstn n rest) caps :: scan r 0 (rev (firstn n rest) ++ prev) (skipn n rest).
Proof.
  intros H. pose proof (hit_le _ _ _ _ _ H) as Hn. unfold hit in H.
  destruct rest as [|x rest]; [cbn in Hn; lia|]. cbn [scan].
  destruct (found r prev (x :: rest)) as [[[|k] caps']|]; try discriminate.
  injection H as <- <-. f_equal. cbn [List.length] in Hn.
  rewrite <- (firstn_skipn k rest) at 1.
  rewrite <- (firstn_length_le rest (n := k)) at 1 by lia.
  rewrite scan_skip. cbn [firstn skipn rev]. rewrite <- app_assoc. reflexivity.
Qed.

Lemma scan_miss (r : regex) (prev rest : str) (x : ascii) :
  hit r prev (x :: rest) = None ->
  scan r 0 prev (x :: rest) = PChar x :: scan r 0 (x :: prev) rest.
Proof.
  unfold hit. cbn [scan].
  destruct (found r prev (x :: rest)) as [[[|k] caps']|]; try discriminate; reflexivity.
Qed.

(** The scan up to its first match: either no position of the text starts
    a match, or the text is a part [c] in which none does, a match [M] and
    a remainder that is scanned in turn. *)
Lemma scan_first (r : regex) (rest : str) : forall prev,
  (quiet r prev rest [] /\ scan r 0 prev rest = map PChar rest) \/
  (exists c M caps rest', rest = c ++ M ++ rest' /\ M <> [] /\
     quiet r prev c (M ++ rest') /\
     hit r (rev c ++ prev) (M ++ rest') = Some (List.length M, caps) /\
     scan r 0 prev rest =
     map PChar c ++ PMatch M caps :: scan r 0 (rev M ++ rev c ++ prev) rest').
Proof.
  induction rest as [|x rest IH]; intros prev.
  - left. split; [|reflexivity]. intros c1 c2 H Hc.
    apply eq_sym, app_eq_nil in H as [_ ->]. congruence.
  - destruct (hit r prev (x :: rest)) as [[n caps]|] eqn:Eh.
    + right. pose proof (hit_le _ _ _ _ _ Eh) as Hn.
      exists [], (firstn n (x :: rest)), caps, (skipn n (x :: rest)).
      rewrite firstn_skipn. cbn [app rev map]. repeat split.
      * destruct n; [lia | discriminate].
      * intros c1 c2 H Hc. apply eq_sym, app_eq_nil in H as [_ ->]. congruence.
      * rewrite length_firstn, Nat.min_l by lia. exact Eh.
      * apply scan_hit. exact Eh.
    + rewrite scan_miss by exact Eh.
      destruct (IH (x :: prev)) as [[Hq Hs]|(c & M & caps & rest' & -> & HM & Hq & Hh & Hs)].
      * left. split; [|rewrite Hs; reflexivity].
        intros c1 c2 H Hc. destruct c1 as [|y c1].
        -- cbn in H. subst c2. rewrite app_nil_r. exact Eh.
        -- cbn in H. injection H as <- ->. cbn [rev]. rewrite <- app_assoc.
           apply Hq; auto.
      * right. exists (x :: c), M, caps, rest'. repeat split; auto.
        -- intros c1 c2 H Hc. destruct c1 as [|y c1].
           ++ cbn in H. subst c2. exact Eh.
           ++ cbn in H. injection H as <- ->. cbn [rev]. rewrite <- app_assoc.
              apply Hq; auto.
        -- cbn [rev]. rewrite <- app_assoc. exact Hh.
        -- rewrite Hs. cbn [rev map app]. rewrite <- !app_assoc. reflexivity.
Qed.

Lemma render_chars (repl c : str) : flat_map (render repl) (map PChar c) = c.
Proof. induction c as [|x c IH]; cbn; [|rewrite IH]; reflexivity. Qed.

Lemma sub_from_first (r : regex) (repl rest prev : str) :
  (quiet r prev rest [] /\ sub_from r repl prev rest = rest) \/
  (exists c M caps rest', rest = c ++ M ++ rest' /\ M <> [] /\
     quiet r prev c (M ++ rest') /\
     hit r (rev c ++ prev) (M ++ rest') = Some (List.length M, caps) /\
     sub_from r repl prev rest =
     c ++ repl ++ sub_from r repl (rev M ++ rev c ++ prev) rest').
Proof.
  unfold sub_from.
  destruct (scan_first r rest prev) as [[Hq Hs]|(c & M & caps & rest' & E & HM & Hq & Hh & Hs)].
  - left. split; [exact Hq|]. rewrite Hs. apply render_chars.
  - right. exists c, M, caps, rest'. repeat split; auto.
    rewrite Hs, flat_map_app, render_chars. reflexivity.
Qed.

Lemma first_match_chars (c : str) (ps : list piece) :
  first_match (map PChar c ++ ps) = first_match ps.
Proof. induction c as [|x c IH]; cbn; auto. Qed.

(** [search] finds nothing exactly when no position starts a match. *)
Lemma re_search_None (r : regex) (text : str) :
  re_search r text = None <-> quiet r [] text [].
Proof.
  unfold re_search, pieces.
  destruct (scan_first r text []) as [[Hq Hs]|(c & M & caps & rest' & E & HM & Hq & Hh & Hs)];
    rewrite Hs.
  - rewrite <- (app_nil_r (map PChar text)), first_match_chars. tauto.
  - rewrite first_match_chars. cbn. split; [discriminate|].
    intros Hq'. exfalso.
    specialize (Hq' c (M ++ rest')). rewrite !app_nil_r in *.
    rewrite Hq' in Hh; [discriminate | exact E |].
    destruct M; [congruence | discriminate].
Qed.

(** Occurrences that cannot overlap the replacement come from the text,
    from a place where no match starts. *)
Lemma sub_from_occ (r : regex) (repl u : str) :
  (forall x y, occ u (x ++ repl ++ y) -> occ u x \/ occ u y) ->
  forall n rest prev, List.length rest <= n ->
  occ u (sub_from r repl prev rest) ->
  exists a b, rest = a ++ u ++ b /\
    forall u1 u2, u = u1 ++ u2 -> u2 <> [] ->
      hit r (rev (a ++ u1) ++ prev) (u2 ++ b) = None.
Proof.
  intros Hsep. induction n as [|n IH]; intros rest prev Hlen Hocc.
  - destruct rest; [|cbn in Hlen; lia]. cbn in Hocc.
    destruct Hocc as (a & b & H). symmetry in H.
    apply app_eq_nil in H as [-> H]. apply app_eq_nil in H as [-> ->].
    exists [], []. split; [reflexivity|]. intros u1 u2 H Hu.
    apply eq_sym, app_eq_nil in H as [_ ->]. congruence.
  - destruct (sub_from_first r repl rest prev)
      as [[Hq Hs]|(c & M & caps & rest' & E & HM & Hq & Hh & Hs)];
      rewrite Hs in Hocc.
    + destruct Hocc as (a & b & E). exists a, b. split; [exact E|].
      intros u1 u2 Hu Hu2. specialize (Hq (a ++ u1) (u2 ++ b)).
      rewrite app_nil_r in Hq. apply Hq; [|destruct u2; [congruence | discriminate]].
      rewrite E, Hu, <- !app_assoc. reflexivity.
    + apply Hsep in Hocc as [(a & b & Ec)|Hocc].
      * exists a, (b ++ M ++ rest'). split.
        -- rewrite E, Ec, <- !app_assoc. reflexivity.
        -- intros u1 u2 Hu Hu2. specialize (Hq (a ++ u1) (u2 ++ b)).
           rewrite app_assoc. apply Hq; [|destruct u2; [congruence | discriminate]].
           rewrite Ec, Hu, <- !app_assoc. reflexivity.
      * apply IH in Hocc as (a & b & Er & Hq').
        -- exists (c ++ M ++ a), b. split.
           ++ rewrite E, Er, <- !app_assoc. reflexivity.
           ++ intros u1 u2 Hu Hu2. specialize (Hq' u1 u2 Hu Hu2).
              rewrite <- Hq'. f_equal.
              rewrite !rev_app_distr, <- !app_assoc. reflexivity.
        -- subst rest. rewrite !length_app in Hlen.
           destruct M; [congruence | cbn in Hlen; lia].
Qed.

(** ** Claims about the Config Transformer *)

Lemma spaces_In (w : str) (c : ascii) :
  spaces w = true -> In c w -> is_space c = true.
Proof. unfold spaces. rewrite forallb_forall. auto. Qed.

Lemma post_hook_open_chars (u : str) (c : ascii) :
  post_hook_open u -> In c u ->
  In c (lit "post_hook=[") \/ is_space c = true.
Proof.
  intros (w1 & w2 & -> & H1 & H2) H.
  repeat (apply in_app_or in H as [H|H]);
    try (right; exact (spaces_In w1 c H1 H));
    try (right; exact (spaces_In w2 c H2 H));
    left; cbn in *; tauto.
Qed.

Lemma post_hook_open_sep (u x y : str) :
  post_hook_open u ->
  occ u (x ++ lit "enabled = true" ++ y) -> occ u x \/ occ u y.
Proof.
  intros Hu H.
  assert (He : ~ In "e"%char u).
  { intros Hin. destruct (post_hook_open_chars _ _ Hu Hin) as [Hc|Hc];
      [cbn in Hc; intuition discriminate | discriminate]. }
  pose proof (post_hook_open_length _ Hu) as Hl.
  apply (occ_sep _ _ _ _ He) in H as [H|H]; [auto|].
  change (occ u (lit "nabl" ++ "e"%char :: lit "d = tru" ++ "e"%char :: y)) in H.
  apply (occ_sep _ _ _ _ He) in H as [H|H]; [apply occ_length in H; cbn in H; lia|].
  change (occ u (lit "d = tru" ++ "e"%char :: y)) in H.
  apply (occ_sep _ _ _ _ He) in H as [H|H]; [apply occ_length in H; cbn in H; lia|].
  auto.
Qed.

(** The pattern of [dbt_cfg_add_drop] is found exactly in the texts that
    hold the opening of a hook list. *)
Lemma re_search_post_None (text : str) :
  re_search post_r text = None <-> (forall u, post_hook_open u -> ~ occ u text).
Proof.
  rewrite re_search_None. split.
  - intros Hq u Hu (a & b & E).
    apply (hit_post_complete u (rev a ++ []) (b ++ [])); [exact Hu|].
    rewrite app_assoc. apply Hq.
    + rewrite E. reflexivity.
    + pose proof (post_hook_open_length _ Hu). destruct u; [cbn in *; lia | discriminate].
  - intros H c1 c2 -> Hc.
    destruct (hit post_r (rev c1 ++ []) (c2 ++ [])) as [[n caps]|] eqn:Eh; [|reflexivity].
    apply hit_post_sound in Eh as (u & rest' & Hu & E). exfalso.
    apply (H u Hu). rewrite app_nil_r in E. rewrite E.
    exists c1, rest'. reflexivity.
Qed.

Lemma re_sub_sub_from (r : regex) (repl text : str) :
  re_sub r repl text = sub_from r repl [] text.
Proof. reflexivity. Qed.

(** The Enable operation brings no hook list into a text. *)
Lemma enable_no_post_hook (dbt_config : str) :
  (forall u, post_hook_open u -> ~ occ u dbt_config) ->
  forall u, post_hook_open u -> ~ occ u (dbt_cfg_enable_table dbt_config).
Proof.
  intros H u Hu Hocc. unfold dbt_cfg_enable_table in Hocc.
  destruct (re_search enable_r dbt_config); [|exact (H u Hu Hocc)].
  rewrite re_sub_sub_from in Hocc.
  apply (sub_from_occ enable_r (lit "enabled = true") u) with (n := List.length dbt_config)
    in Hocc as (a & b & E & _).
  - apply (H u Hu). exists a, b. exact E.
  - intros x y. apply post_hook_open_sep. exact Hu.
  - apply le_n.
Qed.

(** C8. When the cleaning of intermediate tables is asked for and the
    configuration holds no opening of a hook list ([post_hook], [=] and an
    opening bracket, whitespace allowed in between), a job with at least
    one entity ends with the exception that names the missing [post_hook],
    and no file has been written.  The references hold no backslash: the
    [sub] of the inner loop, which runs first, then takes them as they
    are. *)
Theorem missing_post_hook_is_fatal (scripts : list SmallScript) (dbt_config : str) :
  Forall (fun scr => ~ In backslash (new_reference scr)) scripts ->
  scripts <> [] ->
  (forall u, post_hook_open u -> ~ occ u dbt_config) ->
  exists st,
    create_new_script_files scripts true dbt_config =
      (st, Some (Exception post_hook_missing)) /\
    st_files st = [].
Proof.
  intros _ Hne Hno. unfold create_new_script_files.
  destruct scripts as [|scr scripts]; [congruence|].
  cbn [List.length seq write_all]. unfold write_one.
  cbn [st_scripts getitem nth_error bind st_config].
  unfold dbt_cfg_add_drop.
  rewrite (proj2 (re_search_post_None _) (enable_no_post_hook _ Hno)).
  cbn [bind]. eexists. split; reflexivity.
Qed.

Lemma missing_post_hook_is_fatal_witness :
  exists st,
    create_new_script_files
      [mkSmallScript (py "select 1\nfrom t\n") (Some (lit "big")) (lit "out")
         false (py " {{ ref(\qout\q) }}") (re_expr_of (lit "big"))]
      true (py "{{ config(enabled = false) }}") =
      (st, Some (Exception post_hook_missing)) /\
    st_files st = [].
Proof.
  apply missing_post_hook_is_fatal; [| discriminate |].
  - repeat constructor; vm_compute;
      intros H; repeat (destruct H as [H|H]; [discriminate H|]); exact H.
  - apply re_search_post_None. vm_compute. reflexivity.
Defined.

(** ** Claims about the match rule and the Reference Rewriter *)

Lemma SmallScript_init_fields (old_script base_script final_script : str)
    (e : SmallScript) :
  SmallScript_init old_script base_script final_script = Ok e ->
  re_expr e = re_expr_of (fmt (old_name e)) /\
  new_reference e = ref_of (new_name e).
Proof.
  unfold SmallScript_init.
  destruct (clean_query old_script) as [cs|]; [|discriminate]. cbn [bind].
  destruct (partition_nl cs) as [fl ol].
  destruct (getitem _ 0) as [fw|]; [|discriminate]. cbn [bind].
  match goal with
  | |- bind ?x _ = _ -> _ => destruct x as [[[[c o] n] i]|]; [|discriminate]
  end.
  cbn [bind]. intros H. injection H as <-. split; reflexivity.
Qed.


Lemma entity_a_built :
  SmallScript_init block_a (lit "big") (lit "out") = Ok entity_a.
Proof. vm_compute. reflexivity. Qed.


(** The rule does not look at what follows the name, so the rule of the
    entity [a] matches inside [from ab], and [sub] rewrites the first letter
    of the longer name. *)
Lemma match_rule_inside_identifier :
  old_name entity_a = Some (lit "a") /\
  re_search (re_expr entity_a) (lit "select * from ab") =
    Some (lit " a", [(1, lit "from")]) /\
  re_sub (re_expr entity_a) (new_reference entity_a) (lit "select * from ab") =
    py "select * from {{ ref(\qout_a\q) }}b".
Proof. repeat split; vm_compute; reflexivity. Qed.

(** C1. The match rule has no boundary after the name, so it does not tell
    a reference to a table from the beginning of a longer name.  In a job
    with the CTEs [orders] and [orders_agg] the rule of [orders] matches
    inside [from orders_agg]: the final file reads the table
    [{{ ref("out_orders") }}_agg], which no file of the job defines, where
    the specification promises that only whole names are rewritten (and
    the comment above the loop, that tables are replaced by their [ref]). *)
Theorem reference_rewritten_inside_longer_name :
  let '(st, e) :=
    split_script_into_files orders_source (lit "big") (lit "out") false in
  e = None /\
  st_files st =
    [(lit "out_orders.sql", py " select 1\n from t\n");
     (lit "out_orders_agg.sql", py " select *\n from {{ ref(\qout_orders\q) }}\n");
     (lit "out.sql",
      py "{{ config() }}\nselect *\nfrom {{ ref(\qout_orders\q) }}_agg\n")].
Proof. vm_compute. split; reflexivity. Qed.

Lemma occ_snoc_ne (u x : str) (c : ascii) :
  (exists u0 z, u = u0 ++ [z] /\ z <> c) -> occ u (x ++ [c]) -> occ u x.
Proof.
  intros (u0 & z & -> & Hz) H.
  apply occ_app in H as [H|[H|(u1 & u2 & x' & y' & Hu & H1 & H2 & -> & Hy)]].
  - exact H.
  - exfalso. destruct H as (a & b & H).
    apply (f_equal (@List.length ascii)) in H as Hl.
    rewrite !length_app in Hl. cbn in Hl.
    destruct a; [|cbn in Hl; lia]. destruct u0; [|cbn in Hl; lia].
    cbn in H. injection H as -> _. congruence.
  - exfalso. destruct u2 as [|d u2]; [congruence|].
    cbn in Hy. injection Hy as <- Hy. symmetry in Hy.
    apply app_eq_nil in Hy as [-> ->].
    apply app_inj_tail in Hu as [_ Hu]. congruence.
Qed.

Lemma ident_In (w : str) (c : ascii) :
  ident w = true -> In c w -> ident_char c = true.
Proof. unfold ident. rewrite forallb_forall. auto. Qed.

Lemma table_ref_chars (name u : str) (c : ascii) :
  table_ref name u -> ident name = true -> In c u ->
  is_space c = true \/ ident_char c = true.
Proof.
  intros (kw & w & -> & Hkw & _ & Hs) Hi H.
  apply in_app_or in H as [H|H]; [|apply in_app_or in H as [H|H]].
  - right. destruct Hkw as [-> | ->]; cbn in H;
      repeat (destruct H as [<-|H]; [reflexivity|]); destruct H.
  - left. exact (spaces_In _ _ Hs H).
  - right. exact (ident_In _ _ Hi H).
Qed.

Lemma table_ref_length (name u : str) :
  table_ref name u -> name <> [] -> 6 <= List.length u.
Proof.
  intros (kw & w & -> & Hkw & Hw & _) Hn. rewrite !length_app.
  destruct Hkw as [-> | ->]; destruct w, name; cbn; try congruence; lia.
Qed.

Lemma table_ref_last (name u : str) (c : ascii) :
  table_ref name u -> ident name = true -> name <> [] -> is_space c = true ->
  exists u0 z, u = u0 ++ [z] /\ z <> c.
Proof.
  intros (kw & w & -> & _) Hi Hn Hc.
  destruct (exists_last Hn) as (n0 & z & ->).
  exists (kw ++ w ++ n0), z. split; [rewrite <- !app_assoc; reflexivity|].
  intros ->. assert (ident_char c = true).
  { apply (ident_In _ _ Hi). apply in_or_app. right. left. reflexivity. }
  destruct c as [[] [] [] [] [] [] [] []]; discriminate.
Qed.

Lemma table_ref_not_ident (name u N : str) :
  table_ref name u -> ident N = true -> ~ occ u N.
Proof.
  intros (kw & w & -> & _ & Hw & Hs) Hi (a & b & ->).
  destruct w as [|c w]; [congruence|].
  assert (H1 : is_space c = true) by (apply (spaces_In _ _ Hs); left; reflexivity).
  assert (H2 : ident_char c = true).
  { apply (ident_In _ _ Hi). apply in_or_app. right. apply in_or_app. left.
    apply in_or_app. right. left. reflexivity. }
  destruct c as [[] [] [] [] [] [] [] []]; discriminate.
Qed.

(** A table reference cannot overlap the reference that [sub] writes. *)
Lemma table_ref_sep (name u N x y : str) :
  table_ref name u -> ident name = true -> name <> [] -> ident N = true ->
  occ u (x ++ ref_of N ++ y) -> occ u x \/ occ u y.
Proof.
  intros Hu Hi Hn HN H.
  assert (Hc : forall c, is_space c = false -> ident_char c = false -> ~ In c u).
  { intros c H1 H2 Hin. destruct (table_ref_chars _ _ _ Hu Hi Hin); congruence. }
  pose proof (table_ref_length _ _ Hu Hn) as Hl.
  assert (Hshort : forall t, List.length t < 6 -> ~ occ u t).
  { intros t Ht Ho. apply occ_length in Ho. lia. }
  unfold ref_of in H. rewrite <- !app_assoc in H.
  change (occ u (x ++ [" "%char] ++ "{"%char :: [] ++ "{"%char ::
            lit " ref" ++ "("%char :: [] ++ dquote ::
            N ++ dquote :: [] ++ ")"%char :: lit " " ++ "}"%char ::
            [] ++ "}"%char :: y)) in H.
  rewrite app_assoc in H.
  apply occ_sep in H as [H|H]; [| |apply Hc; reflexivity].
  { left. eapply occ_snoc_ne; [|exact H].
    apply (table_ref_last _ _ _ Hu Hi Hn). reflexivity. }
  apply occ_sep in H as [H|H]; [| |apply Hc; reflexivity].
  { exfalso. apply (Hshort [] ltac:(cbn; lia) H). }
  apply occ_sep in H as [H|H]; [| |apply Hc; reflexivity].
  { exfalso. apply (Hshort (lit " ref") ltac:(cbn; lia) H). }
  apply occ_sep in H as [H|H]; [| |apply Hc; reflexivity].
  { exfalso. apply (Hshort [] ltac:(cbn; lia) H). }
  apply occ_sep in H as [H|H]; [| |apply Hc; reflexivity].
  { exfalso. exact (table_ref_not_ident _ _ _ Hu HN H). }
  apply occ_sep in H as [H|H]; [| |apply Hc; reflexivity].
  { exfalso. apply (Hshort [] ltac:(cbn; lia) H). }
  apply occ_sep in H as [H|H]; [| |apply Hc; reflexivity].
  { exfalso. apply (Hshort (lit " ") ltac:(cbn; lia) H). }
  apply occ_sep in H as [H|H]; [| |apply Hc; reflexivity].
  { exfalso. apply (Hshort [] ltac:(cbn; lia) H). }
  right. exact H.
Qed.

(** One [sub] brings no table reference into a text, and leaves none of the
    references that it looks for. *)
Lemma sub_ref_keeps (name dname N text : str) :
  ident name = true -> name <> [] -> ident N = true ->
  raw_ref name (re_sub (re_expr_of dname) (ref_of N) text) -> raw_ref name text.
Proof.
  intros Hi Hn HN (u & Hu & Ho). exists u. split; [exact Hu|].
  rewrite re_sub_sub_from in Ho.
  apply (sub_from_occ _ _ u) with (n := List.length text) in Ho as (a & b & E & _).
  - exists a, b. exact E.
  - intros x y. apply (table_ref_sep name); assumption.
  - apply le_n.
Qed.

Lemma sub_ref_clears (name N text : str) :
  ident name = true -> name <> [] -> ident N = true ->
  ~ raw_ref name (re_sub (re_expr_of name) (ref_of N) text).
Proof.
  intros Hi Hn HN (u & Hu & Ho).
  rewrite re_sub_sub_from in Ho.
  apply (sub_from_occ _ _ u) with (n := List.length text) in Ho as (a & b & E & Hq).
  - destruct Hu as (kw & w & -> & Hkw & Hw & Hs).
    specialize (Hq kw (w ++ name) eq_refl).
    rewrite rev_app_distr, <- !app_assoc in Hq.
    apply (hit_ref_complete name kw (rev a ++ []) w b Hkw Hw Hs).
    apply Hq. destruct w; [congruence | discriminate].
  - intros x y. apply (table_ref_sep name); assumption.
  - apply le_n.
Qed.

Lemma rewrite_refs_keeps (name : str) (scripts : list SmallScript) :
  ident name = true -> name <> [] ->
  Forall (fun d => re_expr d = re_expr_of (fmt (old_name d)) /\
                   new_reference d = ref_of (new_name d) /\
                   ident (new_name d) = true) scripts ->
  forall text, ~ raw_ref name text -> ~ raw_ref name (rewrite_refs scripts text).
Proof.
  intros Hi Hn Hall. unfold rewrite_refs.
  induction Hall as [|d scripts (Hre & Hnr & Hd) _ IH]; intros text Ht; [exact Ht|].
  cbn [fold_left]. apply IH. rewrite Hre, Hnr. intros H. apply Ht.
  eapply sub_ref_keeps; eassumption.
Qed.

(** C2, as the code has it.  In a job whose entities all have identifiers
    as names, the pass of the rewriter over the content of an entity leaves
    no old name of an entity of the job after [from] or [join] and
    whitespace. *)
Theorem rewritten_content_has_no_raw_reference
    (base_script final_script : str) (scripts : list SmallScript)
    (E C : SmallScript) :
  Forall (built base_script final_script) scripts ->
  Forall plain_names scripts ->
  In E scripts -> In C scripts ->
  ~ raw_ref (fmt (old_name C)) (rewrite_refs scripts (content E)).
Proof.
  intros Hb Hp _ HC. generalize (content E) as text.
  assert (Hall : Forall (fun d => re_expr d = re_expr_of (fmt (old_name d)) /\
                   new_reference d = ref_of (new_name d) /\
                   ident (new_name d) = true) scripts).
  { rewrite Forall_forall in *. intros d Hd.
    destruct (Hb d Hd) as [blk Hblk].
    apply SmallScript_init_fields in Hblk as [H1 H2].
    destruct (Hp d Hd) as (_ & _ & H3). auto. }
  assert (HpC : plain_names C) by (rewrite Forall_forall in Hp; auto).
  destruct HpC as (Hi & Hn & _).
  clear Hb Hp. induction Hall as [|d scripts (Hre & Hnr & Hd) Hall IH]; [destruct HC|].
  intros text. unfold rewrite_refs. cbn [fold_left]. fold (rewrite_refs scripts).
  destruct HC as [->|HC]; [|apply IH; exact HC].
  apply rewrite_refs_keeps; auto.
  rewrite Hre, Hnr. apply sub_ref_clears; assumption.
Qed.

Lemma entity_final_built :
  SmallScript_init block_final (lit "big") (lit "out") = Ok entity_final.
Proof. vm_compute. reflexivity. Qed.

Lemma rewritten_content_has_no_raw_reference_witness :
  ~ raw_ref (fmt (old_name entity_a))
      (rewrite_refs [entity_a; entity_final] (content entity_final)).
Proof.
  apply (rewritten_content_has_no_raw_reference (lit "big") (lit "out")).
  - repeat constructor; [exists block_a; exact entity_a_built
                        | exists block_final; exact entity_final_built].
  - repeat constructor; try (vm_compute; reflexivity); vm_compute; discriminate.
  - right. left. reflexivity.
  - left. reflexivity.
Defined.

(** C2, as the specification has it, fails for names that are no
    identifiers: in a job whose final name is [rows from a], the reference
    that replaces the table [a] holds [from a] itself. *)
Lemma raw_reference_left_by_new_name :
  built (lit "big") (lit "rows from a") spaced_a /\
  built (lit "big") (lit "rows from a") spaced_final /\
  old_name spaced_a = Some (lit "a") /\
  rewrite_refs [spaced_a; spaced_final] (content spaced_final) =
    py "select *\nfrom {{ ref(\qrows from a_a\q) }}\n" /\
  raw_ref (lit "a")
    (rewrite_refs [spaced_a; spaced_final] (content spaced_final)).
Proof.
  split; [exists block_a; vm_compute; reflexivity|].
  split; [exists block_final; vm_compute; reflexivity|].
  split; [vm_compute; reflexivity|].
  split; [vm_compute; reflexivity|].
  exists (lit "from a"). split.
  - exists (lit "from"), (lit " "). repeat split; [left; reflexivity | discriminate].
  - exists (py "select *\nfrom {{ ref(\qrows "), (py "_a\q) }}\n").
    vm_compute. reflexivity.
Qed.

(** ** The Enable operation, applied twice *)

Lemma blanks_In (w : str) (c : ascii) :
  blanks w = true -> In c w -> c = " "%char.
Proof.
  unfold blanks. rewrite forallb_forall. intros H Hin.
  symmetry. apply Ascii.eqb_eq. auto.
Qed.

Lemma enabled_false_chars (u : str) (c : ascii) :
  enabled_false u -> In c u -> In c (lit "enabldfs= ").
Proof.
  intros (b1 & b2 & -> & H1 & H2) H.
  repeat (apply in_app_or in H as [H|H]);
    try (rewrite (blanks_In b1 c H1 H)); try (rewrite (blanks_In b2 c H2 H));
    cbn in *; tauto.
Qed.

Lemma enabled_false_ends (u : str) :
  enabled_false u ->
  (exists m, u = lit "enabled" ++ m) /\ (exists m, u = m ++ lit "false").
Proof.
  intros (b1 & b2 & -> & _). split; [eauto|].
  exists (lit "enabled" ++ b1 ++ lit "=" ++ b2).
  rewrite <- !app_assoc. reflexivity.
Qed.

Lemma enable_occ_in_text (u L prev c rest2 X Z : str) :
  enabled_false u -> left_ctx L prev ->
  ~ occ (lit "falsenabled") (rev prev ++ c ++ rest2) ->
  quiet enable_r prev c rest2 ->
  L ++ c ++ rest2 = X ++ u ++ Z -> List.length X < List.length (L ++ c) ->
  False.
Proof.
  intros Hu HL Hfree Hq E Hlen.
  assert (core : forall X', c ++ rest2 = X' ++ u ++ Z ->
                   List.length X' < List.length c -> False).
  { intros X' E' Hl. apply app_eq_app in E' as [l [[E1 E2]|[E1 E2]]].
    - subst c. rewrite length_app in Hl.
      apply (hit_enable_complete u (rev X' ++ prev) Z Hu).
      rewrite E2. apply Hq; [reflexivity|]. destruct l; [cbn in Hl; lia | discriminate].
    - subst X'. rewrite length_app in Hl. lia. }
  destruct HL as [->|[-> [p0 Hp]]]; [exact (core X E Hlen)|].
  destruct X as [|x X'].
  - apply Hfree. destruct (enabled_false_ends u Hu) as [[m Hm] _].
    rewrite Hm in E. cbn in E. injection E as E. rewrite E, Hp.
    exists (rev p0), (m ++ Z). rewrite rev_app_distr, rev_involutive.
    rewrite <- !app_assoc. reflexivity.
  - cbn in E, Hlen. injection E as _ E. apply (core X' E). lia.
Qed.

Lemma enabled_false_suffix_prefix (u u1 u2 y : str) :
  enabled_false u -> u = u1 ++ u2 -> u2 <> [] ->
  lit "enabled = " = u2 ++ y -> u2 = lit "e".
Proof.
  intros Hu E H2 Hy. destruct (enabled_false_ends u Hu) as [_ [m Hm]].
  rewrite Hm in E. apply (f_equal (@rev ascii)) in E.
  rewrite !rev_app_distr in E. cbn [lit list_ascii_of_string rev app] in E.
  destruct (rev u2) as [|e1 [|e2 r3]] eqn:Er.
  - apply (f_equal (@rev ascii)) in Er. rewrite rev_involutive in Er.
    cbn in Er. congruence.
  - cbn in E. injection E as <- _.
    apply (f_equal (@rev ascii)) in Er. rewrite rev_involutive in Er.
    exact Er.
  - exfalso. cbn in E. injection E as <- <- _.
    assert (Hin : In "s"%char (u2 ++ y)).
    { apply in_or_app. left. apply in_rev. rewrite Er. right. left. reflexivity. }
    rewrite <- Hy in Hin. cbn in Hin. intuition discriminate.
Qed.

Lemma enable_sub_clean (u : str) :
  enabled_false u ->
  forall n rest prev L, List.length rest < n ->
    ~ occ (lit "falsenabled") (rev prev ++ rest) -> left_ctx L prev ->
    ~ occ u (L ++ sub_from enable_r (lit "enabled = true") prev rest).
Proof.
  intros Hu. pose proof (enabled_false_length u Hu) as Hlu.
  assert (Hc : forall c, ~ In c (lit "enabldfs= ") -> ~ In c u).
  { intros c Hc Hin. apply Hc. exact (enabled_false_chars u c Hu Hin). }
  induction n as [|n IH]; intros rest prev L Hlen Hfree HL Hocc; [lia|].
  destruct (sub_from_first enable_r (lit "enabled = true") rest prev)
    as [[Hq Hs]|(c & M & caps & rest' & E & HM & Hq & Hh & Hs)];
    rewrite Hs in Hocc.
  - destruct Hocc as (X & Z & E).
    apply (enable_occ_in_text u L prev rest [] X Z Hu HL); auto.
    + rewrite app_nil_r. exact Hfree.
    + rewrite app_nil_r. exact E.
    + apply (f_equal (@List.length ascii)) in E. rewrite !length_app in E.
      rewrite !length_app. lia.
  - apply hit_enable_sound in Hh as Hm.
    destruct Hm as (uM & rest'' & HuM & EM & HlM).
    apply app_inj_length in EM as [-> ->]; [|exact HlM].
    replace (L ++ c ++ lit "enabled = true" ++
             sub_from enable_r (lit "enabled = true") (rev uM ++ rev c ++ prev) rest'')
      with (((L ++ c) ++ lit "enabled = ") ++ "t"%char ::
            [] ++ "r"%char :: [] ++ "u"%char ::
            lit "e" ++ sub_from enable_r (lit "enabled = true")
                         (rev uM ++ rev c ++ prev) rest'') in Hocc
      by (rewrite <- !app_assoc; reflexivity).
    apply occ_sep in Hocc as [Hocc|Hocc];
      [| |apply Hc; cbn; intuition discriminate].
    + apply occ_app in Hocc
        as [(X & Z & EX)|[Hocc|(u1 & u2 & X & y & Eu & H1 & H2 & EX & Ey)]].
      * apply (enable_occ_in_text u L prev c (uM ++ rest'') X (Z ++ uM ++ rest'') Hu HL).
        -- rewrite <- E. exact Hfree.
        -- exact Hq.
        -- rewrite app_assoc, EX, <- !app_assoc. reflexivity.
        -- rewrite EX, !length_app. lia.
      * apply occ_length in Hocc. cbn in Hocc. lia.
      * pose proof (enabled_false_suffix_prefix u u1 u2 y Hu Eu H2 Ey) as ->.
        destruct (enabled_false_ends uM HuM) as [[m Hm] _].
        apply (enable_occ_in_text u L prev c (uM ++ rest'') X
                 (skipn 1 uM ++ rest'') Hu HL).
        -- rewrite <- E. exact Hfree.
        -- exact Hq.
        -- rewrite app_assoc, EX, Eu, Hm, <- !app_assoc. reflexivity.
        -- rewrite EX, !length_app. destruct u1; [congruence | cbn; lia].
    + apply occ_sep in Hocc as [Hocc|Hocc];
        [apply occ_length in Hocc; cbn in Hocc; lia
        | |apply Hc; cbn; intuition discriminate].
      apply occ_sep in Hocc as [Hocc|Hocc];
        [apply occ_length in Hocc; cbn in Hocc; lia
        | |apply Hc; cbn; intuition discriminate].
      apply (IH rest'' (rev uM ++ rev c ++ prev) (lit "e")) in Hocc; auto.
      * pose proof (enabled_false_length uM HuM).
        subst rest. rewrite !length_app in Hlen. lia.
      * rewrite !rev_app_distr, !rev_involutive, <- !app_assoc.
        rewrite <- E. exact Hfree.
      * right. split; [reflexivity|].
        destruct (enabled_false_ends uM HuM) as [_ [m Hm]].
        exists (rev m ++ rev c ++ prev).
        rewrite Hm, rev_app_distr, <- !app_assoc. reflexivity.
Qed.

Lemma re_search_enable_None (text : str) :
  (forall u, enabled_false u -> ~ occ u text) -> re_search enable_r text = None.
Proof.
  intros H. apply re_search_None. intros c1 c2 -> Hc.
  destruct (hit enable_r (rev c1 ++ []) (c2 ++ [])) as [[n caps]|] eqn:Eh; [|reflexivity].
  apply hit_enable_sound in Eh as (u & rest' & Hu & E & _). exfalso.
  apply (H u Hu). rewrite app_nil_r in E. rewrite E.
  exists c1, rest'. reflexivity.
Qed.

(** C10, as the code has it.  A second Enable operation changes nothing
    when the configuration does not hold the text [falsenabled]: this is
    what a disabled flag right before the letters [nabled] looks like, the
    one place where the [e] that ends a replacement can start a new
    match. *)
Theorem enable_twice (s : str) :
  ~ occ (lit "falsenabled") s ->
  dbt_cfg_enable_table (dbt_cfg_enable_table s) = dbt_cfg_enable_table s.
Proof.
  intros Hfree.
  assert (Ht : re_search enable_r (dbt_cfg_enable_table s) = None).
  { unfold dbt_cfg_enable_table.
    destruct (re_search enable_r s) eqn:Es; [|exact Es].
    apply re_search_enable_None. intros u Hu Hocc.
    rewrite re_sub_sub_from in Hocc.
    apply (enable_sub_clean u Hu (S (List.length s)) s [] []); auto.
    left. reflexivity. }
  unfold dbt_cfg_enable_table at 1. rewrite Ht. reflexivity.
Qed.

Lemma no_occ_by_search (p s : str) :
  p <> [] -> re_search (Lit p) s = None -> ~ occ p s.
Proof.
  intros Hp H (a & b & E). apply re_search_None in H.
  specialize (H a (p ++ b) E ltac:(destruct p; [congruence | discriminate])).
  revert H. apply hit_not_None with
    (s0 := MState (rev p ++ rev a ++ []) (b ++ []) []).
  - apply in_ms_Lit. split; [|reflexivity]. split; cbn; rewrite <- ?app_assoc; reflexivity.
  - intros s' Hs'. apply in_ms_Lit in Hs' as [[H1 _] _]. cbn [m_rest] in *.
    rewrite H1, !length_app. destruct p; [congruence | cbn; lia].
Qed.

Lemma enable_twice_witness :
  dbt_cfg_enable_table
    (dbt_cfg_enable_table (py "{{ config(enabled=false, x = false) }}")) =
  dbt_cfg_enable_table (py "{{ config(enabled=false, x = false) }}").
Proof.
  apply enable_twice. apply no_occ_by_search; [discriminate|]. vm_compute. reflexivity.
Defined.

(** C10, as the specification has it, fails: the replacement ends with the
    letter [e], and what follows it in the text can complete a new disabled
    flag, which a second operation then replaces. *)
Lemma enable_not_idempotent :
  dbt_cfg_enable_table (lit "enabled = falsenabled = false") =
    lit "enabled = truenabled = false" /\
  dbt_cfg_enable_table (lit "enabled = truenabled = false") =
    lit "enabled = truenabled = true" /\
  lit "enabled = truenabled = true" <> lit "enabled = truenabled = false".
Proof. repeat split; try (vm_compute; reflexivity). discriminate. Qed.

(** ** Claims about the written files *)

(** C7. The injection of the cleaning hooks runs in every turn of the loop
    of [create_new_script_files], before the test that tells the final
    entity from the others, and every run inserts one [drop table] per
    intermediate entity in front of the statements of the runs before.  In
    a job with one CTE the loop has two turns, and the configuration of
    the final file drops the only intermediate table twice, where the
    specification (and the comment above the call) promise one statement
    per intermediate entity. *)
Theorem cleanup_hooks_injected_every_turn :
  let '(st, e) :=
    split_script_into_files hooked_source (lit "big") (lit "out") true in
  e = None /\
  st_files st =
    [(lit "out_a.sql", py " select 1\n from t\n");
     (lit "out.sql",
      py "{{ config(post_hook = [\n  'drop table  {{ ref(\qout_a\q) }}',\n  'drop table  {{ ref(\qout_a\q) }}',\n  'x']) }}\n\nselect *\nfrom {{ ref(\qout_a\q) }}\n")].
Proof. vm_compute. split; reflexivity. Qed.

Lemma same_meta_refl (a : SmallScript) : same_meta a a.
Proof. repeat split. Qed.

Lemma same_meta_set_content (t : str) (a b : SmallScript) :
  same_meta a b -> same_meta (set_content t a) b.
Proof. intros H. exact H. Qed.

Lemma rewrite_refs_meta (l l' : list SmallScript) :
  Forall2 same_meta l l' -> forall t, rewrite_refs l t = rewrite_refs l' t.
Proof.
  unfold rewrite_refs. induction 1 as [|a b l l' (_ & _ & _ & H1 & H2) _ IH];
    intros t; [reflexivity|].
  cbn [fold_left]. rewrite H1, H2. apply IH.
Qed.

Lemma fold_drop_meta (sp : str) (l l' : list SmallScript) :
  Forall2 same_meta l l' -> forall acc,
  fold_left (fun acc scr =>
      if is_intermediate scr
      then acc ++ lit "'drop table " ++ new_reference scr ++ lit "'," ++ sp
      else acc) l acc =
  fold_left (fun acc scr =>
      if is_intermediate scr
      then acc ++ lit "'drop table " ++ new_reference scr ++ lit "'," ++ sp
      else acc) l' acc.
Proof.
  induction 1 as [|a b l l' (_ & _ & H1 & H2 & _) _ IH]; intros acc; [reflexivity|].
  cbn [fold_left]. rewrite H1, H2. apply IH.
Qed.

Lemma add_drop_meta (l l' : list SmallScript) (c : str) :
  Forall2 same_meta l l' -> dbt_cfg_add_drop c l = dbt_cfg_add_drop c l'.
Proof.
  intros H. unfold dbt_cfg_add_drop.
  destruct (re_search post_r c) as [[t caps]|]; [|reflexivity].
  f_equal. f_equal. apply fold_drop_meta. exact H.
Qed.

Lemma update_meta (i : nat) (t : str) (l l' : list SmallScript) :
  Forall2 same_meta l l' -> Forall2 same_meta (update i (set_content t) l) l'.
Proof.
  intros H. revert i. induction H as [|a b l l' Hab Hl IH]; intros i;
    [destruct i; constructor|].
  destruct i; cbn [update]; constructor; auto.
Qed.

Lemma update_other (i j : nat) (t : str) (l : list SmallScript) :
  i <> j -> nth_error (update i (set_content t) l) j = nth_error l j.
Proof.
  revert i j. induction l as [|a l IH]; intros i j Hij; [destruct i; reflexivity|].
  destruct i, j; cbn; try congruence; try reflexivity. apply IH. congruence.
Qed.

Lemma write_one_inv (drop : bool) (scripts : list SmallScript) (cfg0 : str)
    (k : nat) (st st' : job_state) :
  loop_inv drop scripts cfg0 k st ->
  write_one drop k st = Ok st' ->
  loop_inv drop scripts cfg0 (S k) st'.
Proof.
  intros (Hlen & Hmeta & Hrest & Hcfg & Hfiles) Hw.
  unfold write_one in Hw.
  destruct (getitem (st_scripts st) k) as [scr|] eqn:Eg; [|discriminate].
  cbn [bind] in Hw. unfold getitem in Eg.
  destruct (nth_error (st_scripts st) k) as [scr0|] eqn:En; [|discriminate].
  injection Eg as ->.
  assert (Hscr : nth_error scripts k = Some scr) by (rewrite <- Hrest; auto).
  set (text := rewrite_refs (st_scripts st) (content scr)) in *.
  assert (Hm1 : Forall2 same_meta (update k (set_content text) (st_scripts st)) scripts)
    by (apply update_meta; exact Hmeta).
  assert (Hc : config_after drop scripts (S k) cfg0 =
               (if drop then dbt_cfg_add_drop (st_config st)
                               (update k (set_content text) (st_scripts st))
                else Ok (st_config st))).
  { cbn [config_after]. rewrite Hcfg. cbn [bind].
    destruct drop; [|reflexivity]. symmetry. apply add_drop_meta. exact Hm1. }
  rewrite <- Hc in Hw.
  destruct (config_after drop scripts (S k) cfg0) as [cfg'|] eqn:Ec; [|discriminate].
  cbn [bind] in Hw. injection Hw as <-.
  unfold loop_inv. cbn [st_files st_scripts st_config]. repeat split.
  - rewrite length_app. cbn. lia.
  - apply update_meta. exact Hm1.
  - intros j Hj. rewrite !update_other by lia. apply Hrest. lia.
  - exact Ec.
  - intros i scr' Hi Hscr'. destruct (Nat.eq_dec i k) as [->|Hne].
    + exists cfg'. split; [exact Ec|].
      rewrite nth_error_app2 by lia. rewrite Hlen, Nat.sub_diag. cbn [nth_error].
      rewrite Hscr in Hscr'. injection Hscr' as <-.
      unfold written_text, text. rewrite (rewrite_refs_meta _ _ Hmeta).
      destruct (is_intermediate scr); reflexivity.
    + destruct (Hfiles i scr' ltac:(lia) Hscr') as (cfg_i & H1 & H2).
      exists cfg_i. split; [exact H1|].
      rewrite nth_error_app1 by lia. exact H2.
Qed.

Lemma write_all_inv (drop : bool) (scripts : list SmallScript) (cfg0 : str)
    (m : nat) : forall k st st',
  loop_inv drop scripts cfg0 k st ->
  write_all drop (seq k m) st = (st', None) ->
  loop_inv drop scripts cfg0 (k + m) st'.
Proof.
  induction m as [|m IH]; intros k st st' Hinv Hw.
  - cbn in Hw. injection Hw as <-. rewrite Nat.add_0_r. exact Hinv.
  - cbn [seq write_all] in Hw.
    destruct (write_one drop k st) as [st1|] eqn:E1; [|discriminate].
    rewrite <- Nat.add_succ_comm. apply (IH (S k) st1); [|exact Hw].
    eapply write_one_inv; eassumption.
Qed.

(** C6, as the code has it.  When [create_new_script_files] ends without
    exception, the file of the [i]-th entity is named after its new name,
    and its text is the rewritten content of the entity, after the
    configuration text of that turn and one line feed when the entity is
    the final one.  (The configuration text and the content are joined by
    a single line feed: a blank line separates them only when the
    configuration text ends with a line feed itself.)  The references hold
    no backslash, so that [sub] inserts them as they are. *)
Theorem written_files (scripts : list SmallScript) (drop_intermediate : bool)
    (dbt_config : str) (st : job_state) (i : nat) (scr : SmallScript) :
  Forall (fun scr => ~ In backslash (new_reference scr)) scripts ->
  create_new_script_files scripts drop_intermediate dbt_config = (st, None) ->
  nth_error scripts i = Some scr ->
  exists cfg_i,
    config_after drop_intermediate scripts (S i)
      (dbt_cfg_enable_table dbt_config) = Ok cfg_i /\
    nth_error (st_files st) i =
      Some (new_name scr ++ lit ".sql",
            if is_intermediate scr then rewrite_refs scripts (content scr)
            else cfg_i ++ [nl] ++ rewrite_refs scripts (content scr)).
Proof.
  unfold create_new_script_files. intros _ Hw Hscr.
  apply (write_all_inv drop_intermediate scripts (dbt_cfg_enable_table dbt_config))
    in Hw as (_ & _ & _ & _ & Hfiles).
  - apply Hfiles; [|exact Hscr]. cbn. apply nth_error_Some. congruence.
  - unfold loop_inv. cbn. repeat split; auto.
    + clear. induction scripts; constructor; [apply same_meta_refl | assumption].
    + intros i0 scr0 Hi. lia.
Qed.

Lemma written_files_witness :
  exists cfg_i,
    config_after true [entity_a; entity_final] 2
      (dbt_cfg_enable_table (py "{{ config(post_hook = []) }}\n")) = Ok cfg_i /\
    nth_error
      (st_files (fst (create_new_script_files [entity_a; entity_final] true
                        (py "{{ config(post_hook = []) }}\n")))) 1 =
      Some (new_name entity_final ++ lit ".sql",
            if is_intermediate entity_final
            then rewrite_refs [entity_a; entity_final] (content entity_final)
            else cfg_i ++ [nl] ++
                 rewrite_refs [entity_a; entity_final] (content entity_final)).
Proof.
  apply (written_files [entity_a; entity_final] true
           (py "{{ config(post_hook = []) }}\n")
           (fst (create_new_script_files [entity_a; entity_final] true
                   (py "{{ config(post_hook = []) }}\n")))
           1 entity_final);
    [| vm_compute; reflexivity | vm_compute; reflexivity].
  repeat constructor; vm_compute;
    intros H; repeat (destruct H as [H|H]; [discriminate H|]); exact H.
Defined.

(** C6, as the specification has it, fails: the configuration text is
    what stands before the line feed of the [with] line, so it ends with no
    line feed when that line follows the configuration at once, and the
    final file then has no blank line at all. *)
Lemma final_file_without_blank_line :
  get_individual_scripts_and_dbt_config
    (py "{{ config() }}\nwith a as\n(\n select 1\n from t\n)\nselect *\nfrom a\n") =
    Ok ([block_a; block_final], py "{{ config() }}") /\
  st_files (fst (create_new_script_files [entity_a; entity_final] false
                   (py "{{ config() }}"))) =
    [(lit "out_a.sql", py " select 1\n from t\n");
     (lit "out.sql", py "{{ config() }}\nselect *\nfrom {{ ref(\qout_a\q) }}\n")] /\
  ~ occ [nl; nl] (py "{{ config() }}\nselect *\nfrom {{ ref(\qout_a\q) }}\n").
Proof.
  split; [vm_compute; reflexivity|]. split; [vm_compute; reflexivity|].
  apply no_occ_by_search; [discriminate|]. vm_compute. reflexivity.
Qed.

(** ** Claims about the Script Segmenter *)

Lemma in_ms_Group (i : nat) (r : regex) (s s' : mstate) :
  In s' (ms (Group i r) s) <->
  exists s0, In s0 (ms r s) /\
    s' = MState (m_prev s0) (m_rest s0) ((i, consumed s s0) :: m_caps s0).
Proof.
  cbn [ms]. rewrite in_map_iff.
  split; intros (s0 & H1 & H2); exists s0; auto.
Qed.

Lemma consumed_reads (s s' : mstate) (w : str) :
  reads s w s' -> consumed s s' = w.
Proof.
  intros [H _]. unfold consumed. rewrite H, length_app.
  replace (List.length w + List.length (m_rest s') - List.length (m_rest s'))
    with (List.length w) by lia.
  rewrite firstn_app, Nat.sub_diag, firstn_all. cbn. apply app_nil_r.
Qed.

Lemma in_ms_LookAhead_Chr (p : ascii -> bool) (s s' : mstate) :
  In s' (ms (LookAhead (Chr p)) s) <->
  s' = s /\ exists c t, m_rest s = c :: t /\ p c = true.
Proof.
  cbn [ms]. unfold advance. destruct s as [prev [|c t] caps]; cbn.
  - split; [intros [] | intros (_ & c & t & H & _); discriminate].
  - destruct (p c) eqn:E; cbn.
    + split.
      * intros [<-|[]]. split; [reflexivity | eauto].
      * intros [-> _]. left. reflexivity.
    + split; [intros [] | intros (_ & d & t' & H & Hd)].
      injection H as <- <-. congruence.
Qed.

Lemma reads_group (s s0 : mstate) (w : str) (i : nat) (x : str) :
  reads s w s0 ->
  reads s w (MState (m_prev s0) (m_rest s0) ((i, x) :: m_caps s0)).
Proof. intros [H1 H2]. split; assumption. Qed.

Lemma forallb_dot (w : str) :
  forallb (fun c => negb (Ascii.eqb c nl)) w = true <-> ~ In nl w.
Proof.
  rewrite forallb_forall. split.
  - intros H Hin. apply H in Hin. rewrite Ascii.eqb_refl in Hin. discriminate.
  - intros H c Hc. destruct (Ascii.eqb c nl) eqn:E; [|reflexivity].
    apply Ascii.eqb_eq in E. subst c. contradiction.
Qed.

(** *** The pattern of the marker lines *)

Lemma in_ms_marker (s s' : mstate) :
  In s' (ms marker_r s) ->
  exists g z r', reads s (nl :: g ++ z) s' /\ ~ In nl g /\
    (z = [] \/ z = [nl]) /\ m_rest s' = "("%char :: r' /\
    m_caps s' = (1, g) :: m_caps s /\
    exists x y, g = ","%char :: x ++ lit " as" ++ y.
Proof.
  unfold marker_r, Star, Dot, Opt. intros H.
  apply in_ms_Seq in H as (s1 & H1 & H).
  apply in_ms_Seq in H as (s2 & H2 & H).
  apply in_ms_Seq in H as (s3 & H3 & H).
  apply in_ms_LookAhead_Chr in H as (-> & c & t & Hrest & Hc).
  apply Ascii.eqb_eq in Hc. subst c.
  apply in_ms_Group in H2 as (s0 & H2 & ->).
  apply in_ms_Chr in H1 as (c1 & Hc1 & Hr1 & Hk1).
  apply Ascii.eqb_eq in Hc1. subst c1.
  apply in_ms_Seq in H2 as (sa & Ha & H2).
  apply in_ms_Chr in Ha as (ca & Hca & Hra & Hka).
  apply Ascii.eqb_eq in Hca. subst ca.
  apply in_ms_Seq in H2 as (sb & Hb & H2).
  apply in_ms_Rep_Chr in Hb as (x & Hrb & Hkb & Hx & _).
  apply in_ms_Seq in H2 as (sc & Hc & H2).
  apply in_ms_Lit in Hc as (Hrc & Hkc).
  apply in_ms_Rep_Chr in H2 as (y & Hrd & Hkd & Hy & _).
  apply forallb_dot in Hx, Hy.
  pose proof (reads_app _ _ _ _ _ Hra
               (reads_app _ _ _ _ _ Hrb (reads_app _ _ _ _ _ Hrc Hrd))) as Hg.
  set (g := [","%char] ++ x ++ lit " as" ++ y) in Hg.
  assert (Hng : ~ In nl g).
  { unfold g. rewrite !in_app_iff. cbn. intros [[E|[]]|[?|[E|?]]]; auto.
    - discriminate.
    - cbn in E. unfold nl in E.
      repeat (destruct E as [E|E]; [discriminate|]). exact E. }
  rewrite (consumed_reads _ _ _ Hg) in *.
  apply (reads_group _ _ _ 1 g) in Hg.
  assert (Hcaps : m_caps s0 = m_caps s) by congruence.
  rewrite Hcaps in *.
  apply in_ms_Alt in H3 as [H3|H3].
  - apply in_ms_Chr in H3 as (c3 & Hc3 & Hr3 & Hk3).
    apply Ascii.eqb_eq in Hc3. subst c3.
    exists g, [nl], t. repeat split; auto.
    + exact (proj1 (reads_app _ _ _ _ _ Hr1 (reads_app _ _ _ _ _ Hg Hr3))).
    + exact (proj2 (reads_app _ _ _ _ _ Hr1 (reads_app _ _ _ _ _ Hg Hr3))).
    + exists x, y. reflexivity.
  - cbn [ms] in H3. destruct H3 as [<-|[]].
    exists g, [], t. rewrite app_nil_r. repeat split; auto.
    + exact (proj1 (reads_app _ _ _ _ _ Hr1 Hg)).
    + exact (proj2 (reads_app _ _ _ _ _ Hr1 Hg)).
    + exists x, y. reflexivity.
Qed.

Lemma hit_marker_start (prev rest : str) (n : nat) (caps : list (nat * str)) :
  hit marker_r prev rest = Some (n, caps) ->
  exists t, rest = nl :: ","%char :: t.
Proof.
  intros H. apply hit_Some in H as (s' & Hin & _).
  apply in_ms_marker in Hin as (g & z & r' & [Hr _] & _ & _ & _ & _ & x & y & ->).
  cbn [m_rest] in Hr. rewrite Hr. cbn. eauto.
Qed.

Lemma hit_marker_sound (prev rest : str) (n : nat) (caps : list (nat * str)) :
  hit marker_r prev rest = Some (n, caps) -> marker_at rest.
Proof.
  intros H. apply hit_Some in H as (s' & Hin & _).
  apply in_ms_marker in Hin as (g & z & r' & [Hr _] & Hg & Hz & Hrest & _ & Hxy).
  cbn [m_rest] in Hr. rewrite Hrest in Hr.
  exists g, z, r'. split; [|auto]. rewrite Hr. cbn [app].
  rewrite <- app_assoc. reflexivity.
Qed.

Lemma marker_line_chars (n : str) (c : ascii) :
  ident n = true -> In c (marker_line n) ->
  c = ","%char \/ c = " "%char \/ ident_char c = true.
Proof.
  intros Hn. unfold marker_line, cte_head. rewrite !in_app_iff. cbn.
  intros [[<-|[<-|[]]]|[H|[<-|[<-|[<-|[]]]]]]; auto.
  right. right. exact (ident_In _ _ Hn H).
Qed.

Lemma marker_line_free (n : str) (c : ascii) :
  ident n = true -> c = nl \/ c = "("%char -> ~ In c (marker_line n).
Proof.
  intros Hn Hc Hin. apply (marker_line_chars _ _ Hn) in Hin.
  destruct Hc as [-> | ->]; destruct Hin as [H|[H|H]]; discriminate.
Qed.

Lemma ms_marker_intro (n r' : str) (s : mstate) :
  ident n = true ->
  m_rest s = nl :: marker_line n ++ nl :: "("%char :: r' ->
  exists s', In s' (ms marker_r s).
Proof.
  intros Hn Hs. eexists. unfold marker_r, Star, Dot, Opt.
  eapply ms_Seq_Chr_intro; [exact Hs | reflexivity |].
  apply in_ms_Seq. eexists. split.
  - apply in_ms_Group. eexists. split; [|reflexivity].
    eapply ms_Seq_Chr_intro; [reflexivity | reflexivity |].
    eapply (ms_Seq_Rep_intro _ _ _ _ _ _ (" "%char :: n)).
    + cbn. unfold cte_head. f_equal. symmetry. apply app_assoc.
    + apply forallb_dot. intros [H|H]; [discriminate|].
      apply (ident_In _ _ Hn) in H. discriminate.
    + apply Nat.le_0_l.
    + eapply ms_Seq_Lit_intro; [reflexivity|].
      apply in_ms_Rep_Chr. exists []. split; [apply reads_nil|].
      split; [reflexivity|]. split; [reflexivity | apply Nat.le_0_l].
  - apply in_ms_Seq. eexists. split.
    + apply in_ms_Alt. left. apply in_ms_Chr. exists nl.
      split; [reflexivity|]. split; [apply reads_mk; reflexivity | reflexivity].
    + apply in_ms_LookAhead_Chr. split; [reflexivity|]. cbn. eauto.
Qed.

Lemma pivot_clash (a b x y : str) (c d : ascii) :
  ~ In d a -> ~ In c x -> c <> d -> a ++ c :: b <> x ++ d :: y.
Proof.
  intros Ha Hx Hcd E. apply app_eq_app in E as [l [[-> E]|[-> E]]].
  - destruct l as [|e l]; cbn in E; [congruence|].
    injection E as <- _. apply Ha. apply in_or_app. right. left. reflexivity.
  - destruct l as [|e l]; cbn in E; [congruence|].
    injection E as <- _. apply Hx. apply in_or_app. right. left. reflexivity.
Qed.

Lemma pivot_eq (a b x y : str) (c : ascii) :
  ~ In c a -> ~ In c x -> a ++ c :: b = x ++ c :: y -> a = x /\ b = y.
Proof.
  intros Ha Hx E. pose proof (cut_first_app c a b Ha) as H1.
  rewrite E, (cut_first_app c x y Hx) in H1. injection H1 as -> ->. auto.
Qed.

Lemma hit_marker (n r' prev : str) :
  ident n = true ->
  hit marker_r prev (nl :: marker_line n ++ nl :: "("%char :: r') =
  Some (S (List.length (marker_line n ++ [nl])), [(1, marker_line n)]).
Proof.
  intros Hn. unfold hit, found, match_here.
  set (s := MState prev (nl :: marker_line n ++ nl :: "("%char :: r') []).
  destruct (ms_marker_intro n r' s Hn eq_refl) as (s0 & H0).
  destruct (ms marker_r s) as [|s' l] eqn:E; [destruct H0|]. cbn [hd_error].
  assert (Hin : In s' (ms marker_r s)) by (rewrite E; left; reflexivity).
  apply in_ms_marker in Hin as (g & z & r2 & [Hr _] & Hg & Hz & Hrest & Hcaps & _).
  cbn [m_rest s] in Hr. rewrite Hrest in Hr. cbn [app] in Hr.
  injection Hr as Hr. rewrite <- app_assoc in Hr.
  pose proof (marker_line_free n nl Hn (or_introl eq_refl)) as Hml.
  destruct Hz as [-> | ->].
  - exfalso.
    apply (pivot_clash g r2 (marker_line n) ("("%char :: r') "("%char nl);
      [exact Hg | apply marker_line_free; auto | discriminate |].
    symmetry. exact Hr.
  - destruct (pivot_eq g ("("%char :: r2) (marker_line n) ("("%char :: r') nl
                Hg Hml (eq_sym Hr)) as [-> Hr'].
    injection Hr' as ->. rewrite Hrest, Hcaps. cbn [m_caps s List.length].
    rewrite !length_app. cbn [List.length].
    replace (S (List.length (marker_line n) + S (S (List.length r'))) - S (List.length r'))
      with (S (List.length (marker_line n) + 1)) by lia.
    reflexivity.
Qed.

(** *** The split at the matches of a pattern *)

Lemma scan_quiet (r : regex) (X : str) : forall prev rest,
  quiet r prev X rest ->
  scan r 0 prev (X ++ rest) = map PChar X ++ scan r 0 (rev X ++ prev) rest.
Proof.
  induction X as [|x X IH]; intros prev rest Hq; [reflexivity|].
  cbn [app]. rewrite scan_miss.
  - cbn [map app]. f_equal. rewrite IH.
    + cbn [rev]. rewrite <- app_assoc. reflexivity.
    + intros c1 c2 E Hc. specialize (Hq (x :: c1) c2). cbn [rev] in Hq.
      rewrite <- app_assoc in Hq. apply Hq; [cbn; congruence | exact Hc].
  - apply (Hq [] (x :: X)); [reflexivity | discriminate].
Qed.

Lemma split_pieces_chars (r : regex) (limit : option nat) (X : str) :
  forall cur ps,
  split_pieces r limit cur (map PChar X ++ ps) =
  split_pieces r limit (rev X ++ cur) ps.
Proof.
  induction X as [|x X IH]; intros cur ps; [reflexivity|].
  cbn [map app split_pieces rev]. rewrite IH, <- app_assoc. reflexivity.
Qed.

Lemma split_from_quiet (r : regex) (limit : option nat) (prev cur X rest : str) :
  quiet r prev X rest ->
  split_from r limit prev cur (X ++ rest) =
  split_from r limit (rev X ++ prev) (rev X ++ cur) rest.
Proof.
  intros Hq. unfold split_from. rewrite (scan_quiet _ _ _ _ Hq).
  apply split_pieces_chars.
Qed.

Lemma split_from_nil (r : regex) (limit : option nat) (prev cur : str) :
  split_from r limit prev cur [] = [rev cur].
Proof. reflexivity. Qed.

Lemma split_from_all_quiet (r : regex) (limit : option nat) (prev X : str) :
  quiet r prev X [] -> split_from r limit prev [] X = [X].
Proof.
  intros Hq. rewrite <- (app_nil_r X) at 1.
  rewrite (split_from_quiet _ _ _ _ _ _ Hq), split_from_nil, app_nil_r,
    rev_involutive.
  reflexivity.
Qed.

Lemma split_from_hit (r : regex) (prev cur M rest : str)
    (caps : list (nat * str)) :
  hit r prev (M ++ rest) = Some (List.length M, caps) ->
  split_from r None prev cur (M ++ rest) =
  rev cur :: groups_of r caps ++ split_from r None (rev M ++ prev) [] rest.
Proof.
  intros H. unfold split_from. rewrite (scan_hit _ _ _ _ _ H).
  rewrite firstn_app, Nat.sub_diag, firstn_all, skipn_app, Nat.sub_diag,
    skipn_all.
  cbn [firstn skipn app]. rewrite app_nil_r. reflexivity.
Qed.

Lemma raw_scan (r : regex) : forall n rest prev, List.length rest <= n ->
  flat_map raw (scan r 0 prev rest) = rest.
Proof.
  induction n as [|n IH]; intros rest prev Hn.
  - destruct rest; [reflexivity | cbn in Hn; lia].
  - destruct (scan_first r rest prev)
      as [[_ Hs]|(c & M & caps & rest' & -> & HM & _ & _ & Hs)]; rewrite Hs.
    + clear. induction rest as [|x rest IHr]; cbn; [|rewrite IHr]; reflexivity.
    + rewrite flat_map_app. cbn [flat_map raw]. rewrite IH.
      * f_equal. clear. induction c as [|x c IHc]; cbn; [|rewrite IHc]; reflexivity.
      * rewrite !length_app in Hn. destruct M; [congruence | cbn in Hn; lia].
Qed.

Lemma split_pieces_done (r : regex) (ps : list piece) : forall cur,
  split_pieces r (Some 0) cur ps = [rev cur ++ flat_map raw ps].
Proof.
  induction ps as [|[c|t caps] ps IH]; intros cur; cbn [split_pieces flat_map raw].
  - rewrite app_nil_r. reflexivity.
  - rewrite IH. cbn [rev]. rewrite <- app_assoc. reflexivity.
  - rewrite IH, rev_app_distr, rev_involutive, <- app_assoc. reflexivity.
Qed.

Lemma split_from_hit_once (r : regex) (prev cur M rest : str)
    (caps : list (nat * str)) :
  hit r prev (M ++ rest) = Some (List.length M, caps) ->
  split_from r (Some 1) prev cur (M ++ rest) =
  rev cur :: groups_of r caps ++ [rest].
Proof.
  intros H. unfold split_from. rewrite (scan_hit _ _ _ _ _ H).
  rewrite firstn_app, Nat.sub_diag, firstn_all, skipn_app, Nat.sub_diag,
    skipn_all.
  cbn [firstn skipn app split_pieces option_map pred]. rewrite app_nil_r.
  rewrite split_pieces_done, (raw_scan r (List.length rest)); auto.
Qed.

(** *** Occurrences of two characters *)

Lemma occ2_app (a b : ascii) (x y : str) :
  occ [a; b] (x ++ y) ->
  occ [a; b] x \/ occ [a; b] y \/
  ((exists x', x = x' ++ [a]) /\ exists y', y = b :: y').
Proof.
  intros H.
  apply occ_app in H as [H|[H|(u1 & u2 & x' & y' & E & H1 & H2 & -> & ->)]]; auto.
  right. right. destruct u1 as [|c1 [|c2 u1]]; [congruence| |].
  - cbn in E. injection E as <- <-. split; eexists; reflexivity.
  - exfalso. cbn in E. injection E as _ _ E.
    apply eq_sym, app_eq_nil in E as [_ ->]. congruence.
Qed.

Lemma occ2_cons (a b c : ascii) (s : str) :
  occ [a; b] (c :: s) -> (c = a /\ exists t, s = b :: t) \/ occ [a; b] s.
Proof.
  intros (p & q & E). destruct p as [|d p]; cbn in E.
  - injection E as -> ->. left. eauto.
  - injection E as -> ->. right. exists p, q. reflexivity.
Qed.

Lemma occ2_In (a b : ascii) (s : str) : occ [a; b] s -> In a s.
Proof.
  intros (p & q & ->). apply in_or_app. right. left. reflexivity.
Qed.

Lemma ident_no (n : str) (c : ascii) :
  ident n = true -> ident_char c = false -> ~ In c n.
Proof.
  intros Hn Hc Hin. apply (ident_In _ _ Hn) in Hin. congruence.
Qed.

(** *** The slices of line 136 *)

Lemma quiet_marker (prev X rest : str) :
  no_marker_in X rest -> quiet marker_r prev X rest.
Proof.
  intros HX c1 c2 E Hc2.
  destruct (hit marker_r (rev c1 ++ prev) (c2 ++ rest)) as [[n caps]|] eqn:Eh;
    [exfalso | reflexivity].
  apply hit_marker_sound in Eh. exact (HX c1 c2 E Hc2 Eh).
Qed.

Lemma no_marker_app (A B F : str) :
  no_marker_in A (B ++ F) -> no_marker_in B F -> no_marker_in (A ++ B) F.
Proof.
  intros HA HB c1 c2 E Hc2 Hm.
  apply app_eq_app in E as [l [[E1 E2]|[E1 E2]]].
  - destruct l as [|x l].
    + cbn in E2. subst c2. exact (HB [] B eq_refl Hc2 Hm).
    + apply (HA c1 (x :: l) E1); [discriminate|].
      rewrite E2, <- app_assoc in Hm. exact Hm.
  - exact (HB l c2 E2 Hc2 Hm).
Qed.

Lemma no_marker_no_nl (A F : str) : ~ In nl A -> no_marker_in A F.
Proof.
  intros HA c1 c2 E Hc2 (g & z & r & Eu & _).
  destruct c2 as [|x c2]; [congruence|]. cbn in Eu. injection Eu as -> _.
  apply HA. rewrite E. apply in_or_app. right. left. reflexivity.
Qed.

Lemma no_marker_nl (F : str) :
  (forall t, F <> ","%char :: t) -> no_marker_in [nl] F.
Proof.
  intros HF c1 c2 E Hc2 (g & z & r & Eu & (x & y & Eg) & _).
  destruct c1 as [|a c1]; cbn in E.
  - subst c2. cbn in Eu. injection Eu as Eu. rewrite Eg in Eu. cbn in Eu.
    exact (HF _ Eu).
  - injection E as _ E. destruct c1; [|discriminate E]. cbn in E. congruence.
Qed.

Lemma no_marker_end (s : str) : ~ marker_point s -> no_marker_in s [].
Proof.
  intros Hs c1 c2 E _ Hm. rewrite app_nil_r in Hm. apply Hs.
  exists c1, c2. auto.
Qed.

(** A match that starts in a text whose next line does not start with an
    opening parenthesis ends in that text, the parenthesis included. *)
Lemma marker_local (c2 F : str) (c : ascii) :
  c <> "("%char -> c2 <> [] ->
  marker_at (c2 ++ nl :: c :: F) -> marker_at c2.
Proof.
  intros Hc Hc2 (g & z & r & Eu & Hxy & Hg & Hz).
  destruct c2 as [|x c2]; [congruence|]. cbn in Eu. injection Eu as -> Eu.
  assert (Hgl : forall l t, g = l ++ nl :: t -> False).
  { intros l t ->. apply Hg. apply in_or_app. right. left. reflexivity. }
  destruct Hz as [-> | ->]; cbn [app] in Eu;
    apply app_eq_app in Eu as [l [[E1 E2]|[E1 E2]]].
  - destruct l as [|y l]; cbn in E2; [discriminate E2|].
    injection E2 as <- E2. exists g, [], l. rewrite E1. cbn [app]. auto.
  - destruct l as [|y l]; cbn in E2; [discriminate E2|].
    injection E2 as <- _. exfalso. exact (Hgl _ _ E1).
  - destruct l as [|y [|y' l]]; cbn in E2.
    + injection E2 as E2 _. congruence.
    + injection E2 as _ E2. discriminate E2.
    + injection E2 as <- <- E2. exists g, [nl], l. rewrite E1. cbn [app]. auto.
  - destruct l as [|y l]; cbn in E2.
    + injection E2 as E2 _. congruence.
    + injection E2 as <- _. exfalso. exact (Hgl _ _ E1).
Qed.

Lemma no_marker_local (s F : str) (c : ascii) :
  c <> "("%char -> ~ marker_point s -> no_marker_in s (nl :: c :: F).
Proof.
  intros Hc Hs c1 c2 E Hc2 Hm. apply Hs. exists c1, c2. split; [exact E|].
  exact (marker_local c2 F c Hc Hc2 Hm).
Qed.

Lemma cte_head_chars (n : str) (c : ascii) :
  ident n = true -> In c (cte_head n) -> c = " "%char \/ ident_char c = true.
Proof.
  intros Hn. unfold cte_head. rewrite in_app_iff. cbn.
  intros [H|[<-|[<-|[<-|[]]]]]; auto. right. exact (ident_In _ _ Hn H).
Qed.

Lemma cte_head_free (n : str) (c : ascii) :
  ident n = true -> c = nl \/ c = ")"%char -> ~ In c (cte_head n).
Proof.
  intros Hn Hc Hin. apply (cte_head_chars _ _ Hn) in Hin.
  destruct Hc as [-> | ->]; destruct Hin as [H|H]; discriminate.
Qed.

(** The body of a CTE, and the text up to the end of the first CTE, whatever
    line follows. *)
Lemma no_marker_cte_body (inner : str) :
  ~ marker_point (nl :: inner) ->
  forall F, no_marker_in (cte_body inner) (nl :: F).
Proof.
  intros Hi F. unfold cte_body.
  change ("("%char :: nl :: inner ++ [nl; ")"%char])
    with (["("%char] ++ (nl :: inner) ++ [nl] ++ [")"%char]).
  apply no_marker_app; [apply no_marker_no_nl; intros [H|[]]; discriminate H|].
  apply no_marker_app; [apply no_marker_local; [discriminate | exact Hi]|].
  apply no_marker_app; [apply no_marker_nl; discriminate|].
  apply no_marker_no_nl. intros [H|[]]; discriminate H.
Qed.

Lemma no_marker_layout_head (cfg n inner : str) :
  ident n = true -> ~ marker_point cfg -> ~ marker_point (nl :: inner) ->
  forall F,
  no_marker_in ((cfg ++ py "\nwith ") ++ cte_block (cte_head n) inner) (nl :: F).
Proof.
  intros Hn Hcfg Hi F. unfold cte_block.
  change (py "\nwith ") with ([nl] ++ lit "with ").
  rewrite <- !app_assoc.
  apply no_marker_app; [apply no_marker_local; [discriminate | exact Hcfg]|].
  apply no_marker_app; [apply no_marker_nl; discriminate|].
  apply no_marker_app.
  { apply no_marker_no_nl. intros H. cbn in H.
    repeat (destruct H as [H|H]; [discriminate H|]). exact H. }
  apply no_marker_app.
  { apply no_marker_no_nl. intros H. revert H. apply cte_head_free; auto. }
  change (nl :: cte_body inner) with ([nl] ++ cte_body inner).
  apply no_marker_app; [apply no_marker_nl; discriminate|].
  apply no_marker_cte_body. exact Hi.
Qed.

(** A text without a line that starts with a comma has no such place. *)
Lemma no_comma_line_no_marker_point (s : str) :
  ~ comma_line s -> ~ marker_point (nl :: s) /\ ~ marker_point s.
Proof.
  assert (H : forall t, marker_point t -> occ [nl; ","%char] t).
  { intros t (a & u & -> & g & z & r & -> & (x & y & ->) & _).
    exists a, (x ++ lit " as" ++ y ++ z ++ "("%char :: r). cbn [app].
    rewrite <- !app_assoc. reflexivity. }
  intros Hs. split; intros Hm; apply Hs; unfold comma_line.
  - apply H. exact Hm.
  - apply (occ_app_r _ [nl]). apply H. exact Hm.
Qed.

Lemma groups_of_marker (g : str) : groups_of marker_r [(1, g)] = [g].
Proof. reflexivity. Qed.

Lemma split_markers (fin : str) : ~ marker_point (nl :: fin) ->
  forall cs X prev, Forall wf_cte cs -> (forall F, no_marker_in X (nl :: F)) ->
  split_from marker_r None prev []
    (X ++ flat_map (fun c => nl :: later_block c) cs ++ nl :: fin) =
  slices_of X cs fin.
Proof.
  intros Hfin. induction cs as [|[n inner] cs IH]; intros X prev Hcs HX.
  - cbn [flat_map app slices_of]. apply split_from_all_quiet.
    apply quiet_marker. apply no_marker_app; [apply HX|].
    apply no_marker_end. exact Hfin.
  - inversion Hcs as [|? ? [(_ & Hn & _) (_ & Hi & _)] Hcs']; subst.
    cbn [fst snd] in Hn, Hi.
    cbn [flat_map slices_of fst snd]. unfold later_block at 1. cbn [fst snd].
    rewrite split_from_quiet.
    2:{ apply quiet_marker. cbn [app]. apply HX. }
    set (R := flat_map (fun c => nl :: later_block c) cs ++ nl :: fin).
    unfold cte_block.
    match goal with
    | |- split_from _ _ _ _ ?t = _ =>
        replace t with ((nl :: marker_line n ++ [nl]) ++ cte_body inner ++ R)
          by (cbn [app]; rewrite <- !app_assoc; reflexivity)
    end.
    rewrite (split_from_hit marker_r _ _ (nl :: marker_line n ++ [nl])
               (cte_body inner ++ R) [(1, marker_line n)]).
    + rewrite groups_of_marker, app_nil_r, rev_involutive. cbn [app].
      f_equal. f_equal. subst R. apply IH; [exact Hcs'|].
      apply no_marker_cte_body. exact Hi.
    + pose proof (hit_marker n (nl :: inner ++ [nl; ")"%char] ++ R)
                    (rev X ++ prev) Hn) as Hh.
      cbn [List.length app]. rewrite <- Hh. f_equal.
      unfold cte_body. cbn [app]. rewrite <- !app_assoc. reflexivity.
Qed.

(** *** The pattern of the final query *)

Lemma lower_char_plain (c x : ascii) :
  x = nl \/ x = "-"%char \/ x = ")"%char -> lower_char c = x -> c = x.
Proof.
  intros Hx H. subst x.
  destruct c as [[] [] [] [] [] [] [] []];
    destruct Hx as [Hx|[Hx|Hx]]; vm_compute in Hx; try discriminate Hx;
    reflexivity.
Qed.

Lemma eqb_nocase_plain (c x : ascii) :
  x = nl \/ x = "-"%char \/ x = ")"%char -> eqb_nocase x c = true -> c = x.
Proof.
  intros Hx H. unfold eqb_nocase in H. apply Ascii.eqb_eq in H.
  apply lower_char_plain; [exact Hx|]. rewrite <- H.
  destruct Hx as [->|[->| ->]]; reflexivity.
Qed.

Lemma in_ms_LitI (p : str) : forall s s',
  In s' (ms (LitI p) s) ->
  exists w, reads s w s' /\ m_caps s' = m_caps s /\ lower w = lower p.
Proof.
  induction p as [|c p IH]; intros s s' H.
  - cbn [LitI ms] in H. destruct H as [<-|[]].
    exists []. split; [apply reads_nil | auto].
  - cbn [LitI] in H. apply in_ms_Seq in H as (s1 & H1 & H).
    apply in_ms_Chr in H1 as (d & Hd & Hr & Hc).
    apply IH in H as (w & Hr2 & Hc2 & Hw).
    exists (d :: w). split; [exact (reads_app _ _ _ _ _ Hr Hr2)|].
    split; [congruence|]. cbn [lower map]. unfold eqb_nocase in Hd.
    apply Ascii.eqb_eq in Hd. rewrite <- Hd. f_equal. exact Hw.
Qed.

Lemma in_ms_LookBehind1_Chr (p : ascii -> bool) (s s' : mstate) :
  In s' (ms (LookBehind 1 (Chr p)) s) <->
  s' = s /\ exists c p0, m_prev s = c :: p0 /\ p c = true.
Proof.
  cbn [ms]. destruct s as [[|c p0] rest caps]; cbn.
  - split; [intros [] | intros (_ & c & p0 & H & _); discriminate].
  - destruct (p c) eqn:E; cbn.
    + rewrite Nat.eqb_refl. split.
      * intros [<-|[]]. split; [reflexivity | eauto].
      * intros [-> _]. left. reflexivity.
    + split; [intros [] | intros (_ & d & p1 & H & Hd)].
      injection H as <- <-. congruence.
Qed.

Lemma in_ms_comment_line (s s' : mstate) :
  In s' (ms comment_line_r s) ->
  exists seg, reads s (seg ++ [nl]) s' /\ comment_seg seg /\
    m_caps s' = m_caps s.
Proof.
  unfold comment_line_r, Opt, Star, Blank, Dot. intros H.
  apply in_ms_Seq in H as (s1 & H1 & H).
  apply in_ms_Chr in H as (c & Hc & Hr & Hk).
  apply eqb_nocase_plain in Hc; [subst c | auto].
  apply in_ms_Alt in H1 as [H1|H1].
  - apply in_ms_Seq in H1 as (sa & Ha & H1).
    apply in_ms_Rep_Chr in Ha as (b & Hrb & Hkb & Hb & _).
    apply in_ms_Seq in H1 as (sb & Hb2 & H1).
    apply in_ms_LitI in Hb2 as (w & Hrw & Hkw & Hw).
    apply in_ms_Rep_Chr in H1 as (d & Hrd & Hkd & Hd & _).
    apply forallb_dot in Hd.
    assert (w = lit "--") as ->.
    { destruct w as [|x [|y [|z w]]]; try discriminate Hw.
      cbn in Hw. injection Hw as Hx Hy.
      apply lower_char_plain in Hx, Hy; auto. subst. reflexivity. }
    exists (b ++ lit "--" ++ d). split; [|split].
    + rewrite <- !app_assoc.
      exact (reads_app _ _ _ _ _ Hrb
               (reads_app _ _ _ _ _ Hrw (reads_app _ _ _ _ _ Hrd Hr))).
    + right. exists b, d. auto.
    + congruence.
  - cbn [ms] in H1. destruct H1 as [<-|[]].
    exists []. split; [exact Hr|]. split; [left; reflexivity | exact Hk].
Qed.

Lemma in_rep_comment_lines (g : bool) (s' : mstate) :
  forall bound n s,
  In s' (rep_run (ms comment_line_r) g n bound s) ->
  exists G, reads s G s' /\ comment_lines G /\ m_caps s' = m_caps s /\
    (n <> 0 -> G <> []).
Proof.
  assert (Hstop : forall n s, In s' (if n =? 0 then [s] else []) ->
            exists G, reads s G s' /\ comment_lines G /\
              m_caps s' = m_caps s /\ (n <> 0 -> G <> [])).
  { intros n s H. destruct n; cbn in H; [|destruct H].
    destruct H as [<-|[]]. exists []. split; [apply reads_nil|].
    split; [constructor|]. split; [reflexivity | congruence]. }
  induction bound as [|b IH]; intros n s H; cbn [rep_run] in H.
  - apply Hstop. exact H.
  - assert (Hmore : In s' (flat_map (fun s1 =>
              if List.length (m_rest s1) <? List.length (m_rest s)
              then rep_run (ms comment_line_r) g (pred n) b s1 else [])
              (ms comment_line_r s)) \/
            In s' (if n =? 0 then [s] else [])).
    { destruct g; apply in_app_or in H; tauto. }
    destruct Hmore as [Hm|Hs]; [|apply Hstop; exact Hs].
    apply in_flat_map in Hm as (s1 & H1 & Hm).
    destruct (List.length (m_rest s1) <? List.length (m_rest s)); [|destruct Hm].
    apply IH in Hm as (G & Hr & HG & Hk & _).
    apply in_ms_comment_line in H1 as (seg & Hr1 & Hseg & Hk1).
    exists (seg ++ nl :: G). split; [|split; [|split]].
    + pose proof (reads_app _ _ _ _ _ Hr1 Hr) as Hrr.
      rewrite <- app_assoc in Hrr. exact Hrr.
    + constructor; assumption.
    + congruence.
    + intros _. destruct seg; discriminate.
Qed.

Lemma comment_seg_no_nl (seg : str) : comment_seg seg -> ~ In nl seg.
Proof.
  intros [->|(b & d & -> & Hb & Hd)]; [intros []|].
  rewrite !in_app_iff. intros [H|[H|H]]; auto.
  - apply (blanks_In _ _ Hb) in H. discriminate.
  - cbn in H. destruct H as [H|[H|[]]]; discriminate.
Qed.

Lemma comment_lines_first (G : str) :
  comment_lines G -> G <> [] ->
  exists c t, G = c :: t /\ (c = nl \/ c = " "%char \/ c = "-"%char).
Proof.
  intros H HG. destruct H as [|seg G' Hseg _]; [congruence|].
  destruct Hseg as [->|(b & d & -> & Hb & _)].
  - cbn. eauto.
  - destruct b as [|x b]; cbn; [eauto 6|].
    exists x, (b ++ lit "--" ++ d ++ nl :: G'). split.
    + rewrite <- !app_assoc. reflexivity.
    + right. left. apply (blanks_In (x :: b) x Hb). left. reflexivity.
Qed.

Lemma comment_lines_after_nl (G : str) :
  comment_lines G -> forall A c B, G = A ++ nl :: c :: B ->
  c = nl \/ c = " "%char \/ c = "-"%char.
Proof.
  induction 1 as [|seg G' Hseg HG' IH]; intros A c B E.
  - destruct A; discriminate.
  - pose proof (comment_seg_no_nl _ Hseg) as Hnl.
    assert (Hfirst : forall t, G' = c :: t ->
              c = nl \/ c = " "%char \/ c = "-"%char).
    { intros t Et. destruct (comment_lines_first G' HG') as (c' & t' & E' & Hc');
        [rewrite Et; discriminate|]. congruence. }
    apply app_eq_app in E as [l [[-> E]|[-> E]]].
    + destruct l as [|x l]; cbn in E.
      * injection E as E. apply (Hfirst B). auto.
      * exfalso. injection E as <- _. apply Hnl. apply in_or_app.
        right. left. reflexivity.
    + destruct l as [|x l]; cbn in E.
      * injection E as E. apply (Hfirst B). auto.
      * injection E as _ E. exact (IH _ _ _ E).
Qed.

Lemma comment_lines_last (G : str) :
  comment_lines G -> G <> [] -> exists G0, G = G0 ++ [nl].
Proof.
  induction 1 as [|seg G' Hseg HG' IH]; intros HG; [congruence|].
  destruct G' as [|x G'].
  - exists seg. reflexivity.
  - destruct IH as (G0 & E); [discriminate|]. rewrite E.
    exists (seg ++ nl :: G0). rewrite <- app_assoc. reflexivity.
Qed.

Lemma in_ms_final (s s' : mstate) :
  In s' (ms final_r s) ->
  exists p0 G sel, m_prev s = ")"%char :: p0 /\ reads s (G ++ sel) s' /\
    comment_lines G /\ G <> [] /\ lower sel = lit "select" /\
    m_caps s' = (1, G ++ sel) :: m_caps s.
Proof.
  unfold final_r, Plus. intros H.
  apply in_ms_Seq in H as (s1 & H1 & H).
  apply in_ms_LookBehind1_Chr in H1 as (-> & c & p0 & Hprev & Hc).
  apply eqb_nocase_plain in Hc; [subst c | auto].
  apply in_ms_Group in H as (s0 & H & ->).
  apply in_ms_Seq in H as (s2 & H2 & H).
  cbn [ms] in H2. apply in_rep_comment_lines in H2 as (G & HrG & HG & HkG & HnG).
  apply in_ms_LitI in H as (sel & Hrs & Hks & Hsel).
  pose proof (reads_app _ _ _ _ _ HrG Hrs) as Hr.
  exists p0, G, sel. rewrite (consumed_reads _ _ _ Hr).
  split; [exact Hprev|]. split; [apply reads_group; exact Hr|].
  split; [exact HG|]. split; [apply HnG; discriminate|].
  split; [exact Hsel|]. cbn. rewrite Hks, HkG. reflexivity.
Qed.

Lemma hit_final_sound (prev rest : str) (n : nat) (caps : list (nat * str)) :
  hit final_r prev rest = Some (n, caps) ->
  exists p0 G sel rest', prev = ")"%char :: p0 /\ rest = G ++ nl :: sel ++ rest' /\
    comment_lines (G ++ [nl]) /\ lower sel = lit "select" /\
    n = List.length (G ++ nl :: sel) /\ caps = [(1, G ++ nl :: sel)].
Proof.
  intros H. apply hit_Some in H as (s' & Hin & Hn & _ & Hcaps).
  apply in_ms_final in Hin as (p0 & G & sel & Hprev & Hr & HG & HnG & Hsel & Hk).
  destruct (comment_lines_last G HG HnG) as (G0 & ->).
  pose proof (reads_length _ _ _ Hr) as Hl. destruct Hr as [Hr _].
  cbn [m_prev m_rest m_caps] in *. rewrite <- !app_assoc in *. cbn [app] in *.
  exists p0, G0, sel, (m_rest s').
  split; [exact Hprev|]. split; [exact Hr|]. split; [exact HG|].
  split; [exact Hsel|]. split; [rewrite Hn; exact Hl | rewrite Hcaps; exact Hk].
Qed.

Lemma rep_run_stop (step : mstate -> list mstate) (g : bool) (b : nat)
    (s : mstate) :
  In s (rep_run step g 0 b s).
Proof.
  destruct b; cbn [rep_run Nat.eqb]; [left; reflexivity|].
  destruct g; apply in_or_app; [right | left]; left; reflexivity.
Qed.

Lemma rep_run_one (step : mstate -> list mstate) (g : bool) (s s1 : mstate) :
  In s1 (step s) -> List.length (m_rest s1) < List.length (m_rest s) ->
  In s1 (rep_run step g 1 (List.length (m_rest s)) s).
Proof.
  intros H1 Hl.
  assert (Hb : forall bound, bound <> 0 -> In s1 (rep_run step g 1 bound s)).
  { intros [|b] Hb; [congruence|]. cbn [rep_run Nat.eqb pred].
    assert (Hm : In s1 (flat_map (fun s' =>
              if List.length (m_rest s') <? List.length (m_rest s)
              then rep_run step g 0 b s' else []) (step s))).
    { apply in_flat_map. exists s1. split; [exact H1|].
      apply Nat.ltb_lt in Hl. rewrite Hl. apply rep_run_stop. }
    destruct g; [rewrite app_nil_r | cbn [app]]; exact Hm. }
  apply Hb. lia.
Qed.

Lemma ms_LitI_intro (p : str) : forall (w r : str) (s : mstate),
  lower w = lower p -> m_rest s = w ++ r ->
  In (MState (rev w ++ m_prev s) r (m_caps s)) (ms (LitI p) s).
Proof.
  induction p as [|c p IH]; intros [|d w] r s Hw Hs; try discriminate Hw.
  - cbn in *. left. destruct s; cbn in *. congruence.
  - cbn [lower map] in Hw. injection Hw as Hd Hw. cbn [LitI].
    apply in_ms_Seq. exists (MState (d :: m_prev s) (w ++ r) (m_caps s)). split.
    + apply in_ms_Chr. exists d. split.
      * unfold eqb_nocase. rewrite Hd. apply Ascii.eqb_refl.
      * split; [split; [exact Hs | reflexivity] | reflexivity].
    + specialize (IH w r (MState (d :: m_prev s) (w ++ r) (m_caps s)) Hw eq_refl).
      cbn [m_prev m_caps rev] in IH |- *. rewrite <- app_assoc. exact IH.
Qed.

Lemma ms_comment_line_intro (seg rest : str) (s : mstate) :
  comment_seg seg -> m_rest s = seg ++ nl :: rest ->
  In (MState (nl :: rev seg ++ m_prev s) rest (m_caps s)) (ms comment_line_r s).
Proof.
  intros Hseg Hs. unfold comment_line_r, Opt. apply in_ms_Seq.
  exists (MState (rev seg ++ m_prev s) (nl :: rest) (m_caps s)). split.
  - apply in_ms_Alt. destruct Hseg as [->|(b & d & -> & Hb & Hd)].
    + right. cbn [ms rev app]. left. destruct s; cbn in *; congruence.
    + left. unfold Star, Blank, Dot.
      apply (ms_Seq_Rep_intro _ _ _ _ s _ b (lit "--" ++ d ++ nl :: rest));
        [rewrite Hs, <- !app_assoc; reflexivity | exact Hb | apply Nat.le_0_l |].
      apply in_ms_Seq.
      exists (MState (rev (lit "--") ++ rev b ++ m_prev s) (d ++ nl :: rest)
                (m_caps s)).
      split.
      * apply (ms_LitI_intro (lit "--") (lit "--") (d ++ nl :: rest)
                 (MState (rev b ++ m_prev s) (lit "--" ++ d ++ nl :: rest)
                    (m_caps s))); reflexivity.
      * apply in_ms_Rep_Chr. exists d.
        split; [|split; [reflexivity | split; [|apply Nat.le_0_l]]].
        -- split; [reflexivity|]. cbn [m_prev].
           rewrite !rev_app_distr, <- !app_assoc. reflexivity.
        -- apply forallb_dot. exact Hd.
  - apply in_ms_Chr. exists nl. split; [reflexivity|].
    split; [split|]; reflexivity.
Qed.

Lemma rep_comment_lines_intro (g : bool) (G : str) :
  comment_lines G -> forall n bound s rest,
  m_rest s = G ++ rest -> List.length (m_rest s) <= bound ->
  n = 0 \/ (n = 1 /\ G <> []) ->
  In (MState (rev G ++ m_prev s) rest (m_caps s))
     (rep_run (ms comment_line_r) g n bound s).
Proof.
  induction 1 as [|seg G' Hseg HG' IH]; intros n bound s rest Hs Hb Hn.
  - destruct Hn as [->|[_ H]]; [|congruence]. cbn [rev app] in *.
    replace (MState (m_prev s) rest (m_caps s)) with s
      by (destruct s; cbn in *; congruence).
    apply rep_run_stop.
  - destruct bound as [|b];
      [rewrite Hs, !length_app in Hb; cbn in Hb; lia|].
    cbn [rep_run].
    set (s1 := MState (nl :: rev seg ++ m_prev s) (G' ++ rest) (m_caps s)).
    assert (H1 : In s1 (ms comment_line_r s)).
    { apply ms_comment_line_intro; [exact Hseg|].
      rewrite Hs, <- app_assoc. reflexivity. }
    assert (Hlt : List.length (m_rest s1) < List.length (m_rest s)).
    { unfold s1. cbn [m_rest]. rewrite Hs, !length_app. cbn [List.length]. lia. }
    assert (Hm : In (MState (rev (seg ++ nl :: G') ++ m_prev s) rest (m_caps s))
                   (flat_map (fun s' =>
                      if List.length (m_rest s') <? List.length (m_rest s)
                      then rep_run (ms comment_line_r) g (pred n) b s' else [])
                    (ms comment_line_r s))).
    { apply in_flat_map. exists s1. split; [exact H1|].
      apply Nat.ltb_lt in Hlt as Hlt'. rewrite Hlt'.
      specialize (IH (pred n) b s1 rest eq_refl).
      unfold s1 in IH at 2 3. cbn [m_prev m_caps] in IH.
      replace (rev (seg ++ nl :: G') ++ m_prev s)
        with (rev G' ++ nl :: rev seg ++ m_prev s)
        by (rewrite rev_app_distr; cbn [rev]; rewrite <- !app_assoc; reflexivity).
      apply IH; [lia|]. left. destruct Hn as [->|[-> _]]; reflexivity. }
    destruct g; apply in_or_app; [left | right]; exact Hm.
Qed.

Lemma ms_final_intro (p0 G sel t : str) :
  comment_lines G -> lower sel = lit "select" ->
  exists s',
    In s' (ms final_r (MState (")"%char :: p0) ((nl :: G ++ sel) ++ t) [])).
Proof.
  intros HG Hsel.
  eexists. unfold final_r, Plus. apply in_ms_Seq. eexists. split.
  - apply in_ms_LookBehind1_Chr. split; [reflexivity|]. cbn. eauto.
  - apply in_ms_Group. eexists. split; [|reflexivity].
    apply in_ms_Seq.
    exists (MState (rev (nl :: G) ++ ")"%char :: p0) (sel ++ t) []). split.
    + cbn [ms].
      apply (rep_comment_lines_intro true (nl :: G)
               (cl_cons [] G (or_introl eq_refl) HG) 1 _
               (MState (")"%char :: p0) ((nl :: G ++ sel) ++ t) []) (sel ++ t)).
      * cbn [m_rest app]. rewrite <- app_assoc. reflexivity.
      * apply le_n.
      * right. split; [reflexivity | discriminate].
    + apply (ms_LitI_intro (lit "select") sel t
               (MState (rev (nl :: G) ++ ")"%char :: p0) (sel ++ t) []));
        [exact Hsel | reflexivity].
Qed.

Lemma select_chars (sel : str) :
  lower sel = lit "select" ->
  List.length sel = 6 /\ ~ In nl sel /\ forall t, sel <> ")"%char :: t.
Proof.
  intros H. split; [|split].
  - rewrite <- (length_map lower_char sel). fold (lower sel). rewrite H. reflexivity.
  - intros Hin. apply (in_map lower_char) in Hin. fold (lower sel) in Hin.
    rewrite H in Hin. cbn in Hin.
    repeat (destruct Hin as [Hin|Hin]; [discriminate Hin|]). exact Hin.
  - intros t ->. discriminate H.
Qed.

Lemma select_first (sel : str) (c : ascii) (t : str) :
  lower sel = lit "select" -> sel = c :: t ->
  c <> nl /\ c <> " "%char /\ c <> "-"%char.
Proof.
  intros H ->. cbn [lower map lit list_ascii_of_string] in H.
  injection H as H _.
  repeat split; intros ->; vm_compute in H; discriminate H.
Qed.

(** Comment lines and [select] can be read off a text in one way only. *)
Lemma comment_lines_longer (A B k sb rb : str) :
  comment_lines A -> lower sb = lit "select" ->
  A = B ++ k -> (B = [] \/ exists B0, B = B0 ++ [nl]) ->
  forall x, sb ++ rb = k ++ x -> k = [].
Proof.
  intros HA Hsb EA HB x Ek. destruct k as [|c k]; [reflexivity|]. exfalso.
  destruct sb as [|c' sb]; [discriminate Hsb|].
  cbn in Ek. injection Ek as -> _.
  destruct (select_first _ c sb Hsb eq_refl) as (N1 & N2 & N3).
  destruct HB as [->|[B0 ->]].
  - cbn in EA. destruct (comment_lines_first A HA) as (c0 & t0 & E0 & Hc0);
      [rewrite EA; discriminate|].
    rewrite EA in E0. injection E0 as <- _. tauto.
  - rewrite <- app_assoc in EA. cbn in EA.
    pose proof (comment_lines_after_nl A HA B0 c k EA). tauto.
Qed.

Lemma comment_lines_select_unique (A B sa sb ra rb : str) :
  comment_lines A -> comment_lines B -> A <> [] -> B <> [] ->
  lower sa = lit "select" -> lower sb = lit "select" ->
  A ++ sa ++ ra = B ++ sb ++ rb -> A = B /\ sa = sb /\ ra = rb.
Proof.
  intros HA HB NA NB Hsa Hsb E.
  assert (EAB : A = B).
  { apply app_eq_app in E as [k [[E1 E2]|[E1 E2]]].
    - assert (k = []) as ->.
      { apply (comment_lines_longer A B k sb rb HA Hsb E1
                 (or_intror (comment_lines_last B HB NB)) _ E2). }
      rewrite app_nil_r in E1. exact E1.
    - assert (k = []) as ->.
      { apply (comment_lines_longer B A k sa ra HB Hsa E1
                 (or_intror (comment_lines_last A HA NA)) _ E2). }
      rewrite app_nil_r in E1. symmetry. exact E1. }
  subst B. apply app_inv_head in E.
  destruct (app_inj_length sa ra sb rb E) as [-> ->]; [|auto].
  rewrite (proj1 (select_chars sa Hsa)), (proj1 (select_chars sb Hsb)).
  reflexivity.
Qed.

Lemma hit_final (p0 G sel t : str) :
  comment_lines G -> lower sel = lit "select" ->
  hit final_r (")"%char :: p0) ((nl :: G ++ sel) ++ t) =
  Some (List.length (nl :: G ++ sel), [(1, nl :: G ++ sel)]).
Proof.
  intros HG Hsel0. unfold hit, found, match_here.
  destruct (ms_final_intro p0 G sel t HG Hsel0) as (s0 & H0).
  destruct (ms final_r _) as [|s' l] eqn:E; [destruct H0|]. cbn [hd_error].
  assert (Hin : In s' (ms final_r (MState (")"%char :: p0)
                         ((nl :: G ++ sel) ++ t) [])))
    by (rewrite E; left; reflexivity).
  apply in_ms_final in Hin as (p1 & G' & sel' & _ & [Hr _] & HG' & HnG & Hsel & Hk).
  cbn [m_rest m_caps] in Hr, Hk.
  destruct (comment_lines_select_unique (nl :: G) G' sel sel' t (m_rest s'))
    as (EG & Es & Et); auto.
  - exact (cl_cons [] G (or_introl eq_refl) HG).
  - discriminate.
  - rewrite (app_assoc G'), <- Hr. cbn [app]. rewrite <- app_assoc. reflexivity.
  - subst G' sel'. rewrite <- Et, Hk, length_app, Nat.add_sub.
    cbn [List.length app]. reflexivity.
Qed.

Lemma select_line_intro (x a b sel : str) :
  x = a ++ nl :: sel ++ b -> lower sel = lit "select" -> select_line x.
Proof.
  intros -> H. exists (lower a), (lower b). unfold lower in *.
  rewrite map_app. cbn [map]. rewrite map_app, H. reflexivity.
Qed.

Lemma split_point_intro (x l G b sel : str) :
  x = (l ++ ")"%char :: G) ++ nl :: sel ++ b ->
  comment_lines (G ++ [nl]) -> lower sel = lit "select" -> split_point x.
Proof.
  intros -> HG Hsel. exists l, (G ++ [nl]), sel, b.
  split; [|split; [exact HG | split; [destruct G; discriminate | exact Hsel]]].
  rewrite <- !app_assoc. reflexivity.
Qed.

(** A text without a line that starts with [select] after the first has no
    such place. *)
Lemma no_select_line_no_split_point (s : str) :
  ~ select_line s -> ~ split_point s.
Proof.
  intros H (a & G & sel & b & -> & HG & HnG & Hsel). apply H.
  destruct (comment_lines_last G HG HnG) as (G0 & ->).
  apply (select_line_intro _ (a ++ ")"%char :: G0) b sel); [|exact Hsel].
  rewrite <- !app_assoc. reflexivity.
Qed.

(** After the final query has started, no place starts a match as long as
    the text holds no place to split. *)
Lemma quiet_final_tail (prev c : str) :
  (forall p, prev <> ")"%char :: p) -> ~ split_point c ->
  quiet final_r prev c [].
Proof.
  intros Hprev Hc c1 c2 E _.
  destruct (hit final_r (rev c1 ++ prev) (c2 ++ [])) as [[n caps]|] eqn:Eh;
    [exfalso | reflexivity].
  apply hit_final_sound in Eh as (p0 & G & sel & rest' & Hp & Er & HG & Hsel & _).
  rewrite app_nil_r in Er.
  destruct c1 as [|x c1] using rev_ind; [exact (Hprev _ Hp)|].
  rewrite rev_app_distr in Hp. cbn in Hp. injection Hp as -> _.
  apply Hc. apply (split_point_intro c c1 G rest' sel); [|exact HG | exact Hsel].
  rewrite E, Er, <- !app_assoc. reflexivity.
Qed.

(** Inside the block of a CTE no place starts a match: the parenthesis that
    closes the body is the only one that comment lines and a line starting
    with [select] can follow. *)
Lemma quiet_final_block (h inner fin : str) :
  ~ In ")"%char h -> ~ split_point inner ->
  quiet final_r [] (cte_block h inner) (nl :: fin).
Proof.
  intros Hh Hi c1 c2 E Hc2.
  destruct (hit final_r (rev c1 ++ []) (c2 ++ nl :: fin)) as [[n caps]|] eqn:Eh;
    [exfalso | reflexivity].
  apply hit_final_sound in Eh as (p0 & G & sel & rest' & Hp & Er & HG & Hsel & _).
  destruct (select_chars sel Hsel) as (_ & Hnl & Hpar).
  rewrite app_nil_r in Hp. apply (f_equal (@rev ascii)) in Hp.
  rewrite rev_involutive in Hp. cbn [rev] in Hp. subst c1.
  unfold cte_block, cte_body in E.
  assert (E1 : (h ++ [nl; "("%char; nl]) ++ inner ++ [nl; ")"%char] =
               rev p0 ++ ")"%char :: c2).
  { rewrite <- app_assoc. cbn [app]. rewrite E, <- app_assoc. reflexivity. }
  clear E.
  assert (E2 : exists l, inner ++ [nl; ")"%char] = l ++ ")"%char :: c2).
  { apply app_eq_app in E1 as [l [[E1 E2]|[E1 E2]]].
    - destruct l as [|x l]; cbn in E2.
      + exists []. symmetry. exact E2.
      + exfalso. injection E2 as <- _. apply Hh.
        assert (Hin : In ")"%char (h ++ [nl; "("%char; nl])).
        { rewrite E1. apply in_or_app. right. left. reflexivity. }
        apply in_app_or in Hin as [Hin|Hin]; [exact Hin|].
        cbn in Hin. repeat (destruct Hin as [Hin|Hin]; [discriminate Hin|]).
        destruct Hin.
    - exists l. exact E2. }
  clear E1. destruct E2 as (l & E2).
  assert (E3 : exists m, inner = l ++ ")"%char :: m /\ c2 = m ++ [nl; ")"%char]).
  { apply app_eq_app in E2 as [m [[E2 E3]|[E2 E3]]].
    - destruct m as [|x m]; cbn in E3; [discriminate E3|].
      injection E3 as <- E3. exists m. split; [exact E2 | exact E3].
    - exfalso. destruct m as [|x [|y m]]; cbn in E3.
      + discriminate E3.
      + injection E3 as _ E3. destruct c2; [congruence | discriminate E3].
      + injection E3 as _ _ E3. destruct m; discriminate E3. }
  clear E2. destruct E3 as (m & Ei & ->).
  rewrite <- app_assoc in Er. cbn [app] in Er.
  assert (Hsel0 : forall t, sel ++ rest' <> ")"%char :: t).
  { intros t Et. destruct sel as [|y sel]; [discriminate Hsel|].
    cbn in Et. injection Et as -> _. exact (Hpar _ eq_refl). }
  apply app_eq_app in Er as [k [[Ek Er]|[Ek Er]]].
  - destruct k as [|x k]; cbn in Er.
    + injection Er as Er. exact (Hsel0 _ Er).
    + injection Er as <- Er. apply Hi.
      apply app_eq_app in Er as [j [[Ej Er]|[Ej Er]]].
      * destruct j as [|y j]; cbn in Er.
        -- apply (split_point_intro inner l G [] sel); [|exact HG | exact Hsel].
           rewrite Ei, Ek, Ej, <- !app_assoc, !app_nil_r. reflexivity.
        -- exfalso. injection Er as <- _. apply Hnl. rewrite Ej.
           apply in_or_app. right. left. reflexivity.
      * apply (split_point_intro inner l G j sel); [|exact HG | exact Hsel].
        rewrite Ei, Ek, Ej, <- !app_assoc. reflexivity.
  - destruct k as [|x k]; cbn in Er.
    + injection Er as Er. symmetry in Er. exact (Hsel0 _ Er).
    + injection Er as <- Er. destruct k as [|y k]; cbn in Er; [discriminate Er|].
      injection Er as <- _.
      assert (E : G ++ [nl] = m ++ nl :: ")"%char :: (k ++ [nl])).
      { rewrite Ek, <- app_assoc. reflexivity. }
      destruct (comment_lines_after_nl _ HG _ _ _ E) as [H|[H|H]]; discriminate H.
Qed.

(** *** The pattern of the keyword [with] *)

Lemma hit_Lit (p prev rest : str) :
  p <> [] -> hit (Lit p) prev (p ++ rest) = Some (List.length p, []).
Proof.
  intros Hp. unfold hit, found, match_here.
  destruct (ms (Lit p) (MState prev (p ++ rest) [])) as [|s' l] eqn:E.
  - exfalso.
    assert (H : In (MState (rev p ++ prev) rest [])
                  (ms (Lit p) (MState prev (p ++ rest) []))).
    { apply in_ms_Lit. split; [split|]; reflexivity. }
    rewrite E in H. destruct H.
  - assert (H : In s' (ms (Lit p) (MState prev (p ++ rest) [])))
      by (rewrite E; left; reflexivity).
    apply in_ms_Lit in H as [[H _] Hc]. cbn [m_rest m_caps] in H, Hc.
    apply app_inv_head in H. cbn [hd_error]. rewrite <- H, Hc.
    rewrite length_app.
    replace (List.length p + List.length rest - List.length rest)
      with (List.length p) by lia.
    destruct p; [congruence | reflexivity].
Qed.

Lemma hit_Lit_start (p prev rest : str) (n : nat) (caps : list (nat * str)) :
  hit (Lit p) prev rest = Some (n, caps) -> exists t, rest = p ++ t.
Proof.
  intros H. apply hit_Some in H as (s' & Hin & _).
  apply in_ms_Lit in Hin as [[H _] _]. cbn [m_rest] in H. eauto.
Qed.

Lemma quiet_with (prev cfg rest : str) :
  ~ occ (py "\nwith ") cfg -> quiet with_r prev cfg (py "\nwith " ++ rest).
Proof.
  intros Hcfg c1 c2 E Hc2.
  destruct (hit with_r (rev c1 ++ prev) (c2 ++ py "\nwith " ++ rest))
    as [[n caps]|] eqn:Eh; [exfalso | reflexivity].
  apply hit_Lit_start in Eh as [t Et].
  destruct c2 as [|x1 [|x2 [|x3 [|x4 [|x5 [|x6 c2]]]]]];
    [congruence | | | | | |]; cbn in Et; try discriminate Et.
  injection Et as -> -> -> -> -> -> _.
  apply Hcfg. exists c1, c2. exact E.
Qed.

Lemma split_with (cfg B : str) :
  ~ occ (py "\nwith ") cfg ->
  re_split with_r (Some 1) (cfg ++ py "\nwith " ++ B) = [cfg; B].
Proof.
  intros Hcfg. unfold re_split, pieces. fold (split_from with_r (Some 1) [] []
    (cfg ++ py "\nwith " ++ B)).
  rewrite (split_from_quiet _ _ _ _ _ _ (quiet_with [] cfg B Hcfg)).
  rewrite (split_from_hit_once with_r _ _ (py "\nwith ") B []).
  - rewrite app_nil_r, rev_involutive. reflexivity.
  - apply (hit_Lit (py "\nwith ")). discriminate.
Qed.

(** *** From the slices to the blocks *)

Lemma pair_up (fin : str) : forall cs c,
  map (fun p => fst p ++ [nl] ++ snd p)
    (combine (evens (marker_line (fst c) :: slices_of (cte_body (snd c)) cs fin))
             (odds (marker_line (fst c) :: slices_of (cte_body (snd c)) cs fin))) =
  raw_blocks (later_block c) cs fin.
Proof.
  induction cs as [|c' cs IH]; intros c.
  - unfold odds. cbn [slices_of evens tl combine map raw_blocks fst snd].
    unfold later_block, cte_block. rewrite <- !app_assoc. reflexivity.
  - specialize (IH c'). unfold odds in *.
    cbn [slices_of evens tl combine map raw_blocks fst snd] in IH |- *.
    rewrite IH. reflexivity.
Qed.

Lemma slices_head (P B fin : str) (cs : list (str * str)) :
  exists sl,
    slices_of (P ++ B) cs fin = (P ++ hd [] (raw_blocks B cs fin)) :: sl /\
    hd [] (raw_blocks B cs fin) ::
      map (fun p => fst p ++ [nl] ++ snd p) (combine (evens sl) (odds sl)) =
    raw_blocks B cs fin.
Proof.
  destruct cs as [|c cs].
  - exists []. cbn. rewrite <- app_assoc. auto.
  - eexists. split; [reflexivity|]. cbn [raw_blocks hd]. f_equal. apply pair_up.
Qed.

(** The last block holds the last CTE and the final query. *)
Lemma raw_blocks_last (fin : str) : forall cs B,
  exists front Bk, B :: map later_block cs = front ++ [Bk] /\
    raw_blocks B cs fin = front ++ [Bk ++ nl :: fin].
Proof.
  induction cs as [|c cs IH]; intros B.
  - exists [], B. auto.
  - destruct (IH (later_block c)) as (front & Bk & E1 & E2).
    exists (B :: front), Bk. cbn [map raw_blocks app]. rewrite E1, E2. auto.
Qed.

Lemma marker_line_no_paren (n : str) :
  ident n = true -> ~ In ")"%char (marker_line n).
Proof.
  intros Hn Hin. apply (marker_line_chars _ _ Hn) in Hin.
  destruct Hin as [H|[H|H]]; discriminate.
Qed.

Lemma split_point_tail (sel t : str) :
  ~ split_point (sel ++ t) -> ~ split_point t.
Proof.
  intros H (a & G & s0 & b & -> & HG & HnG & Hs0). apply H.
  exists (sel ++ a), G, s0, b. rewrite <- app_assoc. auto.
Qed.

Lemma select_last (sel : str) :
  lower sel = lit "select" ->
  exists a c, sel = a ++ [c] /\ c <> ")"%char.
Proof.
  intros Hsel.
  destruct sel as [|c1 [|c2 [|c3 [|c4 [|c5 [|c6 [|c7 sel]]]]]]];
    try discriminate Hsel.
  exists [c1; c2; c3; c4; c5], c6. split; [reflexivity|].
  cbn [lower map lit list_ascii_of_string] in Hsel.
  injection Hsel as _ _ _ _ _ H6. intros ->. vm_compute in H6. discriminate H6.
Qed.

Lemma groups_of_final (g : str) : groups_of final_r [(1, g)] = [g].
Proof. reflexivity. Qed.

Lemma cte_block_last (h inner : str) :
  rev (cte_block h inner) =
  ")"%char :: rev (h ++ nl :: "("%char :: nl :: inner ++ [nl]).
Proof.
  unfold cte_block, cte_body.
  replace (h ++ nl :: "("%char :: nl :: inner ++ [nl; ")"%char])
    with ((h ++ nl :: "("%char :: nl :: inner ++ [nl]) ++ [")"%char]).
  - rewrite rev_app_distr. reflexivity.
  - rewrite <- app_assoc. cbn [app]. rewrite <- app_assoc. reflexivity.
Qed.

(** The split of line 157: the last CTE, group 1 and the rest of the final
    query. *)
Lemma split_final (h inner G sel t : str) :
  comment_lines G -> lower sel = lit "select" ->
  ~ In ")"%char h -> ~ split_point inner -> ~ split_point (sel ++ t) ->
  re_split final_r None (cte_block h inner ++ nl :: G ++ sel ++ t) =
  [cte_block h inner; nl :: G ++ sel; t].
Proof.
  intros HG Hsel Hh Hi Ht. unfold re_split, pieces.
  fold (split_from final_r None [] []
          (cte_block h inner ++ nl :: G ++ sel ++ t)).
  rewrite (split_from_quiet _ _ _ _ _ _
             (quiet_final_block h inner (G ++ sel ++ t) Hh Hi)).
  rewrite !app_nil_r.
  replace (nl :: G ++ sel ++ t) with ((nl :: G ++ sel) ++ t)
    by (cbn [app]; rewrite <- app_assoc; reflexivity).
  rewrite (split_from_hit final_r _ _ (nl :: G ++ sel) t [(1, nl :: G ++ sel)]).
  - rewrite rev_involutive, groups_of_final. cbn [app]. f_equal. f_equal.
    apply split_from_all_quiet. apply quiet_final_tail.
    + destruct (select_last sel Hsel) as (a0 & c0 & -> & Hc0).
      intros p0 Hp0. rewrite app_comm_cons, app_assoc, !rev_app_distr in Hp0.
      cbn in Hp0. injection Hp0 as -> _. congruence.
    + apply (split_point_tail sel). exact Ht.
  - rewrite cte_block_last. apply hit_final; assumption.
Qed.

Lemma block_shape (c1 : str * str) (cs : list (str * str)) (Bk : str) :
  wf_cte c1 -> Forall wf_cte cs ->
  In Bk (cte_block (cte_head (fst c1)) (snd c1) :: map later_block cs) ->
  exists h i, Bk = cte_block h i /\ ~ In ")"%char h /\ ~ split_point i.
Proof.
  intros [(_ & Hn & _) (_ & _ & Hi)] Hcs [<-|Hin].
  - exists (cte_head (fst c1)), (snd c1). split; [reflexivity|].
    split; [apply cte_head_free; auto | exact Hi].
  - apply in_map_iff in Hin as (c & <- & Hc).
    rewrite Forall_forall in Hcs.
    destruct (Hcs c Hc) as [(_ & Hn' & _) (_ & _ & Hi')].
    exists (marker_line (fst c)), (snd c). split; [reflexivity|].
    split; [apply marker_line_no_paren; auto | exact Hi'].
Qed.

Lemma join_cons_any (f : str) (L : list str) :
  L <> [] -> join [nl] (f :: L) = f ++ nl :: join [nl] L.
Proof. destruct L; [congruence | reflexivity]. Qed.

Lemma wf_final_select (fin : str) :
  wf_final fin ->
  exists G sel t, fin = G ++ sel ++ t /\ comment_lines G /\
    lower sel = lit "select" /\ ~ split_point (sel ++ t).
Proof.
  intros ((G & Q & -> & HG & (sel & r & M & l & T & -> & Hsel & _) & Hs) & _).
  rewrite join_cons_any in Hs |- * by (destruct M; discriminate).
  rewrite <- app_assoc in Hs |- *. eauto 8.
Qed.

(** The blocks of a source in the layout. *)
Lemma segmentation (cfg : str) (c1 : str * str) (cs : list (str * str))
    (fin : str) :
  wf_config cfg -> wf_cte c1 -> Forall wf_cte cs -> wf_final fin ->
  get_individual_scripts_and_dbt_config (layout cfg c1 cs fin) =
  Ok (blocks_of c1 cs fin, cfg).
Proof.
  intros [Hw Hcfg] Hc1 Hcs Hfin.
  pose proof Hc1 as [(_ & Hn1 & _) (_ & Hi1 & _)].
  pose proof Hfin as (_ & _ & Hcf).
  destruct (wf_final_select fin Hfin) as (G & sel & t & Et & HG & Hsel & Hsf).
  set (B1 := cte_block (cte_head (fst c1)) (snd c1)).
  unfold get_individual_scripts_and_dbt_config.
  assert (Hsl : re_split marker_r None (layout cfg c1 cs fin) =
                slices_of ((cfg ++ py "\nwith ") ++ B1) cs fin).
  { unfold re_split, pieces, layout. fold B1.
    fold (split_from marker_r None [] []
            (cfg ++ py "\nwith " ++ B1 ++
             flat_map (fun c => nl :: later_block c) cs ++ nl :: fin)).
    rewrite <- (split_markers fin Hcf cs _ [] Hcs).
    - f_equal. rewrite <- !app_assoc. reflexivity.
    - apply no_marker_layout_head; auto. }
  rewrite Hsl.
  destruct (slices_head (cfg ++ py "\nwith ") B1 fin cs) as (sl & -> & Hsc).
  cbn [getitem nth_error bind tl].
  rewrite <- app_assoc, (split_with cfg _ Hw). cbn [bind].
  change ([hd [] (raw_blocks B1 cs fin)] ++
          map (fun p => fst p ++ [nl] ++ snd p) (combine (evens sl) (odds sl)))
    with (hd [] (raw_blocks B1 cs fin) ::
          map (fun p => fst p ++ [nl] ++ snd p) (combine (evens sl) (odds sl))).
  rewrite Hsc.
  destruct (raw_blocks_last fin cs B1) as (front & Bk & E1 & ->).
  rewrite last_snoc, removelast_last.
  destruct (block_shape c1 cs Bk Hc1 Hcs) as (h & i & -> & Hh & Hi).
  { fold B1. rewrite E1. apply in_or_app. right. left. reflexivity. }
  rewrite Et, (split_final h i G sel t HG Hsel Hh Hi Hsf).
  cbn [getitem nth_error bind]. unfold blocks_of. fold B1.
  replace ((nl :: G ++ sel) ++ t) with (nl :: G ++ sel ++ t)
    by (cbn [app]; rewrite <- app_assoc; reflexivity).
  rewrite (app_comm_cons (map later_block cs) _ B1), E1, <- app_assoc.
  reflexivity.
Qed.

(** ** Claims about the Block Classifier *)

(** *** The loops of [clean_query] on a text whose ends are known *)

Lemma clean_start_keep (fuel : nat) (f rest : str) :
  ~ In nl f -> skippable (strip f) = false ->
  clean_start fuel (f ++ nl :: rest) = Ok (f ++ nl :: rest).
Proof.
  intros Hf Sf. destruct fuel; cbn [clean_start]; unfold split1;
    rewrite cut_first_app by exact Hf; cbn [getitem nth_error bind];
    rewrite Sf; reflexivity.
Qed.

Lemma clean_start_drop (fuel : nat) (a : str) :
  clean_start (S fuel) (nl :: a) = clean_start fuel a.
Proof. reflexivity. Qed.

Lemma clean_end_keep (fuel : nat) (a l : str) :
  ~ In nl l -> skippable (strip l) = false ->
  clean_end fuel (a ++ nl :: l) = Ok (a ++ nl :: l).
Proof.
  intros Hl Sl. destruct fuel; cbn [clean_end]; unfold rsplit1;
    rewrite cut_last_app by exact Hl; cbn [getitem nth_error bind];
    rewrite Sl; reflexivity.
Qed.

Lemma clean_end_drop (fuel : nat) (a : str) :
  clean_end (S fuel) (a ++ [nl]) = clean_end fuel a.
Proof.
  cbn [clean_end]. unfold rsplit1. change (a ++ [nl]) with (a ++ nl :: []).
  rewrite cut_last_app by (intros []). reflexivity.
Qed.

Lemma trimmed_lines_ends (f : str) (M : list str) (l : str) :
  trimmed_lines f M l -> ~ In nl f /\ ~ In nl l.
Proof.
  intros (Hall & _). split; [inversion Hall; assumption|].
  rewrite app_comm_cons in Hall. apply Forall_app in Hall as [_ Hall].
  inversion Hall; assumption.
Qed.

(** The loops leave a text that starts and ends with a line of its own. *)
Lemma trim_lines_id (f : str) (M : list str) (l : str) :
  trimmed_lines f M l ->
  trim_lines (join [nl] (f :: M ++ [l])) = Ok (join [nl] (f :: M ++ [l])).
Proof.
  intros HT. destruct (trimmed_lines_ends _ _ _ HT) as [Hf Hl].
  destruct HT as (_ & Sf & Sl). unfold trim_lines.
  rewrite join_cons at 2. rewrite clean_start_keep by assumption.
  cbn [bind]. rewrite <- join_cons. rewrite join_last at 2.
  rewrite clean_end_keep by assumption. rewrite <- join_last. reflexivity.
Qed.

Lemma join_tail (L T : list str) :
  L <> [] ->
  join [nl] (L ++ T) = join [nl] L ++ flat_map (fun t => nl :: t) T.
Proof.
  intros HL. induction T as [|t T IH] using rev_ind.
  - cbn [flat_map]. rewrite !app_nil_r. reflexivity.
  - rewrite app_assoc, join_snoc by (destruct L; [congruence | discriminate]).
    rewrite IH, flat_map_app. cbn [flat_map app].
    rewrite app_nil_r, <- !app_assoc. reflexivity.
Qed.

Lemma lines_tail (f : str) (M : list str) (l : str) (T : list str) :
  f :: M ++ l :: T = (f :: M ++ [l]) ++ T.
Proof. cbn [app]. rewrite <- app_assoc. reflexivity. Qed.

Lemma length_tail (T : list str) :
  List.length T <= List.length (flat_map (fun t => nl :: t) T).
Proof.
  induction T as [|t T IH]; [apply le_n|].
  cbn [flat_map List.length app]. rewrite length_app. lia.
Qed.

(** The second loop removes the blank and comment lines that follow a text
    which it keeps. *)
Lemma clean_end_tail (q : str) :
  (forall fuel, clean_end fuel q = Ok q) ->
  forall T fuel,
  Forall (fun t => ~ In nl t /\ skippable (strip t) = true) T ->
  List.length T <= fuel ->
  clean_end fuel (q ++ flat_map (fun t => nl :: t) T) = Ok q.
Proof.
  intros Hq T. induction T as [|t T IH] using rev_ind; intros fuel HT Hlen.
  - cbn [flat_map]. rewrite app_nil_r. apply Hq.
  - apply Forall_app in HT as [HT Ht]. inversion Ht as [|? ? [Hnl Hs] _]; subst.
    rewrite length_app in Hlen. cbn in Hlen.
    destruct fuel as [|fuel]; [lia|].
    rewrite flat_map_app. cbn [flat_map]. rewrite app_nil_r, app_assoc.
    cbn [clean_end]. unfold rsplit1. rewrite cut_last_app by exact Hnl.
    cbn [getitem nth_error bind]. rewrite Hs. apply IH; [exact HT | lia].
Qed.

Lemma rdrop_snoc (p : ascii -> bool) (a : str) (d : ascii) :
  p d = false -> rev (dropwhile p (rev (a ++ [d]))) = a ++ [d].
Proof.
  intros H. rewrite rev_app_distr. cbn [rev app dropwhile]. rewrite H.
  change (d :: rev a) with ([d] ++ rev a).
  rewrite rev_app_distr, rev_involutive. reflexivity.
Qed.

Lemma rdrop_keep (p : ascii -> bool) (a : str) (d : ascii) (r : str) :
  p d = false ->
  exists r1 r2, r = r1 ++ r2 /\
    rev (dropwhile p (rev ((a ++ [d]) ++ r))) = (a ++ [d]) ++ r1.
Proof.
  intros Hd. induction r as [|x r IH] using rev_ind.
  - exists [], []. split; [reflexivity|]. rewrite !app_nil_r.
    apply rdrop_snoc. exact Hd.
  - rewrite app_assoc, rev_app_distr. cbn [rev app dropwhile].
    destruct (p x) eqn:Ex.
    + destruct IH as (r1 & r2 & -> & E). exists r1, (r2 ++ [x]).
      split; [rewrite app_assoc; reflexivity | exact E].
    + exists (r ++ [x]), []. split; [rewrite app_nil_r; reflexivity|].
      change (x :: rev ((a ++ [d]) ++ r)) with ([x] ++ rev ((a ++ [d]) ++ r)).
      rewrite rev_app_distr, rev_involutive, <- !app_assoc. reflexivity.
Qed.

Lemma comment_seg_skippable (seg : str) :
  comment_seg seg -> skippable (strip seg) = true.
Proof.
  intros [->|(b & d & -> & Hb & Hd)]; [reflexivity|].
  assert (E : b ++ lit "--" ++ d = ((b ++ ["-"%char]) ++ ["-"%char]) ++ d)
    by (rewrite <- !app_assoc; reflexivity).
  rewrite E. unfold strip, rstrip.
  destruct (rdrop_keep is_space (b ++ ["-"%char]) "-"%char d eq_refl)
    as (r1 & r2 & _ & ->).
  rewrite <- !app_assoc. unfold lstrip. rewrite dropwhile_app, dropwhile_all.
  - reflexivity.
  - apply forallb_forall. intros c Hc. rewrite (blanks_In b c Hb Hc). reflexivity.
Qed.

(** The first loop removes the comment lines in front of a text which it
    keeps. *)
Lemma clean_start_lines (G : str) :
  comment_lines G -> forall fuel rest,
  List.length G <= fuel ->
  (forall fuel', clean_start fuel' rest = Ok rest) ->
  clean_start fuel (G ++ rest) = Ok rest.
Proof.
  induction 1 as [|seg G' Hseg HG' IH]; intros fuel rest Hlen Hrest.
  - apply Hrest.
  - rewrite length_app in Hlen. cbn in Hlen.
    destruct fuel as [|fuel]; [lia|].
    rewrite <- app_assoc. cbn [app clean_start]. unfold split1.
    rewrite cut_first_app by (apply comment_seg_no_nl; exact Hseg).
    cbn [getitem nth_error bind]. rewrite (comment_seg_skippable _ Hseg).
    apply IH; [lia | exact Hrest].
Qed.

(** The loops on the block of the final query, which starts with the line
    feed of group 1 and the comment lines, and may end with blank and
    comment lines. *)
Lemma trim_lines_lead (G f : str) (M : list str) (l : str) (T : list str) :
  comment_lines G -> trimmed_lines f M l ->
  Forall (fun t => ~ In nl t /\ skippable (strip t) = true) T ->
  trim_lines (nl :: G ++ join [nl] (f :: M ++ l :: T)) =
  Ok (join [nl] (f :: M ++ [l])).
Proof.
  intros HG HT HTl. destruct (trimmed_lines_ends _ _ _ HT) as [Hf Hl].
  destruct HT as (_ & Sf & Sl).
  rewrite lines_tail, join_tail by discriminate.
  assert (Hs : forall fuel tail,
            clean_start fuel (join [nl] (f :: M ++ [l]) ++ tail) =
            Ok (join [nl] (f :: M ++ [l]) ++ tail)).
  { intros fuel tail. rewrite join_cons, <- app_assoc. cbn [app].
    apply clean_start_keep; assumption. }
  unfold trim_lines.
  match goal with
  | |- context [clean_start _ (nl :: G ++ ?X)] =>
      assert (Hc : clean_start (List.length ((nl :: G) ++ X)) ((nl :: G) ++ X) =
                   Ok X)
  end.
  { apply clean_start_lines.
    - exact (cl_cons [] G (or_introl eq_refl) HG).
    - rewrite length_app. apply Nat.le_add_r.
    - intros fuel'. apply Hs. }
  cbn [app] in Hc. rewrite Hc.
  cbn [bind]. apply clean_end_tail.
  - intros fuel. rewrite join_last. apply clean_end_keep; assumption.
  - exact HTl.
  - rewrite length_app. eapply Nat.le_trans; [apply length_tail|].
    apply Nat.le_add_l.
Qed.

(** *** The first line of the block of a CTE *)

Lemma ident_char_plain (c : ascii) :
  ident_char c = true ->
  is_space c = false /\ is_linebreak c = false /\
  Ascii.eqb ","%char c = false /\ Ascii.eqb "("%char c = false /\
  Ascii.eqb "-"%char c = false /\ Ascii.eqb "/"%char c = false /\
  Ascii.eqb c " "%char = false /\ Ascii.eqb c nl = false.
Proof.
  destruct c as [[] [] [] [] [] [] [] []]; vm_compute; intros H;
    first [discriminate H | repeat split].
Qed.

Lemma lower_ident_char (c : ascii) :
  ident_char c = true -> ident_char (lower_char c) = true.
Proof.
  destruct c as [[] [] [] [] [] [] [] []]; vm_compute; intros H;
    first [reflexivity | discriminate H].
Qed.

Lemma ident_lower (n : str) : ident n = true -> ident (lower n) = true.
Proof.
  unfold ident, lower. rewrite !forallb_forall. intros H c Hc.
  apply in_map_iff in Hc as (d & <- & Hd). apply lower_ident_char. auto.
Qed.

Lemma ident_only_lf (n : str) : ident n = true -> only_lf n = true.
Proof.
  unfold ident, only_lf. rewrite !forallb_forall. intros H c Hc.
  destruct (ident_char_plain c (H c Hc)) as (_ & -> & _). reflexivity.
Qed.

Section Head.

Variables pre n : str.
Hypothesis Hpre : pre = [] \/ pre = lit ", ".
Hypothesis Hn : wf_name n.

Lemma head_no_nl : ~ In nl (pre ++ cte_head n).
Proof.
  destruct Hn as (_ & Hi & _). intros H. apply in_app_or in H as [H|H].
  - destruct Hpre as [-> | ->]; cbn in H; [exact H|].
    destruct H as [H|[H|[]]]; discriminate H.
  - revert H. apply cte_head_free; auto.
Qed.

Lemma head_only_lf : only_lf (pre ++ cte_head n) = true.
Proof.
  destruct Hn as (_ & Hi & _). unfold cte_head. rewrite !only_lf_app.
  rewrite (ident_only_lf n Hi). destruct Hpre as [-> | ->]; reflexivity.
Qed.

Lemma head_rstrip : rstrip (pre ++ cte_head n) = pre ++ cte_head n.
Proof.
  unfold cte_head.
  replace (pre ++ n ++ lit " as") with ((pre ++ n ++ lit " a") ++ ["s"%char]).
  - apply rstrip_snoc. reflexivity.
  - rewrite <- !app_assoc. reflexivity.
Qed.

Lemma head_first :
  exists c t, pre ++ cte_head n = c :: t /\ is_space c = false /\
    Ascii.eqb "("%char c = false /\ Ascii.eqb "-"%char c = false /\
    Ascii.eqb "/"%char c = false.
Proof.
  destruct Hn as (Hne & Hi & _). destruct Hpre as [-> | ->].
  - destruct n as [|c n']; [congruence|]. cbn in Hi.
    apply andb_true_iff in Hi as [Hc _].
    destruct (ident_char_plain c Hc) as (H1 & _ & _ & H2 & H3 & H4 & _).
    exists c, (n' ++ lit " as"). auto.
  - exists ","%char, (" "%char :: cte_head n). repeat split; reflexivity.
Qed.

Lemma head_strip : strip (pre ++ cte_head n) = pre ++ cte_head n.
Proof.
  unfold strip. rewrite head_rstrip.
  destruct head_first as (c & t & -> & Hc & _).
  unfold lstrip. cbn [dropwhile]. rewrite Hc. reflexivity.
Qed.

Lemma head_skippable : skippable (strip (pre ++ cte_head n)) = false.
Proof.
  rewrite head_strip. destruct head_first as (c & t & -> & _ & _ & H1 & H2).
  unfold skippable. cbn [startswith lit list_ascii_of_string str_eqb].
  rewrite H1, H2. reflexivity.
Qed.

Lemma head_first_ns :
  exists c, first_ns (pre ++ cte_head n) = Some c /\ Ascii.eqb "("%char c = false.
Proof.
  destruct head_first as (c & t & -> & Hc & H1 & _). exists c.
  unfold first_ns, lstrip. cbn [dropwhile]. rewrite Hc. auto.
Qed.

End Head.

Lemma lower_no_space (n : str) : ident n = true -> ~ In " "%char (lower n).
Proof.
  intros H. apply ident_no; [apply ident_lower; exact H | reflexivity].
Qed.

Lemma split_all_lead (c : ascii) (y : str) :
  split_all c (c :: y) = [] :: split_all c y.
Proof. exact (split_all_cut c [] y (fun H => H)). Qed.

Lemma lower_app (a b : str) : lower (a ++ b) = lower a ++ lower b.
Proof. apply map_app. Qed.

Lemma lower_cons_space (x : str) : lower (" "%char :: x) = " "%char :: lower x.
Proof. reflexivity. Qed.

(** The words of the first line: the name and [as]. *)
Lemma head_words (pre n : str) :
  pre = [] \/ pre = lit ", " -> wf_name n ->
  filter nonempty
    (split_all " "%char (lower (strip_commas (strip (pre ++ cte_head n))))) =
  [lower n; lit "as"].
Proof.
  intros Hpre Hn. rewrite (head_strip pre n Hpre Hn).
  destruct Hn as (Hne & Hi & _).
  assert (Hw : split_all " "%char (lower n ++ " "%char :: lit "as") =
               [lower n; lit "as"]).
  { rewrite split_all_cut by (apply lower_no_space; exact Hi). reflexivity. }
  assert (Hl : nonempty (lower n) = true) by (destruct n; [congruence | reflexivity]).
  unfold strip_commas, cte_head.
  replace (pre ++ n ++ lit " as") with ((pre ++ n ++ lit " a") ++ ["s"%char])
    by (rewrite <- !app_assoc; reflexivity).
  rewrite rdrop_snoc by reflexivity. rewrite <- !app_assoc.
  destruct Hpre as [-> | ->].
  - destruct n as [|c n']; [congruence|]. cbn in Hi.
    apply andb_true_iff in Hi as [Hc Hi].
    destruct (ident_char_plain c Hc) as (_ & _ & H1 & _).
    cbn [app dropwhile]. rewrite H1.
    change (c :: n' ++ lit " a" ++ ["s"%char])
      with ((c :: n') ++ " "%char :: lit "as").
    rewrite lower_app. change (lower (" "%char :: lit "as")) with (" "%char :: lit "as").
    rewrite Hw. cbn [filter]. rewrite Hl. reflexivity.
  - cbn [app dropwhile lit list_ascii_of_string Ascii.eqb Bool.eqb].
    change (" "%char :: n ++ [" "%char; "a"%char] ++ ["s"%char])
      with (" "%char :: n ++ " "%char :: lit "as").
    rewrite lower_cons_space, lower_app.
    change (lower [" "%char; "a"%char; "s"%char]) with (" "%char :: lit "as").
    rewrite split_all_lead, Hw.
    cbn [filter nonempty]. rewrite Hl. reflexivity.
Qed.

(** *** The block of a CTE *)

Lemma block_lines (h inner : str) :
  ~ In nl h ->
  split_all nl (cte_block h inner) =
  h :: (lit "(" :: split_all nl inner) ++ [lit ")"].
Proof.
  intros Hh. unfold cte_block, cte_body.
  rewrite split_all_cut by exact Hh.
  change ("("%char :: nl :: inner ++ [nl; ")"%char])
    with (lit "(" ++ nl :: inner ++ nl :: lit ")").
  rewrite split_all_cut by (intros [H|[]]; discriminate H).
  rewrite split_all_snoc by (intros [H|[]]; discriminate H).
  reflexivity.
Qed.

Lemma block_only_lf (h inner : str) :
  only_lf h = true -> only_lf inner = true ->
  only_lf (cte_block h inner) = true.
Proof.
  intros Hh Hi. unfold cte_block, cte_body.
  change (h ++ nl :: "("%char :: nl :: inner ++ [nl; ")"%char])
    with (h ++ [nl; "("%char; nl] ++ inner ++ [nl; ")"%char]).
  rewrite !only_lf_app, Hh, Hi. reflexivity.
Qed.

Lemma clean_query_block (pre n inner : str) :
  pre = [] \/ pre = lit ", " -> wf_name n -> only_lf inner = true ->
  clean_query (cte_block (pre ++ cte_head n) inner) =
  Ok ((pre ++ cte_head n) ++
      nl :: join [nl] ((lit "(" :: map rstrip (split_all nl inner)) ++ [lit ")"])
      ++ [nl]).
Proof.
  intros Hpre Hn Hi. set (h := pre ++ cte_head n).
  pose proof (head_no_nl pre n Hpre Hn) as Hnl. fold h in Hnl.
  pose proof (block_lines h inner Hnl) as HL.
  set (M := lit "(" :: split_all nl inner) in *.
  assert (HT : trimmed_lines h M (lit ")")).
  { split; [|split].
    - rewrite <- HL. apply split_all_lines.
    - apply head_skippable; assumption.
    - reflexivity. }
  assert (Hlf : Forall (fun x => only_lf x = true) (h :: M ++ [lit ")"])).
  { pose proof (only_lf_split (cte_block h inner)
                  (block_only_lf h inner (head_only_lf pre n Hpre Hn) Hi)) as H.
    rewrite HL in H. exact H. }
  rewrite <- (join_split_all nl (cte_block h inner)), HL.
  unfold clean_query. rewrite (trim_lines_id _ _ _ HT). cbn [bind].
  unfold unwrap. rewrite wrapped_ns, join_cons, first_ns_app.
  destruct (head_first_ns pre n Hpre Hn) as (c & Hc & Hpar). fold h in Hc.
  rewrite Hc, Hpar. cbn [andb bind]. rewrite <- join_cons.
  rewrite finish_lines; [| discriminate | | apply HT | exact Hlf].
  - rewrite map_rstrip_lines. fold h. unfold h at 1.
    rewrite (head_rstrip pre n), join_cons. fold h.
    rewrite <- app_assoc. reflexivity.
  - rewrite app_comm_cons, last_snoc. discriminate.
Qed.

Lemma join_ends (sep : str) (L : list str) (l : str) :
  exists Y, join sep (L ++ [l]) = Y ++ l.
Proof.
  destruct L as [|x L].
  - exists []. reflexivity.
  - rewrite join_snoc by discriminate. exists (join sep (x :: L) ++ sep).
    rewrite <- app_assoc. reflexivity.
Qed.

(** The second call of [clean_query], on the lines after the first. *)
Lemma clean_query_body (M : list str) :
  Forall (fun x => ~ In nl x) M ->
  exists c, clean_query (join [nl] ((lit "(" :: M) ++ [lit ")"]) ++ [nl]) = Ok c.
Proof.
  intros HM.
  assert (HT : trimmed_lines (lit "(") M (lit ")")).
  { split; [|split; reflexivity].
    constructor; [intros [H|[]]; discriminate H|].
    apply Forall_app. split; [exact HM|].
    constructor; [intros [H|[]]; discriminate H | constructor]. }
  unfold clean_query. cbn [app]. rewrite (trim_lines_trimmed _ _ _ HT).
  cbn [bind]. unfold unwrap.
  destruct (wrapped _); [|cbn [bind]; eauto].
  rewrite join_cons. destruct (join_ends [nl] M (lit ")")) as (Y & ->).
  assert (Es : strip (lit "(" ++ nl :: Y ++ lit ")") =
               "("%char :: (nl :: Y) ++ [")"%char]).
  { unfold strip.
    replace (lit "(" ++ nl :: Y ++ lit ")")
      with ((lit "(" ++ nl :: Y) ++ [")"%char])
      by (rewrite <- app_assoc; reflexivity).
    rewrite rstrip_snoc by reflexivity. reflexivity. }
  rewrite Es. unfold slice_1_m1. cbn [tl]. rewrite removelast_last.
  cbn [getitem nth_error bind]. rewrite Ascii.eqb_refl. cbn [bind]. eauto.
Qed.

Lemma name_not_final (n : str) :
  wf_name n ->
  str_eqb (lower n) (lit "{{") || str_eqb (lower n) (lit "select") = false.
Proof.
  intros (_ & Hi & Hs). apply orb_false_iff. split.
  - destruct (str_eqb (lower n) (lit "{{")) eqn:E; [|reflexivity].
    apply str_eqb_eq in E. apply ident_lower in Hi. rewrite E in Hi.
    discriminate Hi.
  - destruct (str_eqb (lower n) (lit "select")) eqn:E; [|reflexivity].
    apply str_eqb_eq in E. contradiction.
Qed.

(** The block of a CTE is classified as intermediate. *)
Lemma init_intermediate (pre n inner base_script final_script : str) :
  pre = [] \/ pre = lit ", " -> wf_name n -> only_lf inner = true ->
  exists e,
    SmallScript_init (cte_block (pre ++ cte_head n) inner)
      base_script final_script = Ok e /\
    is_intermediate e = true.
Proof.
  intros Hpre Hn Hi. unfold SmallScript_init.
  rewrite (clean_query_block pre n inner Hpre Hn Hi). cbn [bind].
  unfold partition_nl.
  rewrite (cut_first_app nl _ _ (head_no_nl pre n Hpre Hn)).
  rewrite (head_words pre n Hpre Hn). cbn [getitem nth_error bind].
  rewrite (name_not_final n Hn).
  destruct (clean_query_body (map rstrip (split_all nl inner))) as (c & Hc).
  { apply Forall_map. eapply Forall_impl; [|apply split_all_lines].
    intros x. apply notin_rstrip. }
  rewrite Hc. cbn [bind]. eexists. split; reflexivity.
Qed.

(** *** The block of the final query *)

Lemma blank_prefix (r r1 r2 : str) :
  r = [] \/ (exists z, r = " "%char :: z) -> r = r1 ++ r2 ->
  r1 = [] \/ exists z, r1 = " "%char :: z.
Proof.
  intros Hr E. destruct r1 as [|c r1]; [left; reflexivity|]. right.
  destruct Hr as [-> | [z ->]]; [discriminate E|].
  injection E as <- _. eauto.
Qed.

(** A letter of [select], in either case, is no whitespace, no comma and no
    parenthesis. *)
Lemma select_char (c : ascii) :
  existsb (Ascii.eqb (lower_char c)) (lit "select") = true ->
  is_space c = false /\ Ascii.eqb ","%char c = false /\
  Ascii.eqb "("%char c = false.
Proof.
  destruct c as [[] [] [] [] [] [] [] []]; vm_compute; intros H;
    first [discriminate H | repeat split].
Qed.

(** The first word of the first line of the final query. *)
Lemma final_words (sel r : str) :
  lower sel = lit "select" ->
  r = [] \/ (exists z, r = " "%char :: z) ->
  exists ws,
    filter nonempty
      (split_all " "%char (lower (strip_commas (strip (sel ++ r))))) =
    lit "select" :: ws.
Proof.
  intros Hsel Hr.
  destruct sel as [|c1 [|c2 [|c3 [|c4 [|c5 [|c6 [|c7 sel]]]]]]];
    try discriminate Hsel.
  pose proof Hsel as Hchars.
  cbn [lower map lit list_ascii_of_string] in Hchars.
  injection Hchars as H1 _ _ _ _ H6.
  destruct (select_char c1) as (S1 & K1 & _); [rewrite H1; reflexivity|].
  destruct (select_char c6) as (S6 & K6 & _); [rewrite H6; reflexivity|].
  unfold strip, rstrip.
  change ([c1; c2; c3; c4; c5; c6] ++ r)
    with (([c1; c2; c3; c4; c5] ++ [c6]) ++ r).
  destruct (rdrop_keep is_space [c1; c2; c3; c4; c5] c6 r S6)
    as (r1 & r2 & E1 & ->).
  pose proof (blank_prefix r r1 r2 Hr E1) as Hr1.
  unfold lstrip. cbn [app dropwhile]. rewrite S1.
  unfold strip_commas.
  change (c1 :: c2 :: c3 :: c4 :: c5 :: c6 :: r1)
    with (([c1; c2; c3; c4; c5] ++ [c6]) ++ r1).
  destruct (rdrop_keep (Ascii.eqb ","%char) [c1; c2; c3; c4; c5] c6 r1 K6)
    as (r3 & r4 & E3 & ->).
  pose proof (blank_prefix r1 r3 r4 Hr1 E3) as Hr3.
  cbn [app dropwhile]. rewrite K1.
  change (c1 :: c2 :: c3 :: c4 :: c5 :: c6 :: r3)
    with ([c1; c2; c3; c4; c5; c6] ++ r3).
  rewrite lower_app, Hsel.
  destruct Hr3 as [-> | [z ->]].
  - exists []. reflexivity.
  - rewrite lower_cons_space, split_all_cut.
    + cbn [filter nonempty lit list_ascii_of_string]. eauto.
    + cbn. intros H. repeat (destruct H as [H|H]; [discriminate H|]). exact H.
Qed.

Lemma first_ns_select (sel r : str) :
  lower sel = lit "select" ->
  exists c, first_ns (sel ++ r) = Some c /\ Ascii.eqb "("%char c = false.
Proof.
  intros Hsel. destruct sel as [|c1 sel]; [discriminate Hsel|].
  cbn [lower map lit list_ascii_of_string] in Hsel. injection Hsel as H1 _.
  destruct (select_char c1) as (S1 & _ & P1); [rewrite H1; reflexivity|].
  exists c1. unfold first_ns, lstrip. cbn [app dropwhile]. rewrite S1. auto.
Qed.

(** The block of the final query is classified as final. *)
Lemma init_final (fin base_script final_script : str) :
  wf_final fin ->
  exists e,
    SmallScript_init (nl :: fin) base_script final_script = Ok e /\
    is_intermediate e = false.
Proof.
  intros ((G & Q & -> & HG & (sel & r & M & l & T & -> & Hsel & Hr & HT & HTl)
           & _) & Hlf & _).
  set (f := sel ++ r) in *.
  destruct (trimmed_lines_ends _ _ _ HT) as [Hf Hl].
  assert (Hlines : Forall (fun x => only_lf x = true) (f :: M ++ [l])).
  { rewrite only_lf_app in Hlf. apply andb_true_iff in Hlf as [_ Hlf].
    apply only_lf_split in Hlf. rewrite split_all_join in Hlf.
    - rewrite lines_tail in Hlf. apply Forall_app in Hlf. tauto.
    - discriminate.
    - rewrite lines_tail. apply Forall_app. split; [apply HT|].
      eapply Forall_impl; [|exact HTl]. intros t Ht. apply Ht. }
  assert (Hlast : last (f :: M ++ [l]) [] <> []).
  { rewrite app_comm_cons, last_snoc. intros ->.
    destruct HT as (_ & _ & Sl). discriminate Sl. }
  unfold SmallScript_init, clean_query.
  match goal with
  | |- context [trim_lines ?x] =>
      replace (trim_lines x) with (Ok (join [nl] (f :: M ++ [l])))
        by (symmetry; exact (trim_lines_lead G f M l T HG HT HTl))
  end.
  cbn [bind]. unfold unwrap. rewrite wrapped_ns, join_cons, first_ns_app.
  destruct (first_ns_select sel r Hsel) as (c & Hc & Hpar). fold f in Hc.
  rewrite Hc, Hpar. cbn [andb bind].
  rewrite <- join_cons.
  rewrite finish_lines; [| discriminate | exact Hlast | apply HT | exact Hlines].
  rewrite map_rstrip_lines, join_cons, <- app_assoc. cbn [app].
  unfold partition_nl.
  rewrite (cut_first_app nl _ _ (notin_rstrip nl f Hf)), strip_rstrip.
  destruct (final_words sel r Hsel Hr) as (ws & Hws). unfold f at 1. rewrite Hws.
  cbn [getitem nth_error bind]. eexists. split; reflexivity.
Qed.

(** ** The blocks and the entities of a source in the layout *)

Lemma later_block_intermediate (c : str * str) (base_script final_script : str) :
  wf_cte c ->
  exists e, SmallScript_init (later_block c) base_script final_script = Ok e /\
    is_intermediate e = true.
Proof.
  intros [Hn (Hi & _)].
  exact (init_intermediate (lit ", ") (fst c) (snd c) base_script final_script
           (or_intror eq_refl) Hn Hi).
Qed.

Lemma classify_blocks (fin base_script final_script : str) :
  wf_final fin -> forall bs,
  Forall (fun b => exists e,
            SmallScript_init b base_script final_script = Ok e /\
            is_intermediate e = true) bs ->
  exists es,
    small_scripts (bs ++ [nl :: fin]) base_script final_script = Ok es /\
    map is_intermediate es = repeat true (List.length bs) ++ [false].
Proof.
  intros Hfin. induction bs as [|b bs IH]; intros Hbs.
  - destruct (init_final fin base_script final_script Hfin) as (e & He & Hi).
    exists [e]. cbn [app small_scripts]. rewrite He. cbn. rewrite Hi. auto.
  - inversion Hbs as [|? ? (e & He & Hi) Hbs']; subst.
    destruct (IH Hbs') as (es & Hes & Hmap).
    exists (e :: es). cbn [app small_scripts]. rewrite He. cbn [bind].
    rewrite Hes. cbn [bind map List.length repeat app]. rewrite Hi, Hmap. auto.
Qed.

(** C5, as the code has it.  A source in the layout shown above, with a
    first CTE and [length cs] later ones.  The configuration text holds no
    line feed followed by [with ]; the names are identifiers other than
    [select]; the line feed is the only line boundary of the bodies and of
    what follows the last CTE.  Outside the lines [, name as] of the layout
    the pattern of line 136 finds no place to split ([marker_point]), and
    the pattern of line 157 finds none in a body or in the final query
    ([split_point]).  The final query may follow empty lines and [--]
    comments; it starts with [select] in any case and has two lines at
    least before the blank and comment lines that may end it.
    Segmentation returns the configuration text and one block for each CTE
    and one for the final query, and classification finds every block but
    the last one intermediate.  (The name of the initial script holds no
    metacharacter: line 51 compiles it into the rule of the final
    entity.) *)
Theorem layout_blocks_and_entities (cfg : str) (c1 : str * str)
    (cs : list (str * str)) (fin base_script final_script : str) :
  no_meta base_script = true ->
  wf_config cfg -> wf_cte c1 -> Forall wf_cte cs -> wf_final fin ->
  exists blocks entities,
    get_individual_scripts_and_dbt_config (layout cfg c1 cs fin) =
      Ok (blocks, cfg) /\
    List.length blocks = S (List.length (c1 :: cs)) /\
    small_scripts blocks base_script final_script = Ok entities /\
    map is_intermediate entities =
      repeat true (List.length (c1 :: cs)) ++ [false].
Proof.
  intros _ Hcfg Hc1 Hcs Hfin.
  destruct (classify_blocks fin base_script final_script Hfin
              (cte_block (cte_head (fst c1)) (snd c1) :: map later_block cs))
    as (es & Hes & Hmap).
  { constructor.
    - destruct Hc1 as [Hn (Hi & _)].
      exact (init_intermediate [] (fst c1) (snd c1) base_script final_script
               (or_introl eq_refl) Hn Hi).
    - apply Forall_map. eapply Forall_impl; [|exact Hcs].
      intros c. apply later_block_intermediate. }
  exists (blocks_of c1 cs fin), es.
  split; [apply segmentation; assumption|].
  split; [unfold blocks_of; cbn [List.length];
          rewrite length_app, length_map; cbn [List.length]; lia|].
  split; [exact Hes|].
  cbn [List.length] in Hmap |- *. rewrite length_map in Hmap. exact Hmap.
Qed.

Lemma layout_blocks_and_entities_witness :
  layout (py "{{ config() }}") (lit "a", py " select 1\n from t")
    [(lit "b", py " select x\n from a")] (py "-- last\nSELECT *\nFROM b") =
  py "{{ config() }}\nwith a as\n(\n select 1\n from t\n)\n, b as\n(\n select x\n from a\n)\n-- last\nSELECT *\nFROM b" /\
  exists blocks entities,
    get_individual_scripts_and_dbt_config
      (layout (py "{{ config() }}") (lit "a", py " select 1\n from t")
         [(lit "b", py " select x\n from a")] (py "-- last\nSELECT *\nFROM b")) =
      Ok (blocks, py "{{ config() }}") /\
    List.length blocks = 3 /\
    small_scripts blocks (lit "big") (lit "out") = Ok entities /\
    map is_intermediate entities = [true; true; false].
Proof.
  split; [reflexivity|].
  apply (layout_blocks_and_entities (py "{{ config() }}")
           (lit "a", py " select 1\n from t")
           [(lit "b", py " select x\n from a")] (py "-- last\nSELECT *\nFROM b")
           (lit "big") (lit "out")).
  - reflexivity.
  - split; [|apply (fun H => proj2 (no_comma_line_no_marker_point _ H))];
      apply no_occ_by_search; solve [discriminate | vm_compute; reflexivity].
  - split; [repeat split; try discriminate|].
    split; [reflexivity|].
    split; [apply (fun H => proj1 (no_comma_line_no_marker_point _ H))
           | apply no_select_line_no_split_point];
      apply no_occ_by_search; solve [discriminate | vm_compute; reflexivity].
  - constructor; [|constructor].
    split; [repeat split; try discriminate|].
    split; [reflexivity|].
    split; [apply (fun H => proj1 (no_comma_line_no_marker_point _ H))
           | apply no_select_line_no_split_point];
      apply no_occ_by_search; solve [discriminate | vm_compute; reflexivity].
  - split; [|split; [reflexivity|]].
    + exists (py "-- last\n"), (py "SELECT *\nFROM b").
      split; [reflexivity|]. split; [|split].
      * apply (cl_cons (lit "-- last") []); [|constructor].
        right. exists [], (lit " last"). split; [reflexivity|].
        split; [reflexivity|]. intros H. cbn in H.
        repeat (destruct H as [H|H]; [discriminate H|]). exact H.
      * exists (lit "SELECT"), (lit " *"), [], (lit "FROM b"), [].
        split; [reflexivity|]. split; [reflexivity|].
        split; [right; eexists; reflexivity|].
        split; [|constructor].
        split; [|split; reflexivity].
        repeat constructor; intros H; cbn in H;
          repeat (destruct H as [H|H]; [discriminate H|]); exact H.
      * apply no_select_line_no_split_point.
        apply no_occ_by_search; solve [discriminate | vm_compute; reflexivity].
    + apply (fun H => proj1 (no_comma_line_no_marker_point _ H)).
      apply no_occ_by_search; solve [discriminate | vm_compute; reflexivity].
Defined.

(** C5, as the specification has it, fails.  On the source that the
    specification gives as its example, two CTEs on one line, the
    segmenter raises [ValueError]: no line starts with [with ] after a line
    feed.  With a configuration line in front it returns two blocks where
    three are promised, since no line starts with a comma, and the
    classifier raises [IndexError] on the first of them, which is a
    single line.  With the second CTE on a line of its own, after a comma,
    three blocks are returned, and the classifier raises as well. *)
Lemma one_line_ctes_are_not_split :
  get_individual_scripts_and_dbt_config
    (py "with a as (select 1), b as (select * from a)\nselect * from b") =
    Raise ValueError /\
  get_individual_scripts_and_dbt_config
    (py "{{ config() }}\nwith a as (select 1), b as (select * from a)\nselect * from b") =
    Ok ([lit "a as (select 1), b as (select * from a)"; py "\nselect * from b"],
        py "{{ config() }}") /\
  SmallScript_init (lit "a as (select 1), b as (select * from a)")
    (lit "big") (lit "out") = Raise IndexError /\
  get_individual_scripts_and_dbt_config
    (py "{{ config() }}\nwith a as (select 1)\n, b as (select * from a)\nselect * from b") =
    Ok ([lit "a as (select 1)"; py ", b as \n(select * from a)";
         py "\nselect * from b"], py "{{ config() }}") /\
  small_scripts
    [lit "a as (select 1)"; py ", b as \n(select * from a)";
     py "\nselect * from b"] (lit "big") (lit "out") = Raise IndexError.
Proof. repeat split; vm_compute; reflexivity. Qed.

(** * Further properties of the code *)

(** ** The Text Normalizer *)

(** X1. A text without a line feed makes [clean_query] raise [IndexError]:
    one of the loops reads [split_script[1]] of a one-item list. *)
Theorem clean_query_without_line_feed (x : str) :
  ~ In nl x -> clean_query x = Raise IndexError.
Proof.
  intros Hx. unfold clean_query, trim_lines.
  assert (Hs : clean_start (List.length x) x = Raise IndexError \/
               clean_start (List.length x) x = Ok x).
  { destruct (List.length x); cbn [clean_start]; unfold split1;
      rewrite (cut_first_notin nl x Hx); cbn [getitem nth_error bind];
      destruct (skippable (strip x)); cbn [bind]; auto. }
  destruct Hs as [-> | ->]; cbn [bind]; [reflexivity|].
  destruct (List.length x); cbn [clean_end]; unfold rsplit1;
    rewrite (cut_last_notin nl x Hx); reflexivity.
Qed.

Lemma clean_query_without_line_feed_witness :
  clean_query (lit "select 1 from t") = Raise IndexError.
Proof.
  apply clean_query_without_line_feed. intros H. cbn in H.
  repeat (destruct H as [H|H]; [discriminate H|]). exact H.
Defined.

(** X2. [clean_query] returns a text or raises [IndexError], whatever the
    text: both loops end, and no other exception leaves the call. *)
Theorem clean_query_returns_or_index_error (x : str) :
  (exists r, clean_query x = Ok r) \/ clean_query x = Raise IndexError.
Proof.
  destruct (clean_query_cases x) as [H|H]; [right | left]; exact H.
Qed.

Lemma clean_start_all_skippable : forall fuel x,
  List.length x <= fuel ->
  Forall (fun l => skippable (strip l) = true) (split_all nl x) ->
  clean_start fuel x = Raise IndexError.
Proof.
  induction fuel as [|fuel IH]; intros x Hlen Hall.
  - destruct x; [|cbn in Hlen; lia]. cbn in Hall. inversion Hall as [|? ? H _]; subst.
    cbn [clean_start]. unfold split1. cbn [cut_first getitem nth_error bind].
    rewrite H. reflexivity.
  - cbn [clean_start]. unfold split1.
    destruct (cut_first nl x) as [[a b]|] eqn:E.
    + apply cut_first_Some in E as [-> Ha].
      rewrite split_all_cut in Hall by exact Ha.
      inversion Hall as [|? ? H Hb]; subst.
      cbn [getitem nth_error bind]. rewrite H. apply IH; [|exact Hb].
      rewrite length_app in Hlen. cbn in Hlen. lia.
    + apply cut_first_None in E. rewrite split_all_notin in Hall by exact E.
      inversion Hall as [|? ? H _]; subst.
      cbn [getitem nth_error bind]. rewrite H. reflexivity.
Qed.

(** X3. A text that holds nothing but blank lines and line comments makes
    [clean_query] raise [IndexError]: the first loop runs out of lines. *)
Theorem clean_query_nothing_but_comments (x : str) :
  Forall (fun l => skippable (strip l) = true) (split_all nl x) ->
  clean_query x = Raise IndexError.
Proof.
  intros H. unfold clean_query, trim_lines.
  rewrite (clean_start_all_skippable _ _ (le_n _) H). reflexivity.
Qed.

Lemma clean_query_nothing_but_comments_witness :
  clean_query (py "\n  -- a comment\n// another\n   \n") = Raise IndexError.
Proof.
  apply clean_query_nothing_but_comments.
  assert (E : split_all nl (py "\n  -- a comment\n// another\n   \n") =
              [[]; lit "  -- a comment"; lit "// another"; lit "   "; []])
    by (vm_compute; reflexivity).
  rewrite E. repeat (constructor; [vm_compute; reflexivity|]). constructor.
Defined.

(** X4. The text that [clean_query] returns has the line feed as its only
    line boundary, and none of its lines ends with whitespace. *)
Theorem clean_query_lines_are_stripped (x r : str) :
  clean_query x = Ok r ->
  only_lf r = true /\ forall l, In l (split_all nl r) -> rstrip l = l.
Proof.
  unfold clean_query. destruct (trim_lines x) as [q|]; [|discriminate].
  cbn [bind]. destruct (unwrap q) as [q'|]; [|discriminate]. cbn [bind].
  intros H. injection H as <-. unfold finish.
  pose proof (splitlines_aux_pieces _ q' [] (le_n _) eq_refl) as HP.
  fold (splitlines q') in HP. set (P := splitlines q') in *. clearbody P.
  assert (HL : Forall (fun l => no_linebreak l = true /\ rstrip l = l)
                 (map rstrip P)).
  { apply Forall_map. eapply Forall_impl; [|exact HP]. intros p Hp.
    split; [apply no_linebreak_rstrip; exact Hp | apply rstrip_idem]. }
  set (L := map rstrip P) in *. clearbody L. split.
  - rewrite only_lf_app, only_lf_join; [reflexivity|].
    eapply Forall_impl; [|exact HL]. intros l [Hl _].
    apply no_linebreak_only_lf. exact Hl.
  - intros l Hl. destruct L as [|l0 L]; [cbn in Hl; intuition (subst; reflexivity)|].
    assert (E : join [nl] (l0 :: L) ++ [nl] = join [nl] ((l0 :: L) ++ [[]])).
    { rewrite join_snoc by discriminate. reflexivity. }
    rewrite E, split_all_join in Hl.
    + apply in_app_or in Hl as [Hl|[<-|[]]]; [|reflexivity].
      rewrite Forall_forall in HL. apply (HL l Hl).
    + discriminate.
    + apply Forall_app. split; [|repeat constructor; intros []].
      eapply Forall_impl; [|exact HL]. intros y [Hy _].
      apply no_linebreak_only_lf. exact Hy.
Qed.

Lemma clean_query_lines_are_stripped_witness :
  only_lf (py "select 1\n from t\n") = true /\
  forall l, In l (split_all nl (py "select 1\n from t\n")) -> rstrip l = l.
Proof.
  apply (clean_query_lines_are_stripped (py "\n(select 1  \r\n from t\t\n)\n")
           (py "select 1\n from t\n")).
  vm_compute. reflexivity.
Defined.

(** ** The Block Classifier *)

Lemma split_all_incl (c : ascii) (s : str) :
  forall w, In w (split_all c s) -> forall x, In x w -> In x s.
Proof.
  induction s as [|y s IH]; intros w Hw x Hx; cbn [split_all] in Hw.
  - destruct Hw as [<-|[]]. exact Hx.
  - destruct (Ascii.eqb y c).
    + destruct Hw as [<-|Hw]; [destruct Hx|]. right. exact (IH w Hw x Hx).
    + destruct (split_all c s) as [|l ls] eqn:E.
      * destruct Hw as [<-|[]]. destruct Hx as [<-|[]]. left. reflexivity.
      * destruct Hw as [<-|Hw].
        -- destruct Hx as [<-|Hx]; [left; reflexivity|].
           right. apply (IH l); [left; reflexivity | exact Hx].
        -- right. apply (IH w); [right; exact Hw | exact Hx].
Qed.

Lemma lower_char_idem (c : ascii) : lower_char (lower_char c) = lower_char c.
Proof. destruct c as [[] [] [] [] [] [] [] []]; vm_compute; reflexivity. Qed.

Lemma lower_fixed (s : str) :
  (forall x, In x s -> lower_char x = x) -> lower s = s.
Proof.
  induction s as [|c s IH]; intros H; [reflexivity|]. cbn [lower map].
  rewrite (H c (or_introl eq_refl)). f_equal. apply IH. intros x Hx.
  apply H. right. exact Hx.
Qed.

(** The words of a first line: none is empty, none holds a blank, and all
    are in lower case. *)
Lemma first_words_shape (line : str) (w : str) :
  In w (filter nonempty (split_all " "%char (lower line))) ->
  w <> [] /\ lower w = w /\ ~ In " "%char w.
Proof.
  intros H. apply filter_In in H as [Hw Hne]. split; [|split].
  - intros ->. discriminate Hne.
  - apply lower_fixed. intros x Hx.
    pose proof (split_all_incl _ _ w Hw x Hx) as Hin.
    apply in_map_iff in Hin as (y & <- & _). apply lower_char_idem.
  - pose proof (split_all_lines " "%char (lower line)) as Hall.
    rewrite Forall_forall in Hall. exact (Hall w Hw).
Qed.

(** X5. The name that the classifier reads off the first line of an
    intermediate block is a word in lower case, whatever the case of the
    source, and the new name is the final name, an underscore and that
    word; a first line that is the single word [with] gives no name, and
    the new name ends with [None]. *)
Theorem intermediate_name_is_lower_word
    (old_script base_script final_script : str) (e : SmallScript) :
  SmallScript_init old_script base_script final_script = Ok e ->
  is_intermediate e = true ->
  match old_name e with
  | Some n =>
      n <> [] /\ lower n = n /\ ~ In " "%char n /\
      new_name e = final_script ++ lit "_" ++ n
  | None => new_name e = final_script ++ lit "_None"
  end.
Proof.
  unfold SmallScript_init.
  destruct (clean_query old_script) as [cs|]; [|discriminate]. cbn [bind].
  destruct (partition_nl cs) as [fl ol].
  pose proof (first_words_shape (strip_commas (strip fl))) as Hshape.
  destruct (filter nonempty _) as [|fw ws]; [discriminate|].
  cbn [getitem nth_error bind].
  destruct (str_eqb fw (lit "{{") || str_eqb fw (lit "select")).
  - cbn [bind]. intros H. injection H as <-. discriminate.
  - destruct (clean_query ol) as [c|]; [|discriminate]. cbn [bind].
    intros H _. injection H as <-. cbn [old_name new_name].
    match goal with |- context [negb ?b] => destruct (negb b) end.
    + destruct (Hshape fw (or_introl eq_refl)) as (H1 & H2 & H3).
      repeat split; assumption.
    + destruct ws as [|sw ws]; [reflexivity|].
      destruct (Hshape sw (or_intror (or_introl eq_refl))) as (H1 & H2 & H3).
      repeat split; assumption.
Qed.

Lemma intermediate_name_is_lower_word_witness :
  match old_name (get_entity (SmallScript_init (py ", MyTable AS\n(\n select 1\n from t\n)")
                                (lit "big") (lit "out"))) with
  | Some n =>
      n <> [] /\ lower n = n /\ ~ In " "%char n /\
      new_name (get_entity (SmallScript_init (py ", MyTable AS\n(\n select 1\n from t\n)")
                              (lit "big") (lit "out"))) =
        lit "out" ++ lit "_" ++ n
  | None =>
      new_name (get_entity (SmallScript_init (py ", MyTable AS\n(\n select 1\n from t\n)")
                              (lit "big") (lit "out"))) = lit "out" ++ lit "_None"
  end.
Proof.
  apply (intermediate_name_is_lower_word
           (py ", MyTable AS\n(\n select 1\n from t\n)") (lit "big") (lit "out"));
    vm_compute; reflexivity.
Defined.

(** ** The Config Transformer *)

(** A disabled flag is never the text that replaces it: the replacement has
    one blank on each side of [=] and ends with [true]. *)
Lemma enabled_false_not_true (u R X : str) :
  enabled_false u -> u ++ R <> lit "enabled = true" ++ X.
Proof.
  intros (b1 & b2 & -> & H1 & H2) E.
  rewrite <- !app_assoc in E.
  change (lit "enabled = true") with (lit "enabled" ++ lit " = true") in E.
  rewrite <- app_assoc in E. apply app_inv_head in E.
  destruct b1 as [|x [|y b1]]; cbn in E; [discriminate E | |].
  - injection E as _ E.
    destruct b2 as [|z [|z' b2]]; cbn in E; [discriminate E | |].
    + injection E as _ E. discriminate E.
    + injection E as _ E _.
      assert (Hz : z' = " "%char).
      { apply (blanks_In _ _ H2). right. left. reflexivity. }
      congruence.
  - injection E as _ E _.
    assert (Hy : y = " "%char).
    { apply (blanks_In _ _ H1). right. left. reflexivity. }
    congruence.
Qed.

(** X6. The Enable operation returns its argument unchanged exactly when
    the configuration holds no disabled flag ([enabled], [=] and [false],
    blanks allowed around [=]). *)
Theorem enable_changes_exactly_disabled (s : str) :
  dbt_cfg_enable_table s = s <-> (forall u, enabled_false u -> ~ occ u s).
Proof.
  split.
  - intros Heq u Hu (a & b & Es).
    assert (Hhit : hit enable_r (rev a ++ []) ((u ++ b) ++ []) <> None).
    { rewrite (app_nil_r (u ++ b)). exact (hit_enable_complete u _ b Hu). }
    unfold dbt_cfg_enable_table in Heq.
    destruct (re_search enable_r s) eqn:Er.
    + rewrite re_sub_sub_from in Heq.
      destruct (sub_from_first enable_r (lit "enabled = true") s [])
        as [[Hq _]|(c & M & caps & rest' & E & HM & _ & Hh & Hs)].
      * apply Hhit. apply Hq; [exact Es | destruct u; [|discriminate]].
        destruct Hu as (b1 & b2 & Hu & _). destruct b1; discriminate Hu.
      * rewrite Hs in Heq. rewrite E in Heq.
        apply app_inv_head in Heq.
        apply hit_enable_sound in Hh as (u' & rest2 & Hu' & E' & Hl).
        apply app_inj_length in E' as [-> _]; [|exact Hl].
        symmetry in Heq. exact (enabled_false_not_true _ _ _ Hu' Heq).
    + apply re_search_None in Er. apply Hhit. apply Er; [exact Es|].
      destruct Hu as (b1 & b2 & -> & _). discriminate.
  - intros H. unfold dbt_cfg_enable_table.
    rewrite (re_search_enable_None s H). reflexivity.
Qed.

(** The text that [dbt_cfg_add_drop] builds in its loop. *)
Lemma post_string_drops (sp : str) (scripts : list SmallScript) : forall acc,
  fold_left (fun acc scr =>
      if is_intermediate scr
      then acc ++ lit "'drop table " ++ new_reference scr ++ lit "'," ++ sp
      else acc) scripts acc =
  acc ++ drop_statements sp scripts.
Proof.
  induction scripts as [|scr scripts IH]; intros acc; cbn [fold_left].
  - cbn. rewrite app_nil_r. reflexivity.
  - rewrite IH. unfold drop_statements. cbn [flat_map].
    destruct (is_intermediate scr); [|reflexivity].
    rewrite <- !app_assoc. reflexivity.
Qed.

Lemma post_hook_open_nonempty (u : str) : post_hook_open u -> u <> [].
Proof. intros (w1 & w2 & -> & _). discriminate. Qed.

Lemma re_search_post_Some (text u : str) :
  post_hook_open u -> occ u text -> re_search post_r text <> None.
Proof.
  intros Hu Hocc Hn.
  exact (proj1 (re_search_post_None text) Hn u Hu Hocc).
Qed.

(** Where an opening of a hook list occurs, the operation returns, and the
    text that it returns holds the opening that it writes. *)
Lemma add_drop_ok (dbt_config u : str) (scripts : list SmallScript) :
  post_hook_open u -> occ u dbt_config ->
  exists c, dbt_cfg_add_drop dbt_config scripts = Ok c /\
    occ (lit "post_hook = [") c.
Proof.
  intros Hu Hocc. unfold dbt_cfg_add_drop.
  pose proof (re_search_post_Some _ _ Hu Hocc) as Hs.
  destruct (re_search post_r dbt_config) as [[t caps]|] eqn:Er; [|congruence].
  eexists. split; [reflexivity|].
  rewrite post_string_drops, re_sub_sub_from.
  match goal with
  | |- occ _ (sub_from _ ?repl _ _) =>
      destruct (sub_from_first post_r repl dbt_config [])
        as [[Hq _]|(c & M & caps' & rest' & E & HM & _ & _ & ->)]
  end.
  - exfalso. destruct Hocc as (a & b & E).
    apply (hit_post_complete u (rev a ++ []) (b ++ []) Hu).
    rewrite app_assoc. apply Hq; [exact E|].
    intros H. apply app_eq_nil in H as [H _].
    exact (post_hook_open_nonempty u Hu H).
  - apply occ_app_r. rewrite <- !app_assoc. apply occ_app_l.
    exists [], []. rewrite app_nil_r. reflexivity.
Qed.

(** X7. [dbt_cfg_add_drop] raises exactly when the configuration holds no
    opening of a hook list ([post_hook], [=] and an opening bracket,
    whitespace allowed in between); otherwise it returns a text in which
    the opening is written [post_hook = [], so that a further call returns
    as well.  (The new references hold no backslash, so that [sub] takes
    the replacement as it is.) *)
Theorem add_drop_raises_exactly_without_hook (dbt_config : str)
    (scripts : list SmallScript) :
  Forall (fun scr => ~ In backslash (new_reference scr)) scripts ->
  ((forall u, post_hook_open u -> ~ occ u dbt_config) ->
     dbt_cfg_add_drop dbt_config scripts = Raise (Exception post_hook_missing)) /\
  (forall u, post_hook_open u -> occ u dbt_config ->
     exists c, dbt_cfg_add_drop dbt_config scripts = Ok c /\
       occ (lit "post_hook = [") c).
Proof.
  intros _. split.
  - intros H. unfold dbt_cfg_add_drop.
    rewrite (proj2 (re_search_post_None dbt_config) H). reflexivity.
  - intros u Hu Hocc. exact (add_drop_ok dbt_config u scripts Hu Hocc).
Qed.

Lemma add_drop_raises_exactly_without_hook_witness :
  ((forall u, post_hook_open u -> ~ occ u (py "{{ config(post_hook=[]) }}")) ->
     dbt_cfg_add_drop (py "{{ config(post_hook=[]) }}") [entity_a; entity_final] =
       Raise (Exception post_hook_missing)) /\
  (forall u, post_hook_open u -> occ u (py "{{ config(post_hook=[]) }}") ->
     exists c,
       dbt_cfg_add_drop (py "{{ config(post_hook=[]) }}") [entity_a; entity_final] =
         Ok c /\
       occ (lit "post_hook = [") c).
Proof.
  apply (add_drop_raises_exactly_without_hook (py "{{ config(post_hook=[]) }}")
           [entity_a; entity_final]).
  repeat constructor; vm_compute;
    intros H; repeat (destruct H as [H|H]; [discriminate H|]); exact H.
Defined.

(** *** The first match of a pattern, which [re] takes *)

Lemma ms_Chr_hd (p : ascii -> bool) (prev t : str) (c : ascii)
    (caps : list (nat * str)) :
  p c = true ->
  ms (Chr p) (MState prev (c :: t) caps) = [MState (c :: prev) t caps].
Proof. intros H. cbn. rewrite H. reflexivity. Qed.

Lemma ms_Chr_none (p : ascii -> bool) (prev r : str) (caps : list (nat * str)) :
  r = [] \/ (exists c t, r = c :: t /\ p c = false) ->
  ms (Chr p) (MState prev r caps) = [].
Proof.
  intros [-> | (c & t & -> & H)]; cbn; [|rewrite H]; reflexivity.
Qed.

Lemma ms_Lit_hd (p : str) : forall prev r caps,
  ms (Lit p) (MState prev (p ++ r) caps) = [MState (rev p ++ prev) r caps].
Proof.
  induction p as [|c p IH]; intros prev r caps; [reflexivity|].
  cbn [Lit ms app]. cbn [m_rest]. rewrite Ascii.eqb_refl. cbn.
  rewrite IH, app_nil_r, <- app_assoc. reflexivity.
Qed.

Lemma ms_Seq_hd (r1 r2 : regex) (s s1 s2 : mstate) (l1 l2 : list mstate) :
  ms r1 s = s1 :: l1 -> ms r2 s1 = s2 :: l2 ->
  exists l, ms (Seq r1 r2) s = s2 :: l.
Proof.
  intros H1 H2. cbn [ms]. rewrite H1. cbn [flat_map]. rewrite H2.
  eexists. reflexivity.
Qed.

(** A greedy run of a class stops first where the class stops. *)
Lemma rep_chr_greedy_hd (p : ascii -> bool) (r : str) (caps : list (nat * str)) :
  r = [] \/ (exists c t, r = c :: t /\ p c = false) ->
  forall w prev bound, forallb p w = true ->
  List.length (w ++ r) <= bound ->
  exists l, rep_run (ms (Chr p)) true 0 bound (MState prev (w ++ r) caps) =
            MState (rev w ++ prev) r caps :: l.
Proof.
  intros Hr. induction w as [|x w IH]; intros prev bound Hw Hb.
  - cbn [app rev]. destruct bound as [|b]; cbn [rep_run Nat.eqb].
    + eexists. reflexivity.
    + rewrite (ms_Chr_none p prev r caps Hr). cbn. eexists. reflexivity.
  - cbn [forallb] in Hw. apply andb_true_iff in Hw as [Hx Hw].
    destruct bound as [|b]; [cbn in Hb; lia|].
    cbn [app] in *. cbn [rep_run Nat.eqb pred].
    rewrite (ms_Chr_hd p prev (w ++ r) x caps Hx). cbn [flat_map m_rest].
    assert (Hlt : (List.length (w ++ r) <? List.length (x :: w ++ r)) = true).
    { apply Nat.ltb_lt. cbn. lia. }
    rewrite Hlt. destruct (IH (x :: prev) b Hw) as (l & ->).
    { cbn in Hb. lia. }
    cbn [rev].
    replace ((rev w ++ [x]) ++ prev) with (rev w ++ x :: prev)
      by (rewrite <- app_assoc; reflexivity).
    cbn. eexists. reflexivity.
Qed.

Lemma ms_Star_hd (p : ascii -> bool) (w r prev : str) (caps : list (nat * str)) :
  forallb p w = true ->
  r = [] \/ (exists c t, r = c :: t /\ p c = false) ->
  exists l, ms (Star (Chr p)) (MState prev (w ++ r) caps) =
            MState (rev w ++ prev) r caps :: l.
Proof.
  intros Hw Hr. unfold Star. cbn [ms m_rest].
  apply rep_chr_greedy_hd; auto.
Qed.

Lemma hit_of_hd (r : regex) (prev M rest : str) (s' : mstate)
    (l : list mstate) :
  M <> [] -> ms r (MState prev (M ++ rest) []) = s' :: l -> m_rest s' = rest ->
  hit r prev (M ++ rest) = Some (List.length M, m_caps s').
Proof.
  intros HM Hms Hrest. unfold hit, found, match_here. rewrite Hms.
  cbn [hd_error]. rewrite Hrest, length_app.
  replace (List.length M + List.length rest - List.length rest)
    with (List.length M) by lia.
  destruct M; [congruence | reflexivity].
Qed.

Lemma not_space_next (c : ascii) (t : str) :
  is_space c = false ->
  c :: t = [] \/ (exists d t', c :: t = d :: t' /\ is_space d = false).
Proof. intros H. right. eauto. Qed.

Lemma ms_Seq_hd_ex (r1 r2 : regex) (s s1 s2 : mstate) :
  (exists l, ms r1 s = s1 :: l) -> (exists l, ms r2 s1 = s2 :: l) ->
  exists l, ms (Seq r1 r2) s = s2 :: l.
Proof. intros [l1 H1] [l2 H2]. exact (ms_Seq_hd r1 r2 s s1 s2 l1 l2 H1 H2). Qed.

Lemma ms_Group_Star_hd (p : ascii -> bool) (w b prev : str) :
  forallb p w = true ->
  b = [] \/ (exists c t, b = c :: t /\ p c = false) ->
  exists l, ms (Group 1 (Star (Chr p))) (MState prev (w ++ b) []) =
            MState (rev w ++ prev) b [(1, w)] :: l.
Proof.
  intros Hw Hb. destruct (ms_Star_hd p w b prev [] Hw Hb) as (l & E).
  cbn [ms] in E |- *. rewrite E. cbn [map m_prev m_rest m_caps].
  rewrite (consumed_reads _ _ w); [eexists; reflexivity|].
  split; reflexivity.
Qed.

(** The match of the pattern of [dbt_cfg_add_drop] at an opening of a hook
    list: the opening and all the whitespace after it, which is group 1. *)
Lemma hit_post_hd (w1 w2 w b prev : str) :
  spaces w1 = true -> spaces w2 = true -> spaces w = true ->
  b = [] \/ (exists c t, b = c :: t /\ is_space c = false) ->
  hit post_r prev
    ((lit "post_hook" ++ w1 ++ lit "=" ++ w2 ++ lit "[" ++ w) ++ b) =
  Some (List.length (lit "post_hook" ++ w1 ++ lit "=" ++ w2 ++ lit "[" ++ w),
        [(1, w)]).
Proof.
  intros H1 H2 Hw Hb. unfold spaces in *.
  assert (E : exists p' l,
            ms post_r (MState prev
              ((lit "post_hook" ++ w1 ++ lit "=" ++ w2 ++ lit "[" ++ w) ++ b) []) =
            MState p' b [(1, w)] :: l).
  { eexists. unfold post_r, Space. rewrite <- !app_assoc.
    eapply ms_Seq_hd_ex; [eexists; apply ms_Lit_hd|].
    eapply ms_Seq_hd_ex.
    { apply (ms_Star_hd is_space w1 (lit "=" ++ w2 ++ lit "[" ++ w ++ b));
        [exact H1 | apply not_space_next; reflexivity]. }
    eapply ms_Seq_hd_ex.
    { eexists. apply (ms_Chr_hd _ _ (w2 ++ lit "[" ++ w ++ b)). reflexivity. }
    eapply ms_Seq_hd_ex.
    { apply (ms_Star_hd is_space w2 (lit "[" ++ w ++ b));
        [exact H2 | apply not_space_next; reflexivity]. }
    eapply ms_Seq_hd_ex.
    { eexists. apply (ms_Chr_hd _ _ (w ++ b)). reflexivity. }
    apply ms_Group_Star_hd; assumption. }
  destruct E as (p' & l & E).
  assert (HM : lit "post_hook" ++ w1 ++ lit "=" ++ w2 ++ lit "[" ++ w <> [])
    by (cbn; discriminate).
  rewrite (hit_of_hd _ _ _ _ _ _ HM E eq_refl). reflexivity.
Qed.

(** A text with one match: what [search] finds and what [sub] writes. *)
Lemma scan_once (r : regex) (prev a M b : str) (caps : list (nat * str)) :
  quiet r prev a (M ++ b) ->
  hit r (rev a ++ prev) (M ++ b) = Some (List.length M, caps) ->
  quiet r (rev M ++ rev a ++ prev) b [] ->
  scan r 0 prev (a ++ M ++ b) = map PChar a ++ PMatch M caps :: map PChar b.
Proof.
  intros Ha Hh Hb. rewrite (scan_quiet _ _ _ _ Ha), (scan_hit _ _ _ _ _ Hh).
  rewrite firstn_app, Nat.sub_diag, firstn_all, skipn_app, Nat.sub_diag,
    skipn_all.
  cbn [firstn skipn app]. rewrite app_nil_r.
  rewrite <- (app_nil_r b) at 1. rewrite (scan_quiet _ _ _ _ Hb).
  cbn [scan]. rewrite app_nil_r. reflexivity.
Qed.

Lemma quiet_post_before (prev a R : str) :
  ~ occ (lit "post_hook") a -> quiet post_r prev a (lit "post_hook" ++ R).
Proof.
  intros Ha c1 c2 E Hc2.
  destruct (hit post_r (rev c1 ++ prev) (c2 ++ lit "post_hook" ++ R))
    as [[n caps]|] eqn:Eh; [exfalso | reflexivity].
  apply hit_post_sound in Eh as (u & rest' & (w1 & w2 & -> & _) & Eu).
  rewrite <- !app_assoc in Eu.
  destruct c2 as [|x1 [|x2 [|x3 [|x4 [|x5 [|x6 [|x7 [|x8 [|x9 c2]]]]]]]]];
    [congruence | | | | | | | | |]; cbn in Eu; try discriminate Eu.
  injection Eu as -> -> -> -> -> -> -> -> -> _.
  apply Ha. exists c1, c2. exact E.
Qed.

Lemma quiet_post_after (prev b : str) :
  ~ occ (lit "post_hook") b -> quiet post_r prev b [].
Proof.
  intros Hb c1 c2 E _.
  destruct (hit post_r (rev c1 ++ prev) (c2 ++ [])) as [[n caps]|] eqn:Eh;
    [exfalso | reflexivity].
  apply hit_post_sound in Eh as (u & rest' & (w1 & w2 & -> & _) & Eu).
  rewrite app_nil_r in Eu. apply Hb.
  exists c1, (w1 ++ lit "=" ++ w2 ++ lit "[" ++ rest').
  rewrite E, Eu, <- !app_assoc. reflexivity.
Qed.

(** X8. On a configuration with one hook list, [dbt_cfg_add_drop] writes the
    opening of the list as [post_hook = [], keeps the whitespace [w] that
    followed the bracket, and puts right after it one quoted statement
    [drop table] with the new reference for each intermediate entity, in
    the order of the entities, each followed by a comma and [w]; the text
    before and the text after are kept.  (The new references hold no
    backslash, so that [sub] takes the replacement as it is.) *)
Theorem add_drop_on_single_hook (a w1 w2 w b : str)
    (scripts : list SmallScript) :
  Forall (fun scr => ~ In backslash (new_reference scr)) scripts ->
  spaces w1 = true -> spaces w2 = true -> spaces w = true ->
  b = [] \/ (exists c t, b = c :: t /\ is_space c = false) ->
  ~ occ (lit "post_hook") a -> ~ occ (lit "post_hook") b ->
  dbt_cfg_add_drop
    (a ++ (lit "post_hook" ++ w1 ++ lit "=" ++ w2 ++ lit "[" ++ w) ++ b)
    scripts =
  Ok (a ++ (lit "post_hook = [" ++ w ++ drop_statements w scripts) ++ b).
Proof.
  intros _ H1 H2 Hw Hb Ha Hb'.
  set (M := lit "post_hook" ++ w1 ++ lit "=" ++ w2 ++ lit "[" ++ w).
  assert (Hs : scan post_r 0 [] (a ++ M ++ b) =
               map PChar a ++ PMatch M [(1, w)] :: map PChar b).
  { apply scan_once.
    - unfold M. rewrite <- !app_assoc. apply quiet_post_before. exact Ha.
    - apply hit_post_hd; assumption.
    - apply quiet_post_after. exact Hb'. }
  unfold dbt_cfg_add_drop, re_search, re_sub, pieces. rewrite Hs.
  rewrite first_match_chars. cbn [first_match].
  change (groups_of post_r [(1, w)]) with [w].
  cbn [List.length Nat.leb nth]. rewrite post_string_drops.
  rewrite flat_map_app. cbn [flat_map render]. rewrite !render_chars.
  rewrite <- !app_assoc. reflexivity.
Qed.

Lemma add_drop_on_single_hook_witness :
  dbt_cfg_add_drop
    (py "{{ config(" ++ (lit "post_hook" ++ lit " " ++ lit "=" ++ [] ++ lit "["
                           ++ py "\n  ") ++ py "'x']) }}")
    [entity_a; entity_final] =
  Ok (py "{{ config(" ++
      (lit "post_hook = [" ++ py "\n  " ++
       drop_statements (py "\n  ") [entity_a; entity_final]) ++
      py "'x']) }}").
Proof.
  apply add_drop_on_single_hook; try reflexivity.
  - repeat constructor; vm_compute;
      intros H; repeat (destruct H as [H|H]; [discriminate H|]); exact H.
  - right. eexists _, _. split; reflexivity.
  - apply no_occ_by_search; [discriminate | vm_compute; reflexivity].
  - apply no_occ_by_search; [discriminate | vm_compute; reflexivity].
Defined.

(** ** The Reference Rewriter *)

Lemma re_sub_quiet (r : regex) (repl text : str) :
  quiet r [] text [] -> re_sub r repl text = text.
Proof.
  intros Hq. unfold re_sub, pieces. rewrite <- (app_nil_r text) at 1.
  rewrite (scan_quiet _ _ _ _ Hq). cbn [scan]. rewrite app_nil_r.
  apply render_chars.
Qed.

Lemma quiet_ref_without_keyword (name text : str) :
  ~ occ (lit "from") text -> ~ occ (lit "join") text ->
  quiet (re_expr_of name) [] text [].
Proof.
  intros Hf Hj c1 c2 E _.
  destruct (hit (re_expr_of name) (rev c1 ++ []) (c2 ++ [])) as [[n caps]|] eqn:Eh;
    [exfalso | reflexivity].
  apply hit_ref_sound in Eh as (kw & p0 & w & rest' & Hkw & Hp & _).
  rewrite app_nil_r in Hp. apply (f_equal (@rev ascii)) in Hp.
  rewrite rev_involutive, rev_app_distr, rev_involutive in Hp.
  assert (Hocc : occ kw text).
  { exists (rev p0), c2. rewrite E, Hp, <- app_assoc. reflexivity. }
  destruct Hkw as [-> | ->]; contradiction.
Qed.

(** X9. The rewriter changes nothing in a text that holds neither [from]
    nor [join] in lower case: every rule looks behind for one of the two
    keywords, as they are written here, so that a table after [FROM] or
    [JOIN] in upper case is never replaced.  (Old names without
    metacharacters stand for themselves in the rules, and new references
    without backslash are replacements that [sub] takes as they are.) *)
Theorem rewrite_refs_without_keyword (base_script final_script : str)
    (scripts : list SmallScript) (text : str) :
  Forall (built base_script final_script) scripts ->
  Forall (fun e => no_meta (fmt (old_name e)) = true) scripts ->
  Forall (fun e => ~ In backslash (new_reference e)) scripts ->
  ~ occ (lit "from") text -> ~ occ (lit "join") text ->
  rewrite_refs scripts text = text.
Proof.
  intros Hb _ _ Hf Hj. unfold rewrite_refs.
  induction Hb as [|e scripts (blk & He) _ IH]; [reflexivity|].
  cbn [fold_left]. apply SmallScript_init_fields in He as [Hre _].
  rewrite Hre, re_sub_quiet; [exact IH|].
  apply quiet_ref_without_keyword; assumption.
Qed.

Lemma rewrite_refs_without_keyword_witness :
  rewrite_refs [entity_a; entity_final] (py "select *\nFROM a\nJOIN a\n") =
  py "select *\nFROM a\nJOIN a\n".
Proof.
  apply (rewrite_refs_without_keyword (lit "big") (lit "out")).
  - repeat constructor; [exists block_a; exact entity_a_built
                        | exists block_final; exact entity_final_built].
  - repeat constructor; vm_compute; reflexivity.
  - repeat constructor; vm_compute;
      intros H; repeat (destruct H as [H|H]; [discriminate H|]); exact H.
  - apply no_occ_by_search; [discriminate | vm_compute; reflexivity].
  - apply no_occ_by_search; [discriminate | vm_compute; reflexivity].
Defined.

(** ** The Script Segmenter *)

Lemma re_split_eq (r : regex) (limit : option nat) (text : str) :
  re_split r limit text = split_from r limit [] [] text.
Proof. reflexivity. Qed.

(** The first item of a split is the text before the first match. *)
Lemma re_split_None_head (r : regex) (text : str) :
  exists h t rest, re_split r None text = h :: t /\ text = h ++ rest.
Proof.
  rewrite re_split_eq.
  destruct (scan_first r text [])
    as [[Hq _]|(c & M & caps & rest' & E & HM & Hq & Hh & _)].
  - exists text, [], []. rewrite (split_from_all_quiet _ _ _ _ Hq), app_nil_r. auto.
  - exists c. rewrite E, (split_from_quiet _ _ _ _ _ _ Hq).
    rewrite (split_from_hit _ _ _ _ _ _ Hh), !app_nil_r, rev_involutive.
    eexists _, _. split; reflexivity.
Qed.

Lemma quiet_Lit (p prev text : str) :
  ~ occ p text -> quiet (Lit p) prev text [].
Proof.
  intros Hno c1 c2 E _.
  destruct (hit (Lit p) (rev c1 ++ prev) (c2 ++ [])) as [[n caps]|] eqn:Eh;
    [exfalso | reflexivity].
  apply hit_Lit_start in Eh as [t Et]. rewrite app_nil_r in Et.
  apply Hno. exists c1, t. rewrite E, Et. reflexivity.
Qed.

(** X10. A source in which no line feed is followed by [with ] makes the
    segmenter raise [ValueError], a source that starts with [with ] on its
    first line for one: the split of line 141 has a single item. *)
Theorem source_without_with_line (all : str) :
  ~ occ (py "\nwith ") all ->
  get_individual_scripts_and_dbt_config all = Raise ValueError.
Proof.
  intros Hno. unfold get_individual_scripts_and_dbt_config.
  destruct (re_split_None_head marker_r all) as (h & t & rest & -> & E).
  cbn [getitem nth_error bind].
  rewrite re_split_eq, split_from_all_quiet; [reflexivity|].
  apply (quiet_Lit (py "\nwith ")). intros H. apply Hno.
  rewrite E. apply occ_app_l. exact H.
Qed.

Lemma source_without_with_line_witness :
  get_individual_scripts_and_dbt_config
    (py "with a as\n(\n select 1\n from t\n)\nselect *\nfrom a\n") =
  Raise ValueError.
Proof.
  apply source_without_with_line.
  apply no_occ_by_search; [discriminate | vm_compute; reflexivity].
Defined.

Lemma hit_Lit_length (p prev M rest : str) (caps : list (nat * str)) :
  hit (Lit p) prev (M ++ rest) = Some (List.length M, caps) -> M = p.
Proof.
  intros H. pose proof H as H'. apply hit_Lit_start in H' as [t Et].
  assert (Hp : p <> []).
  { intros ->. apply hit_Some in H as (s' & Hin & Hn & Hz & _).
    apply in_ms_Lit in Hin as [[Hr _] _]. cbn [m_rest app] in Hr.
    rewrite Hr in Hn. lia. }
  rewrite Et, (hit_Lit p prev t Hp) in H. injection H as Hl _.
  symmetry in Hl. apply (app_inj_length _ _ _ _ Et Hl).
Qed.

(** The split of line 141, when it has two items. *)
Lemma re_split_with_inv (h a b : str) :
  re_split with_r (Some 1) h = [a; b] ->
  h = a ++ py "\nwith " ++ b /\ ~ occ (py "\nwith ") a.
Proof.
  rewrite re_split_eq.
  destruct (scan_first with_r h [])
    as [[Hq _]|(c & M & caps & rest' & E & HM & Hq & Hh & _)].
  - rewrite (split_from_all_quiet _ _ _ _ Hq). discriminate.
  - rewrite E, (split_from_quiet _ _ _ _ _ _ Hq).
    rewrite (split_from_hit_once _ _ _ _ _ _ Hh), !app_nil_r, rev_involutive.
    change (groups_of with_r caps) with (@nil str). cbn [app].
    intros H. injection H as <- <-.
    apply hit_Lit_length in Hh. subst M. split; [reflexivity|].
    intros (x & y & Ec).
    assert (Hhit : hit with_r (rev x ++ [])
                     ((py "\nwith " ++ y) ++ py "\nwith " ++ rest') <> None).
    { rewrite <- app_assoc. unfold with_r.
      rewrite (hit_Lit (py "\nwith ")) by discriminate. discriminate. }
    apply Hhit. apply Hq; [exact Ec | discriminate].
Qed.

(** X11. When the segmenter returns, the configuration text that it returns
    is the source up to the first line feed that [with ] follows, and the
    blocks are two at least. *)
Theorem config_is_text_before_with (all : str) (scripts : list str)
    (dbt_config : str) :
  get_individual_scripts_and_dbt_config all = Ok (scripts, dbt_config) ->
  (exists rest, all = dbt_config ++ py "\nwith " ++ rest) /\
  ~ occ (py "\nwith ") dbt_config /\ 2 <= List.length scripts.
Proof.
  unfold get_individual_scripts_and_dbt_config.
  destruct (re_split_None_head marker_r all) as (h & t & rest & -> & E).
  cbn [getitem nth_error bind].
  destruct (re_split with_r (Some 1) h) as [|a [|b [|x l]]] eqn:Ew;
    cbn [bind]; try discriminate.
  apply re_split_with_inv in Ew as [Eh Ha].
  repeat match goal with
    | |- bind (getitem ?l ?i) _ = _ -> _ =>
        destruct (getitem l i); [|discriminate]; cbn [bind]
    end.
  intros H. injection H as <- <-. split; [|split; [exact Ha|]].
  - exists (b ++ rest). rewrite E, Eh, <- !app_assoc. reflexivity.
  - rewrite length_app. cbn. lia.
Qed.

Lemma config_is_text_before_with_witness :
  (exists rest, py "{{ config() }}\nwith a as\n(\n select 1\n from t\n)\nselect *\nfrom a\n" =
                py "{{ config() }}" ++ py "\nwith " ++ rest) /\
  ~ occ (py "\nwith ") (py "{{ config() }}") /\
  2 <= List.length [block_a; block_final].
Proof.
  apply (config_is_text_before_with
           (py "{{ config() }}\nwith a as\n(\n select 1\n from t\n)\nselect *\nfrom a\n")
           [block_a; block_final] (py "{{ config() }}")).
  vm_compute. reflexivity.
Defined.
